(** * Peloton: host cache lease state machine, goal-state action tables and
      resource-pool gang queues.

    A shallow embedding of

    - [pkg/hostmgr/p2k/hostcache/summary.go] (the per-host summary and its
      lease state machine),
    - the job and task goal-state rule tables with [suggestJobAction] and
      [suggestTaskAction],
    - the resource-pool pending queue exercised by
      [resmgr/respool/respool_test.go].
*)

From Stdlib Require Import ZArith NArith QArith String List Bool Lia.
From stdpp Require Import gmap strings list fin_maps pretty.

Local Open Scope string_scope.
Local Close Scope Q_scope.

(** ** Package [scalar]: the resource vector consumed by the host cache.

    The package itself is not part of the sources at hand; [summary.go] only
    uses the operations below, so they are taken as an interface.  Go's zero
    value [scalar.Resources{}] is [zeroRes]. *)
Class ScalarResources := {
  Resources : Type;
  (** [*peloton.Resources], the wire form passed to [newHostSummary]. *)
  PelotonResources : Type;
  (** [*pod.ResourceSpec], the wire form of a filter's minimum. *)
  ResourceSpec : Type;
  zeroRes : Resources;
  Add : Resources -> Resources -> Resources;
  Contains : Resources -> Resources -> bool;
  TrySubtract : Resources -> Resources -> Resources * bool;
  FromPelotonResources : PelotonResources -> Resources;
  FromResourceSpec : ResourceSpec -> Resources
}.

Module HostCache.

(** [type HostStatus int]: the four [iota + 1] constants, and every other
    value of the type.  Nothing keeps a caller from passing a value that is
    none of the constants, such as the zero value [HostStatus(0)].
    [UndeclaredHost v] stands for the integer [v] when [v < 1] and for
    [v + 4] otherwise, so that every integer is exactly one status. *)
Inductive HostStatus : Set :=
| ReadyHost
| PlacingHost
| ReservedHost
| HeldHost
| UndeclaredHost (v : Z).

#[export] Instance HostStatus_eq_dec : EqDecision HostStatus.
Proof. solve_decision. Defined.

(** The integer behind each status; [%v] prints it. *)
Definition HostStatus_value (s : HostStatus) : Z :=
  match s with
  | ReadyHost => 1
  | PlacingHost => 2
  | ReservedHost => 3
  | HeldHost => 4
  | UndeclaredHost v => if (v <? 1)%Z then v else (v + 4)%Z
  end.

(** The conversion [HostStatus(n)]. *)
Definition HostStatus_of_int (n : Z) : HostStatus :=
  if (n =? 1)%Z then ReadyHost
  else if (n =? 2)%Z then PlacingHost
  else if (n =? 3)%Z then ReservedHost
  else if (n =? 4)%Z then HeldHost
  else UndeclaredHost (if (n <? 1)%Z then n else (n - 4)%Z).

Definition HostStatus_fmt (s : HostStatus) : string :=
  match s with
  | ReadyHost => "1"
  | PlacingHost => "2"
  | ReservedHost => "3"
  | HeldHost => "4"
  | UndeclaredHost _ => pretty (HostStatus_value s)
  end.

(** One of the four declared constants. *)
Definition declared (s : HostStatus) : Prop :=
  s = ReadyHost \/ s = PlacingHost \/ s = ReservedHost \/ s = HeldHost.

Definition emptyLeaseID : string := "".

(** Go [error] values built in [summary.go]: plain ones ([fmt.Errorf],
    [errors.New]) and yarpc ones carrying the InvalidArgument code.  A [nil]
    error is [None]. *)
Inductive error : Set :=
| PlainError (msg : string)
| InvalidArgumentError (msg : string).

Definition error_msg (e : error) : string :=
  match e with
  | PlainError m => m
  | InvalidArgumentError m => "code:invalid-argument message:" ++ m
  end.

Definition isInvalidArgument (e : option error) : bool :=
  match e with
  | Some (InvalidArgumentError _) => true
  | _ => false
  end.

(** [hostmgr.HostFilterResult], the values named by the host cache. *)
Inductive HostFilterResult : Set :=
| HOST_FILTER_MATCH
| HOST_FILTER_INSUFFICIENT_RESOURCES
| HOST_FILTER_MISMATCH_CONSTRAINTS
| HOST_FILTER_MISMATCH_STATUS.

#[export] Instance HostFilterResult_eq_dec : EqDecision HostFilterResult.
Proof. solve_decision. Defined.

Record Match : Set := mkMatch {
  Result : HostFilterResult;
  HostName : string
}.

(** ** The process-wide UUID source

    [uuid.New()] draws from a random source outside the host summary.  The
    source is modelled by the sequence [gen] of the values it is going to
    return and the number [drawn] of values handed out so far. *)
Record UUIDSource : Type := mkSource {
  gen : nat -> string;
  drawn : nat
}.

Definition uuid_New (g : UUIDSource) : string * UUIDSource :=
  (gen g (drawn g), {| gen := gen g; drawn := S (drawn g) |}).

Section Summary.
Context `{SR : ScalarResources}.

Record Label : Set := mkLabel { label_key : string; label_value : string }.

(** [hostmgr.HostFilter] as read by [TryMatch] and [matchHostFilter].  The
    generated getters are nil-safe: a missing message reads as its zero
    value. *)
Record HostHint : Set := mkHostHint { hint_hostname : string }.
Record FilterHint : Set := mkFilterHint { HostHints : list HostHint }.
Record ResourceConstraint : Type := mkResourceConstraint {
  Minimum : option ResourceSpec
}.
Record HostFilter : Type := mkHostFilter {
  ResourceConstraint_ : option ResourceConstraint;
  Hint : option FilterHint
}.

Definition GetHint (f : option HostFilter) : option FilterHint :=
  match f with Some f => Hint f | None => None end.
Definition GetHostHint (h : option FilterHint) : list HostHint :=
  match h with Some h => HostHints h | None => [] end.
Definition GetHostname (h : HostHint) : string := hint_hostname h.
Definition GetResourceConstraint (f : option HostFilter)
  : option ResourceConstraint :=
  match f with Some f => ResourceConstraint_ f | None => None end.
Definition GetMinimum (c : option ResourceConstraint) : option ResourceSpec :=
  match c with Some c => Minimum c | None => None end.

(** [hostSummary]; the mutex is left out, every exported method holds it
    from entry to return.  [time.Time] is a [Z]. *)
Record hostSummary : Type := mkSummary {
  hostname : string;
  capacity : Resources;
  allocated : Resources;
  labels : list Label;
  podToResMap : gmap string Resources;
  heldPodIDs : gmap string Z;
  status : HostStatus;
  leaseID : string;
  version : string
}.

Definition set_status (s : HostStatus) (a : hostSummary) : hostSummary :=
  mkSummary (hostname a) (capacity a) (allocated a) (labels a)
            (podToResMap a) (heldPodIDs a) s (leaseID a) (version a).
Definition set_leaseID (l : string) (a : hostSummary) : hostSummary :=
  mkSummary (hostname a) (capacity a) (allocated a) (labels a)
            (podToResMap a) (heldPodIDs a) (status a) l (version a).
Definition set_podToResMap (m : gmap string Resources) (a : hostSummary)
  : hostSummary :=
  mkSummary (hostname a) (capacity a) (allocated a) (labels a)
            m (heldPodIDs a) (status a) (leaseID a) (version a).
Definition set_allocated (r : Resources) (a : hostSummary) : hostSummary :=
  mkSummary (hostname a) (capacity a) r (labels a)
            (podToResMap a) (heldPodIDs a) (status a) (leaseID a) (version a).

Definition newHostSummary (host : string) (r : PelotonResources)
    (ver : string) : hostSummary :=
  let rs := FromPelotonResources r in
  {| hostname := host; capacity := rs; allocated := zeroRes; labels := [];
     podToResMap := ∅; heldPodIDs := ∅; status := ReadyHost;
     leaseID := ""; version := ver |}.

(** ** Methods as state transformers

    A method runs on the receiver and on the UUID source and returns its
    result with both.  An error does not roll anything back. *)
Record World : Type := mkWorld {
  host : hostSummary;
  uuids : UUIDSource
}.

Definition M (A : Type) : Type := World -> A * World.

Definition ret {A} (x : A) : M A := fun w => (x, w).
Definition bind {A B} (m : M A) (k : A -> M B) : M B :=
  fun w => let (x, w') := m w in k x w'.
Definition getHost : M hostSummary := fun w => (host w, w).
Definition modify (f : hostSummary -> hostSummary) : M unit :=
  fun w => (tt, {| host := f (host w); uuids := uuids w |}).
Definition uuidNew : M string :=
  fun w => let (u, g) := uuid_New (uuids w) in
           (u, {| host := host w; uuids := g |}).

Notation "'do' x <- m ; k" := (bind m (fun x => k))
  (at level 10, x name, m at level 100, k at level 200).
Notation "m ;; k" := (bind m (fun _ => k))
  (at level 100, k at level 200, right associativity).

(** [getAvailable]: capacity minus allocation; when the subtraction fails
    the code only logs and goes on with what [TrySubtract] returned. *)
Definition getAvailable (a : hostSummary) : Resources :=
  let (available, ok) := TrySubtract (capacity a) (allocated a) in
  available.

Definition getResetStatus (a : hostSummary) : HostStatus :=
  if decide (size (heldPodIDs a) ≠ 0%nat) then HeldHost else ReadyHost.

Definition casStatus (oldStatus newStatus : HostStatus) : M (option error) :=
  do a <- getHost;
  if decide (status a ≠ oldStatus) then
    ret (Some (PlainError ("Invalid old status: " ++ HostStatus_fmt oldStatus)))
  else
    modify (set_status newStatus) ;;
    (do a <- getHost;
     match status a with
     | ReadyHost => modify (set_leaseID emptyLeaseID)
     | PlacingHost => do u <- uuidNew; modify (set_leaseID u)
     | ReservedHost => do u <- uuidNew; modify (set_leaseID u)
     | HeldHost => modify (set_leaseID emptyLeaseID)
     | UndeclaredHost _ => ret tt
     end) ;;
    ret None.

(** [matchHostFilter]: only the minimum-resources part is implemented. *)
Definition matchHostFilter (c : option HostFilter) (a : hostSummary)
  : HostFilterResult :=
  let min := GetMinimum (GetResourceConstraint c) in
  let available := getAvailable a in
  match min with
  | Some min =>
      let minRes := FromResourceSpec min in
      if negb (Contains available minRes)
      then HOST_FILTER_INSUFFICIENT_RESOURCES
      else HOST_FILTER_MATCH
  | None => HOST_FILTER_MATCH
  end.

(** The hint loop of [TryMatch]: stop at the first hint naming the host. *)
Definition hintFound (filter : option HostFilter) (a : hostSummary) : bool :=
  existsb (fun hostHint => String.eqb (GetHostname hostHint) (hostname a))
          (GetHostHint (GetHint filter)).

Definition TryMatch (filter : option HostFilter) : M Match :=
  do a <- getHost;
  if decide (status a ≠ ReadyHost ∧ status a ≠ HeldHost) then
    ret (mkMatch HOST_FILTER_MISMATCH_STATUS "")
  else if bool_decide (status a = HeldHost) && negb (hintFound filter a) then
    ret (mkMatch HOST_FILTER_MISMATCH_STATUS "")
  else
    let result := matchHostFilter filter a in
    if decide (result ≠ HOST_FILTER_MATCH) then
      ret (mkMatch result "")
    else
      do err <- casStatus (status a) PlacingHost;
      match err with
      | Some _ => ret (mkMatch HOST_FILTER_MISMATCH_STATUS "")
      | None =>
          do a <- getHost;
          ret (mkMatch HOST_FILTER_MATCH (hostname a))
      end.

(** [calculateAllocated]: sum of the pod map, starting from the zero value.
    Go ranges over a map in an unspecified order; here the loop runs in
    the order of [map_fold].  The same loops with the order as an input
    follow below ([sumResourcesIn], [validateNewPodsIn],
    [updatePodToResMapIn], [CompleteLeaseIn]). *)
Definition sumResources (m : gmap string Resources) : Resources :=
  map_fold (fun _ r acc => Add acc r) zeroRes m.

Definition calculateAllocated (a : hostSummary) : hostSummary :=
  set_allocated (sumResources (podToResMap a)) a.

Definition ReleasePodResources (podID : string) : M unit :=
  do a <- getHost;
  match podToResMap a !! podID with
  | None => ret tt
  | Some _ =>
      modify (fun a => set_podToResMap (delete podID (podToResMap a)) a) ;;
      modify calculateAllocated
  end.

(** [validateNewPods]: the loop leaves with an error at the first pod that
    is already on the host, otherwise it accumulates [needed]. *)
Definition validateStep (a : hostSummary) (podID : string) (res : Resources)
    (acc : error + Resources) : error + Resources :=
  match acc with
  | inl e => inl e
  | inr needed =>
      match podToResMap a !! podID with
      | Some _ =>
          inl (PlainError ("pod " ++ podID ++ " already exists on the host"))
      | None => inr (Add needed res)
      end
  end.

Definition validateNewPods (newPodToResMap : gmap string Resources)
    (a : hostSummary) : option error :=
  let available := getAvailable a in
  match map_fold (validateStep a) (inr zeroRes) newPodToResMap with
  | inl e => Some e
  | inr needed =>
      if negb (Contains available needed)
      then Some (PlainError "host has insufficient resources")
      else None
  end.

Definition updatePodToResMap (newPodToResMap : gmap string Resources)
    (a : hostSummary) : hostSummary :=
  calculateAllocated
    (set_podToResMap
       (map_fold (fun podID res m => <[podID := res]> m)
                 (podToResMap a) newPodToResMap) a).

Definition CompleteLease (lease : string)
    (newPodToResMap : gmap string Resources) : M (option error) :=
  do a <- getHost;
  if decide (status a ≠ PlacingHost) then
    ret (Some (InvalidArgumentError "host status is not Placing"))
  else if negb (String.eqb (leaseID a) lease) then
    ret (Some (InvalidArgumentError "host leaseID does not match"))
  else
    let newState := getResetStatus a in
    do err <- casStatus PlacingHost newState;
    match err with
    | Some e =>
        ret (Some (InvalidArgumentError
                     ("failed to unlock host: " ++ error_msg e)))
    | None =>
        do a <- getHost;
        match validateNewPods newPodToResMap a with
        | Some e =>
            ret (Some (InvalidArgumentError
                         ("pod validation failed: " ++ error_msg e)))
        | None =>
            modify (updatePodToResMap newPodToResMap) ;;
            ret None
        end
    end.

Definition CasStatus (old new : HostStatus) : M (option error) :=
  do err <- casStatus old new;
  match err with
  | Some e =>
      ret (Some (InvalidArgumentError
                   ("failed to set cas status: " ++ error_msg e)))
  | None => ret None
  end.

Definition TerminateLease : M (option error) :=
  do a <- getHost;
  if decide (status a ≠ PlacingHost) then
    ret (Some (InvalidArgumentError
                 ("invalid status " ++ HostStatus_fmt (status a))))
  else
    let newStatus := getResetStatus a in
    do err <- casStatus PlacingHost newStatus;
    match err with
    | Some e =>
        ret (Some (InvalidArgumentError
                     ("failed to set cas status: " ++ error_msg e)))
    | None => ret None
    end.

(** ** The order of a map range

    Go ranges over a map in an order it does not specify, and the order may
    change from one loop to the next.  [sumResources], [validateNewPods] and
    [updatePodToResMap] above run every loop in the order of [map_fold].
    Below, the order of each loop is an input: a list that holds the entries
    of the map ranged over, each of them once. *)
Definition rangeOf (m : gmap string Resources)
    (order : list (string * Resources)) : Prop :=
  order ≡ₚ map_to_list m.

(** The loop of [calculateAllocated]. *)
Definition sumResourcesIn (order : list (string * Resources)) : Resources :=
  fold_left (fun allocated e => Add allocated e.2) order zeroRes.

Definition calculateAllocatedIn (order : list (string * Resources))
    (a : hostSummary) : hostSummary :=
  set_allocated (sumResourcesIn order) a.

(** [validateNewPods], its loop run in the given order. *)
Definition validateNewPodsIn (order : list (string * Resources))
    (a : hostSummary) : option error :=
  let available := getAvailable a in
  match fold_left (fun acc e => validateStep a e.1 e.2 acc) order
                  (inr zeroRes) with
  | inl e => Some e
  | inr needed =>
      if negb (Contains available needed)
      then Some (PlainError "host has insufficient resources")
      else None
  end.

(** [updatePodToResMap]: the loop over the new pods in [orderNew], then
    [calculateAllocated] over the resulting pod map in [orderAll]. *)
Definition updatePodToResMapIn (orderNew orderAll : list (string * Resources))
    (a : hostSummary) : hostSummary :=
  calculateAllocatedIn orderAll
    (set_podToResMap
       (fold_left (fun m e => <[e.1 := e.2]> m) orderNew (podToResMap a)) a).

(** [CompleteLease] with the orders of its three loops: the validation of
    the new pods, their insertion, and the sum over the updated pod map. *)
Definition CompleteLeaseIn
    (orderValidate orderUpdate orderAllocated : list (string * Resources))
    (lease : string) : M (option error) :=
  do a <- getHost;
  if decide (status a ≠ PlacingHost) then
    ret (Some (InvalidArgumentError "host status is not Placing"))
  else if negb (String.eqb (leaseID a) lease) then
    ret (Some (InvalidArgumentError "host leaseID does not match"))
  else
    let newState := getResetStatus a in
    do err <- casStatus PlacingHost newState;
    match err with
    | Some e =>
        ret (Some (InvalidArgumentError
                     ("failed to unlock host: " ++ error_msg e)))
    | None =>
        do a <- getHost;
        match validateNewPodsIn orderValidate a with
        | Some e =>
            ret (Some (InvalidArgumentError
                         ("pod validation failed: " ++ error_msg e)))
        | None =>
            modify (updatePodToResMapIn orderUpdate orderAllocated) ;;
            ret None
        end
    end.

(** ** Traces of exported calls *)
Inductive Call : Type :=
| CallTryMatch (filter : option HostFilter)
| CallCompleteLease (lease : string) (newPodToResMap : gmap string Resources)
| CallTerminateLease
| CallCasStatus (old new : HostStatus)
| CallReleasePodResources (podID : string).

Definition exec (c : Call) (w : World) : World :=
  match c with
  | CallTryMatch f => snd (TryMatch f w)
  | CallCompleteLease l m => snd (CompleteLease l m w)
  | CallTerminateLease => snd (TerminateLease w)
  | CallCasStatus o n => snd (CasStatus o n w)
  | CallReleasePodResources p => snd (ReleasePodResources p w)
  end.

(** The worlds reachable from a new summary by exported calls. *)
Inductive reachable (h : string) (r : PelotonResources) (v : string)
    (g : UUIDSource) : World -> Prop :=
| reach_new : reachable h r v g (mkWorld (newHostSummary h r v) g)
| reach_call w c : reachable h r v g w -> reachable h r v g (exec c w).

(** A call that hands [CasStatus] one of the four declared constants as the
    new status; the other calls choose the new status themselves. *)
Definition declaredCall (c : Call) : Prop :=
  match c with
  | CallCasStatus _ new => declared new
  | _ => True
  end.

(** The worlds reachable from a new summary by such calls. *)
Inductive reachableDeclared (h : string) (r : PelotonResources) (v : string)
    (g : UUIDSource) : World -> Prop :=
| reachd_new : reachableDeclared h r v g (mkWorld (newHostSummary h r v) g)
| reachd_call w c :
    reachableDeclared h r v g w -> declaredCall c ->
    reachableDeclared h r v g (exec c w).

(** ** Vocabulary of the statements below *)

(** The world a successful [casStatus _ newStatus] leaves behind. *)
Definition entered (newStatus : HostStatus) (w : World) : World :=
  match newStatus with
  | ReadyHost | HeldHost =>
      mkWorld (set_leaseID emptyLeaseID (set_status newStatus (host w)))
              (uuids w)
  | PlacingHost | ReservedHost =>
      mkWorld (set_leaseID (fst (uuid_New (uuids w)))
                           (set_status newStatus (host w)))
              (snd (uuid_New (uuids w)))
  | UndeclaredHost _ => mkWorld (set_status newStatus (host w)) (uuids w)
  end.

(** New pods can be launched: none of them is on the host already and
    their aggregate fits into what is available. *)
Definition podsValid (newPodToResMap : gmap string Resources)
    (a : hostSummary) : Prop :=
  (∀ podID, is_Some (newPodToResMap !! podID) → podToResMap a !! podID = None)
  ∧ Contains (getAvailable a) (sumResources newPodToResMap) = true.

(** Some host hint of the filter names the host. *)
Definition hintNames (filter : option HostFilter) (a : hostSummary) : Prop :=
  ∃ hostHint, hostHint ∈ GetHostHint (GetHint filter)
              ∧ GetHostname hostHint = hostname a.

(** A lease is held exactly while the host is placing or reserved. *)
Definition leaseInvariant (a : hostSummary) : Prop :=
  leaseID a ≠ emptyLeaseID ↔ (status a = PlacingHost ∨ status a = ReservedHost).

(** Every value the UUID source hands out is a non-empty string. *)
Definition uuidsNonEmpty (g : UUIDSource) : Prop :=
  ∀ n, gen g n ≠ emptyLeaseID.

(** What one exported call does to status, lease ID and UUID source: either
    it leaves all three alone, or it ends with them as a successful
    [casStatus] into the final status leaves them. *)
Definition quiet (w w' : World) : Prop :=
  status (host w') = status (host w)
  /\ leaseID (host w') = leaseID (host w)
  /\ uuids w' = uuids w.

Definition transitioned (w w' : World) : Prop :=
  leaseID (host w') = leaseID (host (entered (status (host w')) w))
  /\ uuids w' = uuids (entered (status (host w')) w).

End Summary.
End HostCache.

(** ** The remaining methods of the host summary *)
Module HostCacheOps.
Import HostCache.

Section Ops.
Context `{SR : ScalarResources}.

Definition set_capacity (r : Resources) (a : hostSummary) : hostSummary :=
  mkSummary (hostname a) r (allocated a) (labels a)
            (podToResMap a) (heldPodIDs a) (status a) (leaseID a) (version a).
Definition set_version (v : string) (a : hostSummary) : hostSummary :=
  mkSummary (hostname a) (capacity a) (allocated a) (labels a)
            (podToResMap a) (heldPodIDs a) (status a) (leaseID a) v.

Definition GetCapacity : M Resources := fun w => (capacity (host w), w).
Definition GetAllocated : M Resources := fun w => (allocated (host w), w).
Definition SetCapacity (r : Resources) : M unit :=
  fun w => (tt, mkWorld (set_capacity r (host w)) (uuids w)).
Definition GetVersion : M string := fun w => (version (host w), w).
Definition SetVersion (v : string) : M unit :=
  fun w => (tt, mkWorld (set_version v (host w)) (uuids w)).
Definition GetHostname : M string := fun w => (hostname (host w), w).
Definition GetHostStatus : M HostStatus := fun w => (status (host w), w).

(** Every state-changing call of the [HostSummary] interface. *)
Inductive Mutation : Type :=
| MutCall (c : Call)
| MutSetCapacity (r : Resources)
| MutSetVersion (v : string).

Definition mutate (m : Mutation) (w : World) : World :=
  match m with
  | MutCall c => exec c w
  | MutSetCapacity r => snd (SetCapacity r w)
  | MutSetVersion v => snd (SetVersion v w)
  end.

Definition run (ms : list Mutation) (w : World) : World :=
  fold_left (fun w m => mutate m w) ms w.

(** The comment on [allocated]: it is the sum of the pod map. *)
Definition allocationInvariant (a : hostSummary) : Prop :=
  allocated a = sumResources (podToResMap a).

(** The fields no lease call writes. *)
Definition sameIdentity (a a' : hostSummary) : Prop :=
  hostname a' = hostname a /\ capacity a' = capacity a
  /\ labels a' = labels a /\ heldPodIDs a' = heldPodIDs a
  /\ version a' = version a.

End Ops.
End HostCacheOps.

(** ** Job goal-state rules ([jobmgr/goalstate], job entity) *)
Module JobGoalState.

(** [job.JobState]; the generated enumeration is not among the sources, its
    members are the ones the rules name plus [UNKNOWN]. *)
Inductive JobState : Set :=
| JobState_UNKNOWN
| JobState_INITIALIZED
| JobState_PENDING
| JobState_RUNNING
| JobState_SUCCEEDED
| JobState_FAILED
| JobState_KILLED
| JobState_KILLING
| JobState_UNINITIALIZED.

#[export] Instance JobState_eq_dec : EqDecision JobState.
Proof. solve_decision. Defined.

(** [type JobAction string] and its constants. *)
Inductive JobAction : Set :=
| NoJobAction
| CreateTasksAction
| KillAction
| UntrackAction
| JobStateInvalidAction
| RuntimeUpdateAction
| EvaluateSLAAction
| ClearAction
| EnqeueAction
| RecoverAction
| DeleteFromActiveJobsAction
| StartTasksAction.

Definition JobAction_string (a : JobAction) : string :=
  match a with
  | NoJobAction => "noop"
  | CreateTasksAction => "create_tasks"
  | KillAction => "job_kill"
  | UntrackAction => "untrack"
  | JobStateInvalidAction => "state_invalid"
  | RuntimeUpdateAction => "runtime_update"
  | EvaluateSLAAction => "evaluate_sla"
  | ClearAction => "job_clear"
  | EnqeueAction => "enqueue"
  | RecoverAction => "recover"
  | DeleteFromActiveJobsAction => "delete_from_active_jobs"
  | StartTasksAction => "job_start"
  end.

(** [_isoVersionsJobRules]: goal-state -> current-state -> action.  A
    missing key is [None]. *)
Definition _isoVersionsJobRules (goal : JobState)
  : option (JobState -> option JobAction) :=
  match goal with
  | JobState_RUNNING => Some (fun cur =>
      match cur with
      | JobState_INITIALIZED => Some CreateTasksAction
      | JobState_SUCCEEDED => Some JobStateInvalidAction
      | JobState_FAILED => Some JobStateInvalidAction
      | JobState_KILLING => Some JobStateInvalidAction
      | JobState_UNINITIALIZED => Some RecoverAction
      | _ => None
      end)
  | JobState_SUCCEEDED => Some (fun cur =>
      match cur with
      | JobState_INITIALIZED => Some CreateTasksAction
      | JobState_SUCCEEDED => Some UntrackAction
      | JobState_FAILED => Some UntrackAction
      | JobState_KILLED => Some UntrackAction
      | JobState_KILLING => Some JobStateInvalidAction
      | JobState_UNINITIALIZED => Some RecoverAction
      | _ => None
      end)
  | JobState_KILLED => Some (fun cur =>
      match cur with
      | JobState_SUCCEEDED => Some UntrackAction
      | JobState_FAILED => Some UntrackAction
      | JobState_KILLED => Some UntrackAction
      | JobState_UNINITIALIZED => Some UntrackAction
      | JobState_INITIALIZED => Some KillAction
      | JobState_PENDING => Some KillAction
      | JobState_RUNNING => Some KillAction
      | _ => None
      end)
  | JobState_FAILED => Some (fun cur =>
      match cur with
      | JobState_INITIALIZED => Some JobStateInvalidAction
      | JobState_PENDING => Some JobStateInvalidAction
      | JobState_RUNNING => Some JobStateInvalidAction
      | JobState_SUCCEEDED => Some JobStateInvalidAction
      | JobState_FAILED => Some JobStateInvalidAction
      | JobState_KILLED => Some JobStateInvalidAction
      | JobState_KILLING => Some JobStateInvalidAction
      | JobState_UNINITIALIZED => Some JobStateInvalidAction
      | _ => None
      end)
  | _ => None
  end.

(** The two-level lookup [_isoVersionsJobRules[goal][cur]]. *)
Definition jobRule (goal cur : JobState) : option JobAction :=
  match _isoVersionsJobRules goal with
  | Some tr => tr cur
  | None => None
  end.

(** [cached.JobStateVector]; [StateVersion] is a [uint64]. *)
Record JobStateVector : Set := mkJobStateVector {
  State : JobState;
  StateVersion : N
}.

Definition suggestJobAction (state goalstate : JobStateVector) : JobAction :=
  let rules :=
    match _isoVersionsJobRules (State goalstate) with
    | Some tr =>
        match tr (State state) with
        | Some a => a
        | None => NoJobAction
        end
    | None => NoJobAction
    end in
  if (StateVersion state <? StateVersion goalstate)%N then
    if decide (State goalstate = JobState_RUNNING) then
      if decide (State state = JobState_INITIALIZED) then CreateTasksAction
      else StartTasksAction
    else rules
  else rules.

End JobGoalState.

(** ** Task goal-state rules ([jobmgr/goalstate], task engine) *)
Module TaskGoalState.

(** [task.TaskState]; the generated enumeration is not among the sources.
    The members are those of the task API, of which the rules name seven. *)
Inductive TaskState : Set :=
| TaskState_UNKNOWN
| TaskState_INITIALIZED
| TaskState_PENDING
| TaskState_READY
| TaskState_PLACING
| TaskState_PLACED
| TaskState_LAUNCHING
| TaskState_LAUNCHED
| TaskState_RUNNING
| TaskState_SUCCEEDED
| TaskState_FAILED
| TaskState_LOST
| TaskState_PREEMPTING
| TaskState_KILLING
| TaskState_KILLED.

#[export] Instance TaskState_eq_dec : EqDecision TaskState.
Proof. solve_decision. Defined.

(** [tracked.TaskAction], the constants the engine uses. *)
Inductive TaskAction : Set :=
| NoAction
| UntrackAction
| StartAction
| StopAction
| UseGoalVersionAction.

Definition _isoVersionsTaskRules (goal : TaskState)
  : option (TaskState -> option TaskAction) :=
  match goal with
  | TaskState_RUNNING => Some (fun cur =>
      match cur with
      | TaskState_INITIALIZED => Some StartAction
      | _ => None
      end)
  | TaskState_SUCCEEDED => Some (fun cur =>
      match cur with
      | TaskState_INITIALIZED => Some StartAction
      | TaskState_SUCCEEDED => Some UntrackAction
      | TaskState_KILLED => Some UntrackAction
      | _ => None
      end)
  | TaskState_KILLED => Some (fun cur =>
      match cur with
      | TaskState_INITIALIZED => Some StopAction
      | TaskState_LAUNCHING => Some StopAction
      | TaskState_LAUNCHED => Some StopAction
      | TaskState_RUNNING => Some StopAction
      | TaskState_KILLED => Some UntrackAction
      | TaskState_SUCCEEDED => Some UntrackAction
      | TaskState_FAILED => Some UntrackAction
      | _ => None
      end)
  | TaskState_FAILED => Some (fun cur =>
      match cur with
      | TaskState_FAILED => Some UntrackAction
      | TaskState_SUCCEEDED => Some UntrackAction
      | TaskState_KILLED => Some UntrackAction
      | _ => None
      end)
  | _ => None
  end.

(** [tracked.State]: a task state at a configuration version ([uint64]). *)
Record State : Set := mkState {
  State_ : TaskState;
  ConfigVersion : N
}.

(** [tracked.Task], as far as [suggestTaskAction] reads it. *)
Record Task : Set := mkTask {
  CurrentState : State;
  GoalState : State
}.

(** The table lookup at the end of [suggestTaskAction]. *)
Definition tableAction (goal cur : TaskState) : TaskAction :=
  match _isoVersionsTaskRules goal with
  | Some tr =>
      match tr cur with
      | Some a => a
      | None => NoAction
      end
  | None => NoAction
  end.

Section Engine.
(** [tracked.UnknownVersion] and [util.IsPelotonStateTerminal] live in
    packages that are not among the sources. *)
Variable UnknownVersion : N.
Variable IsPelotonStateTerminal : TaskState -> bool.

Definition suggestTaskAction (t : Task) : TaskAction :=
  let currentState := CurrentState t in
  let goalState := GoalState t in
  let rules := tableAction (State_ goalState) (State_ currentState) in
  if negb (ConfigVersion currentState =? ConfigVersion goalState)%N then
    if (ConfigVersion currentState =? UnknownVersion)%N
       || (ConfigVersion goalState =? UnknownVersion)%N then rules
    else if IsPelotonStateTerminal (State_ currentState)
    then UseGoalVersionAction
    else StopAction
  else rules.

End Engine.

(** [math.MaxUint64], the value of [tracked.UnknownVersion]. *)
Definition MaxUint64 : N := 18446744073709551615.

(** Modelled from the spec: [util.IsPelotonStateTerminal] is not among the
    sources.  The terminal task states are the ones a task does not leave
    on its own: SUCCEEDED, FAILED, KILLED and LOST. *)
Definition IsPelotonStateTerminal (s : TaskState) : bool :=
  match s with
  | TaskState_SUCCEEDED | TaskState_FAILED
  | TaskState_KILLED | TaskState_LOST => true
  | _ => false
  end.

End TaskGoalState.

(** ** The action list of a job entity and the task engine's rescheduling *)
Module JobEntity.
Import JobGoalState.

#[export] Instance JobAction_eq_dec : EqDecision JobAction.
Proof. solve_decision. Defined.

(** The [goalstate.ActionExecute] functions the job entity refers to, by
    name. *)
Inductive ActionExecute : Set :=
| JobCreateTasks
| JobKill
| JobUntrack
| JobStateInvalid
| JobRecover
| JobStart
| JobEnqueue
| JobRuntimeUpdater
| JobEvaluateMaxRunningInstancesSLA
| DeleteJobFromActiveJobs.

(** [_jobActionsMaps]; [None] is the [nil] a Go map gives for
    [NoJobAction] and for a key it does not have. *)
Definition _jobActionsMaps (a : JobAction) : option ActionExecute :=
  match a with
  | NoJobAction => None
  | CreateTasksAction => Some JobCreateTasks
  | KillAction => Some JobKill
  | UntrackAction => Some JobUntrack
  | JobStateInvalidAction => Some JobStateInvalid
  | RecoverAction => Some JobRecover
  | StartTasksAction => Some JobStart
  | _ => None
  end.

(** [goalstate.Action]. *)
Record Action : Set := mkAction {
  Name : string;
  Execute : ActionExecute
}.

(** The three actions that follow every action but untrack and recover. *)
Definition alwaysRun : list Action :=
  [ mkAction (JobAction_string RuntimeUpdateAction) JobRuntimeUpdater;
    mkAction (JobAction_string EvaluateSLAAction)
             JobEvaluateMaxRunningInstancesSLA;
    mkAction (JobAction_string DeleteFromActiveJobsAction)
             DeleteJobFromActiveJobs ].

(** [GetActionList]; the context and the cancel function it also returns
    are always [context.Background()] and [nil]. *)
Definition GetActionList (jobState jobGoalState : JobStateVector)
  : list Action :=
  if bool_decide (State jobState = JobState_UNKNOWN)
     || bool_decide (State jobGoalState = JobState_UNKNOWN) then
    [ mkAction (JobAction_string EnqeueAction) JobEnqueue ]
  else
    let actionStr := suggestJobAction jobState jobGoalState in
    let action := _jobActionsMaps actionStr in
    let actions :=
      match action with
      | Some f => [ mkAction (JobAction_string actionStr) f ]
      | None => []
      end in
    if bool_decide (actionStr ≠ UntrackAction)
       && bool_decide (actionStr ≠ RecoverAction)
    then (actions ++ alwaysRun)%list
    else actions.

End JobEntity.

Module TaskEngine.
Import TaskGoalState.

#[export] Instance TaskAction_eq_dec : EqDecision TaskAction.
Proof. solve_decision. Defined.

(** [time.Duration] is an [int64]; sums wrap around. *)
Definition wrap64 (z : Z) : Z := ((z + 2 ^ 63) mod 2 ^ 64 - 2 ^ 63)%Z.

(** The retry delays of the engine's configuration. *)
Record Config : Set := mkConfig {
  SuccessRetryDelay : Z;
  FailureRetryDelay : Z;
  MaxRetryDelay : Z
}.

Section Engine.
(** [_indefDelay] is declared in another file of the package, like
    [tracked.UnknownVersion] and [util.IsPelotonStateTerminal]. *)
Variable _indefDelay : Z.
Variable UnknownVersion : N.
Variable IsPelotonStateTerminal : TaskState -> bool.
Variable cfg : Config.

(** The delay [processTask] settles on.  [lastAction] is [None] when it is
    none of the action constants (a task that has not run any yet);
    [sinceLast] is [time.Since(lastActionTime)]. *)
Definition retryDelay (success : bool) : Z :=
  if success then SuccessRetryDelay cfg else FailureRetryDelay cfg.

Definition processTaskDelay (action : TaskAction)
    (lastAction : option TaskAction) (sinceLast : Z) (success : bool) : Z :=
  if bool_decide (action = NoAction) || bool_decide (action = UntrackAction)
  then _indefDelay
  else if bool_decide (Some action ≠ lastAction) then retryDelay success
  else wrap64 (sinceLast + retryDelay success).

(** The deadline handed to [ScheduleTask], as the delay from "now"; [None]
    is the zero [time.Time]. *)
Definition processTaskDeadline (action : TaskAction)
    (lastAction : option TaskAction) (sinceLast : Z) (success : bool)
  : option Z :=
  let delay := processTaskDelay action lastAction sinceLast success in
  if bool_decide (delay ≠ _indefDelay) then
    Some (if (delay >? MaxRetryDelay cfg)%Z then MaxRetryDelay cfg else delay)
  else None.

(** [processTask]: the action run on the task and the deadline it is
    rescheduled for.  [runTaskAction] tells whether running the action
    succeeds. *)
Definition processTask (t : Task) (lastAction : option TaskAction)
    (sinceLast : Z) (runTaskAction : TaskAction -> bool)
  : TaskAction * option Z :=
  let action := suggestTaskAction UnknownVersion IsPelotonStateTerminal t in
  let success := runTaskAction action in
  (action, processTaskDeadline action lastAction sinceLast success).

End Engine.
End TaskEngine.

(** ** CQL statement helpers ([storage/cassandra], statement templates) *)
Module CQL.

(** [strings.Join]. *)
Definition Join (elems : list string) (sep : string) : string :=
  String.concat sep elems.

(** [questionMarkFunc]: one ["?"] per value. *)
Definition questionMarkFunc {A : Type} (qs : list A) (sep : string)
  : string :=
  let questions := map (fun _ => "?") qs in
  Join questions sep.

(** [conditionsFunc]: [fmt.Sprintf("%s=?", cond)] for each condition. *)
Definition conditionsFunc (conds : list string) (sep : string) : string :=
  let cstrs := map (fun cond => cond ++ "=?") conds in
  Join cstrs sep.

Definition whereFunc (conds : list string) : string :=
  if (0 <? length conds)%nat then " WHERE " else "".

(** The tail [{{WhereFunc .Conditions}}{{ConditionsFunc .Conditions " AND "}}]
    that [selectTemplate] and [updateTemplate] share. *)
Definition whereClause (conds : list string) : string :=
  whereFunc conds ++ conditionsFunc conds " AND ".

(** Number of occurrences of a character. *)
Fixpoint countChar (c : Ascii.ascii) (s : string) : nat :=
  match s with
  | EmptyString => 0
  | String c' s' =>
      ((if Ascii.eqb c c' then 1 else 0) + countChar c s')%nat
  end.

Definition questionMark : Ascii.ascii := Ascii.ascii_of_nat 63.

End CQL.

(** ** The task store ([storage/cassandra/store.go]) *)
Module CassandraStore.

Definition MaxInt64 : Z := 2 ^ 63 - 1.
Definition wrap64 (z : Z) : Z := ((z + 2 ^ 63) mod 2 ^ 64 - 2 ^ 63)%Z.
Definition wrap32 (z : Z) : Z := (z mod 2 ^ 32)%Z.
Definition isUint32 (z : Z) : Prop := (0 <= z < 2 ^ 32)%Z.

(** [fmt.Sprintf(taskIDFmt, jobID, i)] with [taskIDFmt = "%s-%d"]. *)
Definition taskIDFmt (jobID : string) (i : Z) : string :=
  jobID ++ "-" ++ pretty i.

(** *** Batches of [CreateTasks]

    The loop of [CreateTasks] starts one goroutine per batch; what is
    modelled is the list of [(start, end)] bounds it starts them with, in
    [int64] arithmetic. *)
Definition batchBounds (maxBatchSize nTasks batch : Z) : option (Z * Z) :=
  let start := wrap64 (batch * maxBatchSize) in
  let end_ :=
    if (nTasks >=? wrap64 (wrap64 (batch + 1) * maxBatchSize))%Z
    then wrap64 (wrap64 (batch + 1) * maxBatchSize)
    else nTasks in
  let batchSize := wrap64 (end_ - start) in
  if (batchSize <? 1)%Z then None else Some (start, end_).

Fixpoint batchLoop (maxBatchSize nTasks : Z) (fuel : nat) (batch : Z)
  : list (Z * Z) :=
  match fuel with
  | O => []
  | S fuel' =>
      match batchBounds maxBatchSize nTasks batch with
      | Some b => b :: batchLoop maxBatchSize nTasks fuel' (wrap64 (batch + 1))
      | None => batchLoop maxBatchSize nTasks fuel' (wrap64 (batch + 1))
      end
  end.

(** [MaxBatchSize] is the configured value, [nTasks] is
    [len(taskInfos)]; the division is Go's, truncating towards zero. *)
Definition createTasksBatches (MaxBatchSize nTasks : Z) : list (Z * Z) :=
  let maxBatchSize :=
    if (MaxBatchSize =? 0)%Z then MaxInt64 else MaxBatchSize in
  let nBatches := wrap64 (Z.quot nTasks maxBatchSize + 1) in
  batchLoop maxBatchSize nTasks (Z.to_nat nBatches) 0.

Section Store.
(** What the data store answers: the instance count of the job's
    configuration for [GetJobConfig], a task pointer for [GetTaskByID], or
    an error.  [nilTask] is the [nil] pointer. *)
Variable TaskInfo : Type.
Variable nilTask : TaskInfo.
Variable StoreError : Type.
Variable GetJobConfig_InstanceCount : string -> StoreError + Z.
Variable GetTaskByID : string -> StoreError + TaskInfo.

Inductive error : Type :=
| FromStore (e : StoreError)
| ErrorsNew (msg : string).

(** [GetTasksForJobByRange]: instances [From <= i < To], leaving at the
    first task that cannot be read. *)
Fixpoint rangeLoop (jobID : string) (fuel : nat) (i : Z)
    (result : gmap Z TaskInfo) : StoreError + gmap Z TaskInfo :=
  match fuel with
  | O => inr result
  | S fuel' =>
      match GetTaskByID (taskIDFmt jobID i) with
      | inl err => inl err
      | inr task => rangeLoop jobID fuel' (i + 1) (<[i := task]> result)
      end
  end.

Definition GetTasksForJobByRange (jobID : string) (From To : Z)
  : StoreError + gmap Z TaskInfo :=
  rangeLoop jobID (Z.to_nat (To - From)) From ∅.

(** The result loop of [QueryTasks]: [tasks[i]] for [offset <= i < end]; a
    missing key reads as [nil]. *)
Fixpoint collect (tasks : gmap Z TaskInfo) (fuel : nat) (i : Z)
  : list TaskInfo :=
  match fuel with
  | O => []
  | S fuel' => default nilTask (tasks !! i) :: collect tasks fuel' (i + 1)
  end.

Definition QueryTasks (jobID : string) (offset limit : Z)
  : error + (list TaskInfo * Z) :=
  match GetJobConfig_InstanceCount jobID with
  | inl err => inl (FromStore err)
  | inr InstanceCount =>
      if (offset >=? InstanceCount)%Z then
        inl (ErrorsNew "offset larger than job instances")
      else
        let end0 := wrap32 (wrap32 (offset + limit) - 1) in
        let end_ :=
          if (end0 >? wrap32 (InstanceCount - 1))%Z
          then wrap32 (InstanceCount - 1) else end0 in
        match GetTasksForJobByRange jobID offset end_ with
        | inl err => inl (FromStore err)
        | inr tasks =>
            let result := collect tasks (Z.to_nat (end_ - offset)) offset in
            inr (result, wrap32 (Z.of_nat (length result)))
        end
  end.

End Store.

Arguments FromStore {StoreError} e.
Arguments ErrorsNew {StoreError} msg.
Arguments rangeLoop {TaskInfo StoreError} GetTaskByID jobID fuel i result.
Arguments GetTasksForJobByRange {TaskInfo StoreError} GetTaskByID jobID
  From To.
Arguments collect {TaskInfo} nilTask tasks fuel i.
Arguments QueryTasks {TaskInfo} nilTask {StoreError}
  GetJobConfig_InstanceCount GetTaskByID jobID offset limit.

(** The dash that [taskIDFmt] puts between job and instance. *)
Definition dash : Ascii.ascii := Ascii.ascii_of_nat 45.

End CassandraStore.

(** ** Resource vectors with rational components *)
Module Scalar.

(** Modelled from the spec: package [scalar] (the [Resources] struct and its
    methods) is not among the sources; only its test is.  Section 3 of the
    specification: a 4-tuple [{CPU, Mem, Disk, GPU}]; [Add] is total;
    [TrySubtract] succeeds iff every component of the left dominates the
    right; [Contains x] iff every component is at least [x]'s.  On failure
    [TrySubtract] yields the zero value, as the comment in [getAvailable]
    says.  Components are rationals here. *)
Record Resources : Set := mkRes {
  CPU : Q;
  Mem : Q;
  Disk : Q;
  GPU : Q
}.

Definition zero : Resources := mkRes 0 0 0 0.

Definition Add (a b : Resources) : Resources :=
  mkRes (Qred (CPU a + CPU b)) (Qred (Mem a + Mem b))
        (Qred (Disk a + Disk b)) (Qred (GPU a + GPU b)).

Definition Contains (a other : Resources) : bool :=
  Qle_bool (CPU other) (CPU a) && Qle_bool (Mem other) (Mem a)
  && Qle_bool (Disk other) (Disk a) && Qle_bool (GPU other) (GPU a).

Definition Subtract (a b : Resources) : Resources :=
  mkRes (Qred (CPU a - CPU b)) (Qred (Mem a - Mem b))
        (Qred (Disk a - Disk b)) (Qred (GPU a - GPU b)).

Definition TrySubtract (a other : Resources) : Resources * bool :=
  if Contains a other then (Subtract a other, true) else (zero, false).

End Scalar.

(** The rational vectors as an implementation of the interface the host
    cache consumes; both wire forms carry the same four numbers. *)
Definition QScalar : ScalarResources :=
  {| Resources := Scalar.Resources;
     PelotonResources := Scalar.Resources;
     ResourceSpec := Scalar.Resources;
     zeroRes := Scalar.zero;
     Add := Scalar.Add;
     Contains := Scalar.Contains;
     TrySubtract := Scalar.TrySubtract;
     FromPelotonResources := fun r => r;
     FromResourceSpec := fun r => r |}.

(** ** Resource pool with its pending gang queue *)
Module ResPool.

(** [resmgr.Task] as the test of the pool builds it. *)
Record ResourceConfig : Set := mkResourceConfig {
  CpuLimit : Q;
  DiskLimitMb : Q;
  GpuLimit : Q;
  MemLimitMb : Q
}.

Record Task : Set := mkTask {
  Name : string;
  Priority : N;
  JobId : string;
  Id : string;
  Resource : ResourceConfig
}.

(** A gang is the list of its tasks; a [nil] gang has none. *)
Definition Gang : Set := list Task.

Definition MakeTaskGang (t : Task) : Gang := [t].

Definition taskResources (t : Task) : Scalar.Resources :=
  Scalar.mkRes (CpuLimit (Resource t)) (MemLimitMb (Resource t))
               (DiskLimitMb (Resource t)) (GpuLimit (Resource t)).

Definition gangResources (g : Gang) : Scalar.Resources :=
  fold_left (fun acc t => Scalar.Add acc (taskResources t)) g Scalar.zero.

(** The lane of a gang is the priority of its first task. *)
Definition gangPriority (g : Gang) : N :=
  match g with
  | t :: _ => Priority t
  | [] => 0%N
  end.

Inductive Error : Set :=
| InvalidArgument (msg : string)
| InsufficientResources (msg : string)
| QueueEmpty (msg : string).

(** Modelled from the spec: the priority queue of package [queue] is not
    among the sources.  Section 4.B: gangs are keyed by integer priority,
    higher first; within a priority insertion order is kept (FIFO); a
    multi-level list gives one FIFO lane per priority and is walked by
    descending priority.  A lane that runs empty is dropped. *)
Abbreviation PriorityQueue := (gmap N (list Gang)).

Definition lane (level : N) (q : PriorityQueue) : list Gang :=
  default [] (q !! level).

Definition Len (level : N) (q : PriorityQueue) : nat := length (lane level q).

Definition Enqueue (g : Gang) (q : PriorityQueue) : PriorityQueue :=
  let level := gangPriority g in
  <[level := (lane level q ++ [g])%list]> q.

Definition highestLevel (q : PriorityQueue) : option N :=
  map_fold
    (fun level gs acc =>
       match gs, acc with
       | [], _ => acc
       | _ :: _, None => Some level
       | _ :: _, Some m => Some (N.max m level)
       end) None q.

Definition Peek (q : PriorityQueue) : option Gang :=
  match highestLevel q with
  | Some level => head (lane level q)
  | None => None
  end.

Definition Remove (q : PriorityQueue) : PriorityQueue :=
  match highestLevel q with
  | Some level =>
      match lane level q with
      | _ :: (g' :: rest) => <[level := g' :: rest]> q
      | _ => delete level q
      end
  | None => q
  end.

(** Modelled from the spec: the resource pool ([respool.go]) is not among
    the sources; only its test is.  Section 4.C: a pool has an entitlement,
    an allocation and a pending queue; a gang is dequeue-eligible iff
    [allocation + G.resources <= entitlement]; dequeue follows priority-FIFO
    order and a head-of-line gang that does not fit is not skipped;
    [EnqueueGang] fails on an empty gang and [DequeueGangList n] fails for
    [n <= 0].  The pool is a leaf.  Its ancestors and their other children
    are outside it, and so is the second condition of dequeue eligibility,
    that siblings' reservations are not violated at any ancestor: it is
    the field [siblingsReservationsKept], the answer of the tree above the
    pool when asked about the allocation the pool is going to have. *)
Record resPool : Type := mkResPool {
  poolName : string;
  entitlement : Scalar.Resources;
  allocation : Scalar.Resources;
  pendingQueue : PriorityQueue;
  siblingsReservationsKept : Scalar.Resources -> bool
}.



(** Modelled from the spec: the admission test of [respool.go], which is
    not among the sources.  Section 4.C: a pool is dequeue-eligible for a
    gang G iff [allocation + G.resources <= entitlement] and siblings'
    reservations are not violated at any ancestor.  [fitsEntitlement] is
    the first condition, [dequeueEligible] the two together. *)
Definition fitsEntitlement (g : Gang) (n : resPool) : bool :=
  Scalar.Contains (entitlement n)
                  (Scalar.Add (allocation n) (gangResources g)).

Definition dequeueEligible (g : Gang) (n : resPool) : bool :=
  fitsEntitlement g n
  && siblingsReservationsKept n (Scalar.Add (allocation n) (gangResources g)).

(** Modelled from the spec: [EnqueueGang] of [respool.go], which is not
    among the sources.  Section 4.C: [EnqueueGang g] fails if [g] is empty;
    the error text is the one [TestResPoolEnqueueError] expects. *)
Definition EnqueueGang (g : Gang) (n : resPool) : option Error * resPool :=
  match g with
  | [] => (Some (InvalidArgument "gang has no elements"), n)
  | _ :: _ =>
      (None, mkResPool (poolName n) (entitlement n) (allocation n)
                       (Enqueue g (pendingQueue n))
                       (siblingsReservationsKept n))
  end.

(** Take the head-of-line gang out and account for it. *)
Definition takeGang (g : Gang) (n : resPool) : resPool :=
  mkResPool (poolName n) (entitlement n)
            (Scalar.Add (allocation n) (gangResources g))
            (Remove (pendingQueue n))
            (siblingsReservationsKept n).

(** At most [fuel] further gangs, stopping at the first head-of-line gang
    the pool is not dequeue-eligible for, or when the queue runs empty. *)
Fixpoint dequeueLoop (fuel : nat) (n : resPool) (acc : list Gang)
  : list Gang * resPool :=
  match fuel with
  | O => (acc, n)
  | S fuel' =>
      match Peek (pendingQueue n) with
      | None => (acc, n)
      | Some g =>
          if dequeueEligible g n
          then dequeueLoop fuel' (takeGang g n) (acc ++ [g])%list
          else (acc, n)
      end
  end.

(** Modelled from the spec: [DequeueGangList] of [respool.go], which is not
    among the sources.  Section 4.C: [DequeueGangList n] with [n <= 0]
    fails (with the text [TestResPoolDequeueError] expects); gangs come out
    in priority-FIFO order; a head-of-line gang that does not fit the
    entitlement is not skipped, and when it is the first one the call fails
    with an insufficient-resources error (scenario 3 of section 8).  The
    specification names no other outcome for a gang the pool is not
    dequeue-eligible for, so a head-of-line gang held back by the ancestors
    is treated alike. *)
Definition DequeueGangList (limit : Z) (n : resPool)
  : (Error + list Gang) * resPool :=
  if (limit <=? 0)%Z then
    (inl (InvalidArgument ("limit " ++ pretty limit ++ " is not valid")), n)
  else
    match Peek (pendingQueue n) with
    | None => (inl (QueueEmpty "queue is empty"), n)
    | Some g =>
        if negb (dequeueEligible g n) then
          (inl (InsufficientResources "not enough entitlement"), n)
        else
          let (gangs, n') := dequeueLoop (Z.to_nat limit) n [] in
          (inr gangs, n')
    end.

End ResPool.

(** ** Worked inputs

    The lease scenarios of the specification on a host of capacity
    [{4, 8192, 100000, 0}], and the pool of [respool_test.go]. *)
Module Fixtures.
Import HostCache.

Definition source0 : UUIDSource :=
  mkSource (fun n => "lease-" ++ pretty n) 0.

Definition capacity0 : Scalar.Resources := Scalar.mkRes 4 8192 100000 0.
Definition pod1Res : Scalar.Resources := Scalar.mkRes 1 1024 0 0.

Definition readyWorld : World (SR := QScalar) :=
  mkWorld (newHostSummary (SR := QScalar) "host1" capacity0 "v1") source0.

Definition filterMin (min : Scalar.Resources)
  : option (HostFilter (SR := QScalar)) :=
  Some (mkHostFilter (SR := QScalar)
          (Some (mkResourceConstraint (SR := QScalar) (Some min))) None).

Definition filterNoMin : option (HostFilter (SR := QScalar)) :=
  Some (mkHostFilter (SR := QScalar)
          (Some (mkResourceConstraint (SR := QScalar) None)) None).

Definition filterHint (h : string) : option (HostFilter (SR := QScalar)) :=
  Some (mkHostFilter (SR := QScalar) None
          (Some (mkFilterHint [mkHostHint h]))).

(** After a match: Placing under lease ["lease-0"]. *)
Definition placingWorld : World (SR := QScalar) :=
  snd (TryMatch (filterMin pod1Res) readyWorld).

(** A host held for a pod. *)
Definition heldWorld : World (SR := QScalar) :=
  snd (CasStatus ReadyHost HeldHost readyWorld).

(** A host whose allocation exceeds its capacity. *)
Definition overcommittedWorld : World (SR := QScalar) :=
  mkWorld (set_allocated (SR := QScalar) (Scalar.mkRes 8 8192 0 0)
                         (host readyWorld)) source0.

Definition newPods1 : gmap string Scalar.Resources := {[ "pod1" := pod1Res ]}.
Definition newPodsTooBig : gmap string Scalar.Resources :=
  {[ "pod1" := Scalar.mkRes 16 1024 0 0 ]}.

Import ResPool.

Definition getTasks : list ResPool.Task :=
  [ ResPool.mkTask "job1-1" 0 "job1" "job1-1" (mkResourceConfig 1 10 0 100);
    ResPool.mkTask "job1-1" 1 "job1" "job1-2" (mkResourceConfig 1 10 0 100);
    ResPool.mkTask "job2-1" 2 "job2" "job2-1" (mkResourceConfig 1 10 0 100);
    ResPool.mkTask "job2-2" 2 "job2" "job2-2" (mkResourceConfig 1 10 0 100) ].


Definition getEntitlement : Scalar.Resources := Scalar.mkRes 100 1000 100 2.

(** The pool of the test is the only child of the root: it has no
    sibling whose reservation could be violated. *)
Definition emptyPool : resPool :=
  mkResPool "respool1" getEntitlement Scalar.zero ∅ (fun _ => true).

Definition enqueueAll (ts : list ResPool.Task) (n : resPool) : resPool :=
  fold_left (fun n t => snd (EnqueueGang (MakeTaskGang t) n)) ts n.




End Fixtures.

(** ** Further worked inputs *)
Module MoreFixtures.
Import HostCache Fixtures.

(** The host of the lease scenario after [pod1] has been launched. *)
Definition podWorld : World (SR := QScalar) :=
  snd (CompleteLease (SR := QScalar) "lease-0" newPods1 placingWorld).

(** A store with the five tasks of job ["job1"]; instance 3 cannot be
    read. *)
Definition storeInstanceCount (jobID : string) : string + Z :=
  if String.eqb jobID "job1" then inr 5%Z else inl "job not found".

Definition storeTask (taskID : string) : string + string :=
  if String.eqb taskID "job1-3" then inl "read failed"
  else inr ("task " ++ taskID).

Definition goodStoreTask (taskID : string) : string + string :=
  inr ("task " ++ taskID).

Definition engineConfig : TaskEngine.Config :=
  TaskEngine.mkConfig 5 10 60.

End MoreFixtures.

(** ** Hosts with an allocation *)
Module AllocatedFixtures.
Import HostCache HostCacheOps Fixtures MoreFixtures.

(** The host running [pod1], matched again: Placing under ["lease-1"] with
    [{1, 1024, 0, 0}] of its capacity [{4, 8192, 100000, 0}] allocated. *)
Definition placingPodWorld : World (SR := QScalar) :=
  snd (TryMatch filterNoMin podWorld).

(** Two pods that take up exactly what [pod1] leaves of the CPUs, and
    the order [pod3], [pod2] of ranging over them. *)
Definition newPods23 : gmap string Scalar.Resources :=
  {[ "pod2" := Scalar.mkRes 2 1024 0 0; "pod3" := Scalar.mkRes 1 1024 0 0 ]}.
Definition order32 : list (string * Scalar.Resources) :=
  [ ("pod3", Scalar.mkRes 1 1024 0 0); ("pod2", Scalar.mkRes 2 1024 0 0) ].

(** A pod that fits the capacity of the host but not what [pod1] leaves. *)
Definition newPodsWholeHost : gmap string Scalar.Resources :=
  {[ "pod2" := Scalar.mkRes 4 1024 0 0 ]}.

(** The host running [pod1] after [SetCapacity] has lowered its capacity to
    half a CPU: the allocation exceeds the capacity. *)
Definition shrunkWorld : World (SR := QScalar) :=
  snd (SetCapacity (SR := QScalar) (Scalar.mkRes (1 # 2) 8192 100000 0)
                   podWorld).

(** The same host matched by a filter without minimum: Placing under
    ["lease-1"]. *)
Definition shrunkPlacingWorld : World (SR := QScalar) :=
  snd (TryMatch filterNoMin shrunkWorld).

(** A pod that needs nothing, and one that needs memory only. *)
Definition newPodsZero : gmap string Scalar.Resources :=
  {[ "pod2" := Scalar.zero ]}.
Definition newPodsMemoryOnly : gmap string Scalar.Resources :=
  {[ "pod2" := Scalar.mkRes 0 1024 0 0 ]}.

(** The host of the lease scenario after [CasStatus(PlacingHost,
    HostStatus(0))]. *)
Definition undeclaredWorld : World (SR := QScalar) :=
  exec (CallCasStatus PlacingHost (HostStatus_of_int 0)) placingWorld.

End AllocatedFixtures.

(** * Properties of the host summary *)

Import HostCache.

Section HostCacheFacts.
Context `{SR : ScalarResources}.

Implicit Types (w : World) (a : hostSummary) (g : UUIDSource).

(** Statuses and integers correspond one to one. *)
Lemma HostStatus_of_int_undeclared (n : Z) :
  (n < 1 \/ 4 < n)%Z ->
  HostStatus_of_int n
  = UndeclaredHost (if (n <? 1)%Z then n else (n - 4)%Z).
Proof.
  intros Hn. unfold HostStatus_of_int.
  destruct (Z.eqb_spec n 1); [lia|]. destruct (Z.eqb_spec n 2); [lia|].
  destruct (Z.eqb_spec n 3); [lia|]. destruct (Z.eqb_spec n 4); [lia|].
  reflexivity.
Qed.

Lemma HostStatus_of_int_value (s : HostStatus) :
  HostStatus_of_int (HostStatus_value s) = s.
Proof.
  destruct s as [| | | |v]; try reflexivity. simpl.
  destruct (Z.ltb_spec v 1) as [Hlt|Hge].
  - rewrite HostStatus_of_int_undeclared by lia.
    destruct (Z.ltb_spec v 1); [reflexivity|lia].
  - rewrite HostStatus_of_int_undeclared by lia.
    destruct (Z.ltb_spec (v + 4) 1); [lia|]. f_equal. lia.
Qed.

Lemma HostStatus_value_of_int (n : Z) :
  HostStatus_value (HostStatus_of_int n) = n.
Proof.
  destruct (decide (n = 1)%Z) as [->|?]; [reflexivity|].
  destruct (decide (n = 2)%Z) as [->|?]; [reflexivity|].
  destruct (decide (n = 3)%Z) as [->|?]; [reflexivity|].
  destruct (decide (n = 4)%Z) as [->|?]; [reflexivity|].
  rewrite HostStatus_of_int_undeclared by lia. simpl.
  destruct (Z.ltb_spec n 1) as [Hlt|Hge].
  - destruct (Z.ltb_spec n 1); [reflexivity|lia].
  - destruct (Z.ltb_spec (n - 4) 1); lia.
Qed.

Lemma declared_values (s : HostStatus) :
  declared s <-> (1 <= HostStatus_value s <= 4)%Z.
Proof.
  unfold declared. destruct s as [| | | |v]; simpl;
    try (split; [lia | tauto]).
  split.
  - intros [H|[H|[H|H]]]; discriminate.
  - destruct (Z.ltb_spec v 1); lia.
Qed.

Lemma casStatus_match (oldStatus newStatus : HostStatus) w :
  status (host w) = oldStatus ->
  casStatus oldStatus newStatus w = (None, entered newStatus w).
Proof.
  intros Hst. unfold casStatus, bind, getHost. simpl.
  destruct (decide (status (host w) ≠ oldStatus)) as [Hne|_]; [congruence|].
  destruct newStatus; reflexivity.
Qed.

Lemma casStatus_mismatch (oldStatus newStatus : HostStatus) w :
  status (host w) ≠ oldStatus ->
  casStatus oldStatus newStatus w
  = (Some (PlainError ("Invalid old status: " ++ HostStatus_fmt oldStatus)), w).
Proof.
  intros Hst. unfold casStatus, bind, getHost. simpl.
  destruct (decide (status (host w) ≠ oldStatus)) as [_|Heq]; [reflexivity|].
  contradiction.
Qed.

Lemma entered_status (newStatus : HostStatus) w :
  status (host (entered newStatus w)) = newStatus.
Proof. destruct newStatus; reflexivity. Qed.

Lemma entered_fields (newStatus : HostStatus) w :
  let a' := host (entered newStatus w) in
  hostname a' = hostname (host w) /\ capacity a' = capacity (host w)
  /\ allocated a' = allocated (host w) /\ labels a' = labels (host w)
  /\ podToResMap a' = podToResMap (host w)
  /\ heldPodIDs a' = heldPodIDs (host w) /\ version a' = version (host w).
Proof. destruct newStatus; simpl; repeat split. Qed.

Lemma getResetStatus_cases a :
  (getResetStatus a = ReadyHost /\ heldPodIDs a = ∅)
  \/ (getResetStatus a = HeldHost /\ heldPodIDs a ≠ ∅).
Proof.
  unfold getResetStatus.
  destruct (decide (size (heldPodIDs a) ≠ 0%nat)) as [Hne|Heq].
  - right. split; [reflexivity|]. by apply map_size_non_empty_iff.
  - left. split; [reflexivity|]. apply map_size_empty_iff.
    destruct (size (heldPodIDs a)); [reflexivity|]. exfalso. apply Heq. lia.
Qed.

Lemma reset_status_not_placing a : getResetStatus a ≠ PlacingHost.
Proof.
  destruct (getResetStatus_cases a) as [[-> _]|[-> _]]; discriminate.
Qed.

(** *** Validation of new pods *)

Lemma sumResources_insert_first (m : gmap string Resources) i x :
  m !! i = None -> map_first_key (<[i:=x]> m) i ->
  sumResources (<[i:=x]> m) = Add (sumResources m) x.
Proof.
  intros Hi Hfirst. unfold sumResources.
  by rewrite map_fold_insert_first_key.
Qed.

Lemma validate_fold a (newPodToResMap : gmap string Resources) :
  match map_fold (validateStep a) (inr zeroRes) newPodToResMap with
  | inl _ =>
      ∃ podID, is_Some (newPodToResMap !! podID)
               ∧ is_Some (podToResMap a !! podID)
  | inr needed =>
      (∀ podID, is_Some (newPodToResMap !! podID) →
                podToResMap a !! podID = None)
      ∧ needed = sumResources newPodToResMap
  end.
Proof.
  induction newPodToResMap as [|i x m Hi Hfirst IH] using map_first_key_ind.
  - rewrite map_fold_empty. split; [|reflexivity].
    intros podID [y Hy]. by rewrite lookup_empty in Hy.
  - rewrite map_fold_insert_first_key by assumption.
    destruct (map_fold (validateStep a) (inr zeroRes) m) as [e|needed]; simpl.
    + destruct IH as (podID & [y Hy] & Hon). exists podID. split; [|exact Hon].
      destruct (decide (i = podID)) as [->|Hne].
      * rewrite lookup_insert_eq. eauto.
      * rewrite lookup_insert_ne by assumption. eauto.
    + destruct IH as [Hfree ->].
      destruct (podToResMap a !! i) as [r|] eqn:Hlook.
      * exists i. rewrite lookup_insert_eq, Hlook. eauto.
      * split.
        -- intros podID. destruct (decide (i = podID)) as [->|Hne].
           ++ intros _. exact Hlook.
           ++ rewrite lookup_insert_ne by assumption. apply Hfree.
        -- symmetry. by apply sumResources_insert_first.
Qed.

Lemma validateNewPods_ok a (newPodToResMap : gmap string Resources) :
  validateNewPods newPodToResMap a = None <-> podsValid newPodToResMap a.
Proof.
  unfold validateNewPods, podsValid.
  pose proof (validate_fold a newPodToResMap) as Hfold.
  destruct (map_fold (validateStep a) (inr zeroRes) newPodToResMap)
    as [e|needed].
  - split; [discriminate|]. intros [Hfree _].
    destruct Hfold as (podID & Hnew & [r Hr]).
    rewrite (Hfree podID Hnew) in Hr. discriminate.
  - destruct Hfold as [Hfree ->].
    destruct (Contains (getAvailable a) (sumResources newPodToResMap));
      simpl; split; try discriminate; try tauto.
    intros [_ Hc]. discriminate.
Qed.

Lemma validateNewPods_entered (newStatus : HostStatus) w
    (newPodToResMap : gmap string Resources) :
  validateNewPods newPodToResMap (host (entered newStatus w))
  = validateNewPods newPodToResMap (host w).
Proof. destruct newStatus; reflexivity. Qed.

Lemma update_fold (old new : gmap string Resources) :
  map_fold (fun podID res m => <[podID := res]> m) old new = new ∪ old.
Proof.
  induction new as [|i x m Hi Hfirst IH] using map_first_key_ind.
  - by rewrite map_fold_empty, (left_id_L ∅ (∪)).
  - rewrite map_fold_insert_first_key by assumption.
    by rewrite IH, insert_union_l.
Qed.

(** The pods of a completed lease are added over the old map and the
    allocation is the sum of the result. *)
Lemma updatePodToResMap_spec (newPodToResMap : gmap string Resources) a :
  podToResMap (updatePodToResMap newPodToResMap a)
  = newPodToResMap ∪ podToResMap a
  /\ allocated (updatePodToResMap newPodToResMap a)
     = sumResources (newPodToResMap ∪ podToResMap a)
  /\ status (updatePodToResMap newPodToResMap a) = status a
  /\ leaseID (updatePodToResMap newPodToResMap a) = leaseID a.
Proof.
  unfold updatePodToResMap, calculateAllocated. simpl.
  by rewrite update_fold.
Qed.

(** *** Loops in a given order *)

Lemma getAvailable_TrySubtract a (available : Resources) (ok : bool) :
  TrySubtract (capacity a) (allocated a) = (available, ok) ->
  getAvailable a = available.
Proof. intros H. unfold getAvailable. by rewrite H. Qed.

Lemma rangeOf_elem (m : gmap string Resources)
    (order : list (string * Resources)) :
  rangeOf m order ->
  (forall e, e ∈ order <-> m !! e.1 = Some e.2) /\ NoDup (order.*1).
Proof.
  unfold rangeOf. intros Hperm. split.
  - intros [podID res]. rewrite Hperm. apply elem_of_map_to_list.
  - rewrite Hperm. apply NoDup_fst_map_to_list.
Qed.

Lemma rangeOf_reverse (m : gmap string Resources) :
  rangeOf m (reverse (map_to_list m)).
Proof. apply reverse_Permutation. Qed.

Lemma foldr_fold_left_reverse {A B : Type} (f : A -> B -> B) (b : B)
    (l : list A) :
  foldr f b l = fold_left (fun acc x => f x acc) (reverse l) b.
Proof.
  induction l as [|x l IH]; [reflexivity|].
  rewrite reverse_cons, fold_left_app. simpl. by rewrite IH.
Qed.

Lemma fold_left_pointwise {A B : Type} (f g : B -> A -> B) (l : list A)
    (b : B) :
  (forall acc x, f acc x = g acc x) -> fold_left f l b = fold_left g l b.
Proof.
  intros Hfg. revert b. induction l as [|x l IH]; intros b; [reflexivity|].
  simpl. by rewrite Hfg, IH.
Qed.

Lemma validate_absorb a (order : list (string * Resources)) (e : error) :
  fold_left (fun acc e => validateStep a e.1 e.2 acc) order (inl e) = inl e.
Proof. induction order as [|x order IH]; [reflexivity|exact IH]. Qed.

Lemma validate_fold_left a (order : list (string * Resources))
    (needed : Resources) :
  match fold_left (fun acc e => validateStep a e.1 e.2 acc) order
                  (inr needed) with
  | inl _ => ∃ e, e ∈ order ∧ is_Some (podToResMap a !! e.1)
  | inr needed' =>
      (∀ e, e ∈ order → podToResMap a !! e.1 = None)
      ∧ needed' = fold_left (fun allocated e => Add allocated e.2) order needed
  end.
Proof.
  revert needed.
  induction order as [|[podID res] order IH]; intros needed; simpl.
  - split; [|reflexivity]. intros e He. by apply elem_of_nil in He.
  - destruct (podToResMap a !! podID) as [r|] eqn:Hlook.
    + rewrite validate_absorb. exists (podID, res). split.
      * apply list_elem_of_here.
      * simpl. rewrite Hlook. eauto.
    + specialize (IH (Add needed res)).
      destruct (fold_left (fun acc e => validateStep a e.1 e.2 acc) order
                          (inr (Add needed res))) as [e|needed'].
      * destruct IH as (e' & Hin & Hon). exists e'. split; [|exact Hon].
        by apply list_elem_of_further.
      * destruct IH as [Hfree ->]. split; [|reflexivity].
        intros e' [->|Hin]%elem_of_cons; [exact Hlook|by apply Hfree].
Qed.

(** What [validateNewPods] decides, whatever the order of its loop: no new
    pod is on the host, and the new pods, added up in that order, are
    contained in the first component of what [TrySubtract] returns for
    capacity and allocation. *)
Lemma validateNewPodsIn_ok a (newPodToResMap : gmap string Resources)
    (order : list (string * Resources)) (available : Resources) (ok : bool) :
  rangeOf newPodToResMap order ->
  TrySubtract (capacity a) (allocated a) = (available, ok) ->
  validateNewPodsIn order a = None
  <-> ((∀ podID, is_Some (newPodToResMap !! podID) →
                 podToResMap a !! podID = None)
       ∧ Contains available (sumResourcesIn order) = true).
Proof.
  intros Hrange Hsub. destruct (rangeOf_elem _ _ Hrange) as [Helem _].
  unfold validateNewPodsIn. rewrite (getAvailable_TrySubtract a _ _ Hsub).
  pose proof (validate_fold_left a order zeroRes) as Hfold.
  destruct (fold_left (fun acc e => validateStep a e.1 e.2 acc) order
                      (inr zeroRes)) as [e|needed].
  - split; [discriminate|]. intros [Hfree _].
    destruct Hfold as ([podID res] & Hin & [r Hr]). simpl in Hr.
    apply Helem in Hin. simpl in Hin.
    rewrite (Hfree podID) in Hr; [discriminate|]. rewrite Hin. eauto.
  - destruct Hfold as [Hfree ->]. fold (sumResourcesIn order).
    assert (Hfree' : ∀ podID, is_Some (newPodToResMap !! podID) →
                              podToResMap a !! podID = None).
    { intros podID [res Hres]. apply (Hfree (podID, res)).
      by apply Helem. }
    destruct (Contains available (sumResourcesIn order)); simpl; split;
      try discriminate; try tauto.
    intros [_ Hc]. discriminate.
Qed.

Lemma update_fold_left_union (order : list (string * Resources))
    (old : gmap string Resources) :
  fold_left (fun m e => <[e.1 := e.2]> m) order old
  = list_to_map (reverse order) ∪ old.
Proof.
  revert old. induction order as [|[podID res] order IH]; intros old; simpl.
  - by rewrite (left_id_L ∅ (∪)).
  - rewrite IH, reverse_cons, list_to_map_app. simpl.
    rewrite insert_empty, <- (assoc_L (∪)).
    by rewrite <- insert_union_singleton_l.
Qed.

Lemma update_fold_left (old new : gmap string Resources)
    (order : list (string * Resources)) :
  rangeOf new order ->
  fold_left (fun m e => <[e.1 := e.2]> m) order old = new ∪ old.
Proof.
  intros Hrange. rewrite update_fold_left_union. f_equal.
  rewrite <- (list_to_map_to_list new). apply list_to_map_proper.
  - rewrite reverse_Permutation. by apply rangeOf_elem in Hrange as [_ ?].
  - rewrite reverse_Permutation. exact Hrange.
Qed.

Lemma validateNewPodsIn_entered (newStatus : HostStatus) w
    (order : list (string * Resources)) :
  validateNewPodsIn order (host (entered newStatus w))
  = validateNewPodsIn order (host w).
Proof. destruct newStatus; reflexivity. Qed.

(** The loops of the fixed-order definitions are the loops in the reverse
    of [map_to_list]. *)
Lemma sumResources_In (m : gmap string Resources) :
  sumResources m = sumResourcesIn (reverse (map_to_list m)).
Proof.
  unfold sumResources, sumResourcesIn.
  rewrite map_fold_foldr, foldr_fold_left_reverse.
  apply fold_left_pointwise. by intros acc [podID res].
Qed.

Lemma validateNewPods_In (newPodToResMap : gmap string Resources) a :
  validateNewPods newPodToResMap a
  = validateNewPodsIn (reverse (map_to_list newPodToResMap)) a.
Proof.
  unfold validateNewPods, validateNewPodsIn.
  rewrite map_fold_foldr, foldr_fold_left_reverse.
  rewrite (fold_left_pointwise _ (fun acc e => validateStep a e.1 e.2 acc));
    [reflexivity|]. by intros acc [podID res].
Qed.

Lemma updatePodToResMap_In (newPodToResMap : gmap string Resources) a :
  updatePodToResMap newPodToResMap a
  = updatePodToResMapIn
      (reverse (map_to_list newPodToResMap))
      (reverse (map_to_list (newPodToResMap ∪ podToResMap a))) a.
Proof.
  unfold updatePodToResMap, updatePodToResMapIn, calculateAllocated,
    calculateAllocatedIn. simpl.
  rewrite update_fold, (update_fold_left _ newPodToResMap)
    by apply rangeOf_reverse.
  by rewrite sumResources_In.
Qed.

(** *** CompleteLease *)

Lemma CompleteLeaseIn_run
    (orderValidate orderUpdate orderAllocated : list (string * Resources))
    (lease : string) w :
  status (host w) = PlacingHost ->
  leaseID (host w) = lease ->
  let reset := entered (getResetStatus (host w)) w in
  CompleteLeaseIn orderValidate orderUpdate orderAllocated lease w
  = match validateNewPodsIn orderValidate (host w) with
    | Some e => (Some (InvalidArgumentError
                         ("pod validation failed: " ++ error_msg e)), reset)
    | None => (None, mkWorld (updatePodToResMapIn orderUpdate orderAllocated
                                (host reset))
                             (uuids reset))
    end.
Proof.
  intros Hst Hlease reset.
  unfold CompleteLeaseIn, bind, getHost. simpl.
  destruct (decide (status (host w) ≠ PlacingHost)) as [Hne|_];
    [congruence|].
  rewrite Hlease, String.eqb_refl. simpl.
  rewrite (casStatus_match PlacingHost _ w Hst). fold reset. simpl.
  unfold reset at 1. rewrite validateNewPodsIn_entered.
  destruct (validateNewPodsIn orderValidate (host w)); reflexivity.
Qed.

Lemma CompleteLease_is_a_run (lease : string)
    (newPodToResMap : gmap string Resources) w :
  CompleteLease lease newPodToResMap w
  = CompleteLeaseIn
      (reverse (map_to_list newPodToResMap))
      (reverse (map_to_list newPodToResMap))
      (reverse (map_to_list (newPodToResMap ∪ podToResMap (host w))))
      lease w.
Proof.
  unfold CompleteLease, CompleteLeaseIn, bind, getHost. simpl.
  destruct (decide (status (host w) ≠ PlacingHost)); [reflexivity|].
  destruct (negb (leaseID (host w) =? lease)%string); [reflexivity|].
  destruct (casStatus PlacingHost (getResetStatus (host w)) w)
    as [[e|] w'] eqn:Hcas; [reflexivity|].
  assert (Hpods : podToResMap (host w') = podToResMap (host w)).
  { assert (Hpl : status (host w) = PlacingHost) by by apply dec_stable.
    rewrite (casStatus_match PlacingHost _ w Hpl) in Hcas.
    injection Hcas as <-.
    by destruct (entered_fields (getResetStatus (host w)) w)
      as (_ & _ & _ & _ & ? & _). }
  rewrite validateNewPods_In.
  destruct (validateNewPodsIn (reverse (map_to_list newPodToResMap))
                              (host w')); [reflexivity|].
  unfold modify, ret. simpl. by rewrite updatePodToResMap_In, Hpods.
Qed.

(** C1, amended.  On a host in Placing status whose lease ID is the
    supplied one, [CompleteLease] first moves the host back to Ready, or to
    Held when [heldPodIDs] is non-empty, and clears the lease ID; only then
    are the new pods validated: no pod ID is already in [podToResMap], and
    the new pods' resources, added up in the order the map is ranged over,
    are contained in [available], the first component of what
    [capacity.TrySubtract(allocated)] returns.  That is the difference of
    capacity and allocation only when the subtraction succeeds; when it
    fails the check is made against the value [TrySubtract] falls back to.
    When the validation fails the call returns an InvalidArgument error and
    the host is left in the reset state, not in Placing; when it passes the
    pods are added over the old pod map and the allocation is the sum over
    the updated map.  This holds whatever order each of the three map loops
    takes, and [CompleteLease] with the loops in the order of [map_fold] is
    one such run. *)
Theorem CompleteLease_resets_before_validating
    (lease : string) (newPodToResMap : gmap string Resources)
    (orderValidate orderUpdate orderAllocated : list (string * Resources))
    (available : Resources) (ok : bool) w :
  status (host w) = PlacingHost ->
  leaseID (host w) = lease ->
  rangeOf newPodToResMap orderValidate ->
  rangeOf newPodToResMap orderUpdate ->
  rangeOf (newPodToResMap ∪ podToResMap (host w)) orderAllocated ->
  TrySubtract (capacity (host w)) (allocated (host w)) = (available, ok) ->
  let reset := entered (getResetStatus (host w)) w in
  let valid :=
    (∀ podID, is_Some (newPodToResMap !! podID) →
              podToResMap (host w) !! podID = None)
    ∧ Contains available (sumResourcesIn orderValidate) = true in
  let run :=
    CompleteLeaseIn orderValidate orderUpdate orderAllocated lease w in
  status (host reset) ≠ PlacingHost
  /\ (status (host reset) = HeldHost <-> heldPodIDs (host w) ≠ ∅)
  /\ (status (host reset) = ReadyHost <-> heldPodIDs (host w) = ∅)
  /\ leaseID (host reset) = emptyLeaseID
  /\ uuids reset = uuids w
  /\ (valid ->
      run = (None,
             mkWorld (set_allocated (sumResourcesIn orderAllocated)
                        (set_podToResMap
                           (newPodToResMap ∪ podToResMap (host w))
                           (host reset)))
                     (uuids w)))
  /\ (~ valid ->
      exists msg,
        run = (Some (InvalidArgumentError ("pod validation failed: " ++ msg)),
               reset))
  /\ CompleteLease lease newPodToResMap w
     = CompleteLeaseIn
         (reverse (map_to_list newPodToResMap))
         (reverse (map_to_list newPodToResMap))
         (reverse (map_to_list (newPodToResMap ∪ podToResMap (host w))))
         lease w.
Proof.
  intros Hst Hlease HrV HrU HrA Hsub reset valid run.
  pose proof (CompleteLeaseIn_run orderValidate orderUpdate orderAllocated
                lease w Hst Hlease) as Hrun.
  cbv zeta in Hrun. fold reset run in Hrun.
  pose proof (validateNewPodsIn_ok (host w) newPodToResMap orderValidate
                available ok HrV Hsub) as Hval.
  fold valid in Hval.
  assert (Huuids : uuids reset = uuids w).
  { unfold reset.
    destruct (getResetStatus_cases (host w)) as [[-> _]|[-> _]]; reflexivity. }
  assert (Hpods : podToResMap (host reset) = podToResMap (host w)).
  { by destruct (entered_fields (getResetStatus (host w)) w)
      as (_ & _ & _ & _ & ? & _). }
  assert (Hstatus : status (host reset) = getResetStatus (host w)).
  { apply entered_status. }
  assert (Hl : leaseID (host reset) = emptyLeaseID).
  { unfold reset.
    destruct (getResetStatus_cases (host w)) as [[-> _]|[-> _]]; reflexivity. }
  split; [|split; [|split; [|split; [|split; [|split; [|split]]]]]].
  - rewrite Hstatus. apply reset_status_not_placing.
  - rewrite Hstatus.
    destruct (getResetStatus_cases (host w)) as [[-> Hh]|[-> Hh]];
      split; try congruence; try discriminate; tauto.
  - rewrite Hstatus.
    destruct (getResetStatus_cases (host w)) as [[-> Hh]|[-> Hh]];
      split; try congruence; try discriminate; tauto.
  - exact Hl.
  - exact Huuids.
  - intros Hv. apply Hval in Hv. rewrite Hrun, Hv, Huuids.
    unfold updatePodToResMapIn, calculateAllocatedIn.
    by rewrite (update_fold_left _ newPodToResMap), Hpods.
  - intros Hv. rewrite Hrun.
    destruct (validateNewPodsIn orderValidate (host w)) as [e|] eqn:He.
    + by exists (error_msg e).
    + exfalso. apply Hv. by apply Hval.
  - apply CompleteLease_is_a_run.
Qed.

(** *** TryMatch *)

Lemma hintFound_spec (filter : option HostFilter) a :
  hintFound filter a = true <-> hintNames filter a.
Proof.
  unfold hintFound, hintNames. rewrite existsb_exists. split.
  - intros (h & Hin & Heq). exists h. split.
    + by apply list_elem_of_In.
    + by apply String.eqb_eq.
  - intros (h & Hin & Heq). exists h. split.
    + by apply list_elem_of_In.
    + by apply String.eqb_eq.
Qed.

Lemma matchHostFilter_cases (filter : option HostFilter) a :
  matchHostFilter filter a
  = match GetMinimum (GetResourceConstraint filter) with
    | Some min =>
        if Contains (getAvailable a) (FromResourceSpec min)
        then HOST_FILTER_MATCH else HOST_FILTER_INSUFFICIENT_RESOURCES
    | None => HOST_FILTER_MATCH
    end.
Proof.
  unfold matchHostFilter.
  destruct (GetMinimum (GetResourceConstraint filter)) as [min|];
    [|reflexivity].
  by destruct (Contains (getAvailable a) (FromResourceSpec min)).
Qed.

(** [TryMatch] once the status gate is passed. *)
Lemma TryMatch_past_gate (filter : option HostFilter) w :
  status (host w) = ReadyHost
  \/ (status (host w) = HeldHost /\ hintNames filter (host w)) ->
  TryMatch filter w
  = match matchHostFilter filter (host w) with
    | HOST_FILTER_MATCH =>
        (mkMatch HOST_FILTER_MATCH (hostname (host w)), entered PlacingHost w)
    | result => (mkMatch result "", w)
    end.
Proof.
  intros Hgate. unfold TryMatch, bind, getHost. simpl.
  destruct (decide (status (host w) ≠ ReadyHost ∧ status (host w) ≠ HeldHost))
    as [[H1 H2]|_].
  { destruct Hgate as [?|[? _]]; contradiction. }
  assert (Hhint : bool_decide (status (host w) = HeldHost)
                  && negb (hintFound filter (host w)) = false).
  { destruct Hgate as [Hr|[Hh Hn]].
    - rewrite bool_decide_eq_false_2; [reflexivity|congruence].
    - apply hintFound_spec in Hn. rewrite Hn. apply andb_false_r. }
  rewrite Hhint.
  destruct (matchHostFilter filter (host w)) eqn:Hres; simpl; try reflexivity.
  rewrite (casStatus_match (status (host w)) PlacingHost w eq_refl).
  reflexivity.
Qed.

(** C2, amended.  [TryMatch] answers MISMATCH_STATUS when the status is
    neither Ready nor Held, and when it is Held while no host hint of the
    filter names the host.  Past that gate, with a minimum requirement in
    the filter, the answer is decided by [available], the first component
    of what [capacity.TrySubtract(allocated)] returns, which is the
    difference of capacity and allocation only when the subtraction
    succeeds: INSUFFICIENT_RESOURCES when the minimum is not contained in
    it, MATCH when it is.  In the first three cases nothing changes, the
    status included.  Whenever the answer is MATCH the host has moved to
    Placing. *)
Theorem TryMatch_outcomes (filter : option HostFilter) w :
  (status (host w) ≠ ReadyHost -> status (host w) ≠ HeldHost ->
   TryMatch filter w = (mkMatch HOST_FILTER_MISMATCH_STATUS "", w))
  /\ (status (host w) = HeldHost -> ~ hintNames filter (host w) ->
      TryMatch filter w = (mkMatch HOST_FILTER_MISMATCH_STATUS "", w))
  /\ (status (host w) = ReadyHost
      \/ (status (host w) = HeldHost /\ hintNames filter (host w)) ->
      forall min available ok,
        GetMinimum (GetResourceConstraint filter) = Some min ->
        TrySubtract (capacity (host w)) (allocated (host w))
        = (available, ok) ->
        (Contains available (FromResourceSpec min) = false ->
         TryMatch filter w
         = (mkMatch HOST_FILTER_INSUFFICIENT_RESOURCES "", w))
        /\ (Contains available (FromResourceSpec min) = true ->
            TryMatch filter w
            = (mkMatch HOST_FILTER_MATCH (hostname (host w)),
               entered PlacingHost w)))
  /\ (Result (fst (TryMatch filter w)) = HOST_FILTER_MATCH ->
      status (host (snd (TryMatch filter w))) = PlacingHost
      /\ snd (TryMatch filter w) = entered PlacingHost w).
Proof.
  split; [|split; [|split; [|split]]].
  - intros H1 H2. unfold TryMatch, bind, getHost. simpl.
    destruct (decide (status (host w) ≠ ReadyHost
                      ∧ status (host w) ≠ HeldHost)) as [_|Hn];
      [reflexivity|]. exfalso. apply Hn. by split.
  - intros Hheld Hnohint. unfold TryMatch, bind, getHost. simpl.
    destruct (decide (status (host w) ≠ ReadyHost
                      ∧ status (host w) ≠ HeldHost)) as [_|_];
      [reflexivity|].
    rewrite bool_decide_eq_true_2 by assumption.
    destruct (hintFound filter (host w)) eqn:Hf; [|reflexivity].
    exfalso. apply Hnohint. by apply hintFound_spec.
  - intros Hgate min available ok Hmin Hsub.
    rewrite (TryMatch_past_gate filter w Hgate).
    rewrite matchHostFilter_cases, Hmin.
    rewrite (getAvailable_TrySubtract (host w) available ok Hsub).
    split; intros ->; reflexivity.
  - revert H. unfold TryMatch, bind, getHost. simpl.
    destruct (decide (status (host w) ≠ ReadyHost
                      ∧ status (host w) ≠ HeldHost)) as [_|_];
      [discriminate|].
    destruct (bool_decide (status (host w) = HeldHost)
              && negb (hintFound filter (host w))); [discriminate|].
    destruct (matchHostFilter filter (host w)); simpl; try discriminate.
    rewrite (casStatus_match (status (host w)) PlacingHost w eq_refl).
    reflexivity.
  - revert H. unfold TryMatch, bind, getHost. simpl.
    destruct (decide (status (host w) ≠ ReadyHost
                      ∧ status (host w) ≠ HeldHost)) as [_|_];
      [discriminate|].
    destruct (bool_decide (status (host w) = HeldHost)
              && negb (hintFound filter (host w))); [discriminate|].
    destruct (matchHostFilter filter (host w)); simpl; try discriminate.
    rewrite (casStatus_match (status (host w)) PlacingHost w eq_refl).
    reflexivity.
Qed.

(** C10. On a Ready host, a filter whose resource constraint carries no
    minimum (nil) always matches: the answer is MATCH with the host name and
    the host moves to Placing under a newly drawn lease ID, whatever the
    capacity and the allocation are. *)
Theorem TryMatch_no_minimum_matches (filter : option HostFilter) w :
  status (host w) = ReadyHost ->
  GetMinimum (GetResourceConstraint filter) = None ->
  TryMatch filter w
  = (mkMatch HOST_FILTER_MATCH (hostname (host w)), entered PlacingHost w)
  /\ status (host (snd (TryMatch filter w))) = PlacingHost
  /\ leaseID (host (snd (TryMatch filter w))) = gen (uuids w) (drawn (uuids w))
  /\ capacity (host (snd (TryMatch filter w))) = capacity (host w)
  /\ allocated (host (snd (TryMatch filter w))) = allocated (host w).
Proof.
  intros Hready Hmin.
  rewrite (TryMatch_past_gate filter w (or_introl Hready)).
  rewrite matchHostFilter_cases, Hmin. simpl. repeat split.
Qed.

(** *** A stale lease *)

Lemma TerminateLease_placing w :
  status (host w) = PlacingHost ->
  TerminateLease w = (None, entered (getResetStatus (host w)) w).
Proof.
  intros Hst. unfold TerminateLease, bind, getHost. simpl.
  destruct (decide (status (host w) ≠ PlacingHost)) as [Hne|_];
    [congruence|].
  by rewrite (casStatus_match PlacingHost _ w Hst).
Qed.

(** C4. On a host in Placing status, [CompleteLease] with a lease ID other
    than the host's returns an InvalidArgument error and changes nothing:
    status, lease ID, pod map and allocation are as before.  A
    [TerminateLease] after it succeeds and puts the host in Ready, or in
    Held when pods are held, with the lease ID cleared. *)
Theorem CompleteLease_stale_lease_keeps_placing
    (lease : string) (newPodToResMap : gmap string Resources) w :
  status (host w) = PlacingHost ->
  leaseID (host w) ≠ lease ->
  let after := snd (CompleteLease lease newPodToResMap w) in
  fst (CompleteLease lease newPodToResMap w)
  = Some (InvalidArgumentError "host leaseID does not match")
  /\ after = w
  /\ status (host after) = PlacingHost
  /\ fst (TerminateLease after) = None
  /\ (heldPodIDs (host w) = ∅ ->
      status (host (snd (TerminateLease after))) = ReadyHost)
  /\ (heldPodIDs (host w) ≠ ∅ ->
      status (host (snd (TerminateLease after))) = HeldHost)
  /\ leaseID (host (snd (TerminateLease after))) = emptyLeaseID.
Proof.
  intros Hst Hlease after.
  assert (Hrun : CompleteLease lease newPodToResMap w
                 = (Some (InvalidArgumentError "host leaseID does not match"),
                    w)).
  { unfold CompleteLease, bind, getHost. simpl.
    destruct (decide (status (host w) ≠ PlacingHost)) as [Hne|_];
      [congruence|].
    destruct (String.eqb_spec (leaseID (host w)) lease) as [Heq|_];
      [contradiction|reflexivity]. }
  unfold after. rewrite Hrun. simpl.
  rewrite (TerminateLease_placing w Hst). simpl. rewrite entered_status.
  destruct (getResetStatus_cases (host w)) as [[Hr Hheld]|[Hr Hheld]];
    rewrite Hr; repeat split; try congruence; try contradiction.
Qed.

(** *** CasStatus *)

Lemma CasStatus_match (oldStatus newStatus : HostStatus) w :
  status (host w) = oldStatus ->
  CasStatus oldStatus newStatus w = (None, entered newStatus w).
Proof.
  intros Hst. unfold CasStatus, bind.
  by rewrite (casStatus_match oldStatus newStatus w Hst).
Qed.

Lemma CasStatus_mismatch (oldStatus newStatus : HostStatus) w :
  status (host w) ≠ oldStatus ->
  CasStatus oldStatus newStatus w
  = (Some (InvalidArgumentError
             ("failed to set cas status: Invalid old status: "
              ++ HostStatus_fmt oldStatus)), w).
Proof.
  intros Hst. unfold CasStatus, bind.
  by rewrite (casStatus_mismatch oldStatus newStatus w Hst).
Qed.

Lemma entered_same_status_empty_lease w :
  (status (host w) = ReadyHost \/ status (host w) = HeldHost) ->
  leaseID (host w) = emptyLeaseID ->
  entered (status (host w)) w = w.
Proof.
  destruct w as [[hn cap alloc lbl pods held st lease ver] g]. simpl.
  intros [->| ->] ->; reflexivity.
Qed.

(** C5, as the code has it.  [CasStatus x x] on a host whose status is [x]
    succeeds and leaves every field other than the lease ID as it was.  The
    lease ID is set again as on any entry to [x]: emptied for Ready and
    Held, so that nothing at all changes when it was empty before, and
    replaced by a newly drawn UUID for Placing and Reserved.  [CasStatus old
    new] with [old] different from the current status returns an
    InvalidArgument error and changes nothing. *)
Theorem CasStatus_same_status_and_wrong_old (x old new : HostStatus) w :
  (status (host w) = x ->
   let a := host w in
   let a' := host (snd (CasStatus x x w)) in
   fst (CasStatus x x w) = None
   /\ status a' = x
   /\ hostname a' = hostname a /\ capacity a' = capacity a
   /\ allocated a' = allocated a /\ labels a' = labels a
   /\ podToResMap a' = podToResMap a /\ heldPodIDs a' = heldPodIDs a
   /\ version a' = version a
   /\ (x = ReadyHost \/ x = HeldHost ->
       leaseID a' = emptyLeaseID
       /\ (leaseID a = emptyLeaseID -> snd (CasStatus x x w) = w))
   /\ (x = PlacingHost \/ x = ReservedHost ->
       leaseID a' = gen (uuids w) (drawn (uuids w))
       /\ drawn (uuids (snd (CasStatus x x w))) = S (drawn (uuids w))))
  /\ (status (host w) ≠ old ->
      isInvalidArgument (fst (CasStatus old new w)) = true
      /\ snd (CasStatus old new w) = w).
Proof.
  split.
  - intros Hst a a'. unfold a'. rewrite (CasStatus_match x x w Hst). simpl.
    rewrite entered_status.
    destruct (entered_fields x w) as (? & ? & ? & ? & ? & ? & ?).
    repeat split; try assumption.
    + destruct H6 as [->| ->]; reflexivity.
    + intros Hl. rewrite <- Hst. apply entered_same_status_empty_lease;
        [rewrite Hst; assumption | exact Hl].
    + destruct H6 as [->| ->]; reflexivity.
    + destruct H6 as [->| ->]; reflexivity.
  - intros Hst. by rewrite (CasStatus_mismatch old new w Hst).
Qed.

(** *** The lease invariant *)

Lemma entered_transitioned (s : HostStatus) w : transitioned w (entered s w).
Proof. unfold transitioned. by rewrite entered_status. Qed.

Lemma exec_step (c : Call) w : quiet w (exec c w) \/ transitioned w (exec c w).
Proof.
  destruct c as [filter|lease newPods| |old new|podID]; simpl.
  - unfold TryMatch, bind, getHost. simpl.
    destruct (decide (status (host w) ≠ ReadyHost
                      ∧ status (host w) ≠ HeldHost)) as [_|_];
      [left; by repeat split|].
    destruct (bool_decide (status (host w) = HeldHost)
              && negb (hintFound filter (host w)));
      [left; by repeat split|].
    destruct (matchHostFilter filter (host w)); simpl;
      try (left; by repeat split).
    rewrite (casStatus_match (status (host w)) PlacingHost w eq_refl).
    right. apply entered_transitioned.
  - unfold CompleteLease, bind, getHost. simpl.
    destruct (decide (status (host w) ≠ PlacingHost)) as [_|Hst];
      [left; by repeat split|].
    destruct (negb (leaseID (host w) =? lease)%string);
      [left; by repeat split|].
    assert (Hpl : status (host w) = PlacingHost).
    { by apply dec_stable. }
    rewrite (casStatus_match PlacingHost _ w Hpl). simpl.
    destruct (validateNewPods newPods
                (host (entered (getResetStatus (host w)) w))); simpl.
    + right. apply entered_transitioned.
    + right. unfold transitioned, modify, ret. simpl.
      by rewrite entered_status.
  - unfold TerminateLease, bind, getHost. simpl.
    destruct (decide (status (host w) ≠ PlacingHost)) as [_|Hst];
      [left; by repeat split|].
    assert (Hpl : status (host w) = PlacingHost).
    { by apply dec_stable. }
    rewrite (casStatus_match PlacingHost _ w Hpl). simpl.
    right. apply entered_transitioned.
  - destruct (decide (status (host w) = old)) as [Heq|Hne].
    + rewrite (CasStatus_match old new w Heq). simpl.
      right. apply entered_transitioned.
    + rewrite (CasStatus_mismatch old new w Hne). left. by repeat split.
  - unfold ReleasePodResources, bind, getHost. simpl.
    destruct (podToResMap (host w) !! podID); left; by repeat split.
Qed.

Lemma entered_lease (s : HostStatus) w :
  leaseID (host (entered s w))
  = match s with
    | ReadyHost | HeldHost => emptyLeaseID
    | PlacingHost | ReservedHost => gen (uuids w) (drawn (uuids w))
    | UndeclaredHost _ => leaseID (host w)
    end.
Proof. by destruct s. Qed.

Lemma entered_uuids (s : HostStatus) w :
  gen (uuids (entered s w)) = gen (uuids w)
  /\ drawn (uuids (entered s w))
     = match s with
       | ReadyHost | HeldHost => drawn (uuids w)
       | PlacingHost | ReservedHost => S (drawn (uuids w))
       | UndeclaredHost _ => drawn (uuids w)
       end.
Proof. by destruct s. Qed.

Lemma declared_reset a : declared (getResetStatus a).
Proof.
  unfold declared.
  destruct (getResetStatus_cases a) as [[-> _]|[-> _]]; tauto.
Qed.

(** A call with a declared new status ends in a declared status. *)
Lemma exec_declared (c : Call) w :
  declaredCall c -> declared (status (host w)) ->
  declared (status (host (exec c w))).
Proof.
  intros Hc Hd.
  destruct c as [filter|lease newPods| |old new|podID]; simpl.
  - unfold TryMatch, bind, getHost. simpl.
    destruct (decide (status (host w) ≠ ReadyHost
                      ∧ status (host w) ≠ HeldHost)) as [_|_]; [exact Hd|].
    destruct (bool_decide (status (host w) = HeldHost)
              && negb (hintFound filter (host w))); [exact Hd|].
    destruct (matchHostFilter filter (host w)); simpl; try exact Hd.
    rewrite (casStatus_match (status (host w)) PlacingHost w eq_refl).
    simpl. unfold declared. tauto.
  - unfold CompleteLease, bind, getHost. simpl.
    destruct (decide (status (host w) ≠ PlacingHost)) as [_|Hst];
      [exact Hd|].
    destruct (negb (leaseID (host w) =? lease)%string); [exact Hd|].
    assert (Hpl : status (host w) = PlacingHost).
    { by apply dec_stable. }
    rewrite (casStatus_match PlacingHost _ w Hpl). simpl.
    destruct (validateNewPods newPods
                (host (entered (getResetStatus (host w)) w))); simpl.
    + rewrite entered_status. apply declared_reset.
    + rewrite entered_status. apply declared_reset.
  - unfold TerminateLease, bind, getHost. simpl.
    destruct (decide (status (host w) ≠ PlacingHost)) as [_|Hst];
      [exact Hd|].
    assert (Hpl : status (host w) = PlacingHost).
    { by apply dec_stable. }
    rewrite (casStatus_match PlacingHost _ w Hpl). simpl.
    rewrite entered_status. apply declared_reset.
  - destruct (decide (status (host w) = old)) as [Heq|Hne].
    + rewrite (CasStatus_match old new w Heq). simpl.
      rewrite entered_status. exact Hc.
    + rewrite (CasStatus_mismatch old new w Hne). exact Hd.
  - unfold ReleasePodResources, bind, getHost. simpl.
    destruct (podToResMap (host w) !! podID); exact Hd.
Qed.

Lemma exec_preserves (c : Call) w :
  declaredCall c -> declared (status (host w)) ->
  uuidsNonEmpty (uuids w) -> leaseInvariant (host w) ->
  uuidsNonEmpty (uuids (exec c w)) /\ leaseInvariant (host (exec c w)).
Proof.
  intros Hc Hd Hne Hinv.
  pose proof (exec_declared c w Hc Hd) as Hd'.
  destruct (exec_step c w) as [(Hs & Hl & Hu)|[Hl Hu]].
  - split; [by rewrite Hu|]. unfold leaseInvariant. by rewrite Hs, Hl.
  - split.
    + unfold uuidsNonEmpty. rewrite Hu.
      destruct (entered_uuids (status (host (exec c w))) w) as [-> _].
      exact Hne.
    + unfold leaseInvariant. rewrite Hl, entered_lease.
      destruct Hd' as [->|[->|[->| ->]]]; split;
        try (intros [?|?]; discriminate); try (intros ?; contradiction);
        try (intros _; apply Hne); try tauto.
Qed.

(** C3, amended.  Provided the UUID source never hands out the empty
    string, every state reachable from [newHostSummary] through [TryMatch],
    [CompleteLease], [TerminateLease], [ReleasePodResources] and [CasStatus]
    with one of the four declared constants as new status has a declared
    status, and a non-empty lease ID if and only if that status is Placing
    or Reserved.  Every exported call either leaves status and lease ID
    alone or ends like a successful [casStatus] into its final status.
    Such a transition clears the lease ID when it enters Ready or Held,
    stores the next UUID of the source, drawn at that moment, when it
    enters Placing or Reserved, and keeps the lease ID it finds when the
    new status is none of the four constants. *)
Theorem lease_held_iff_placing_or_reserved
    (h : string) (r : PelotonResources) (v : string) g :
  uuidsNonEmpty g ->
  (forall w, reachableDeclared h r v g w ->
             declared (status (host w)) /\ leaseInvariant (host w))
  /\ (forall w (c : Call),
        quiet w (exec c w) \/ transitioned w (exec c w))
  /\ (forall w (old new : HostStatus),
        status (host w) = old ->
        let w' := snd (casStatus old new w) in
        fst (casStatus old new w) = None
        /\ status (host w') = new
        /\ (new = ReadyHost \/ new = HeldHost ->
            leaseID (host w') = emptyLeaseID /\ uuids w' = uuids w)
        /\ (new = PlacingHost \/ new = ReservedHost ->
            leaseID (host w') = gen (uuids w) (drawn (uuids w))
            /\ leaseID (host w') = fst (uuid_New (uuids w))
            /\ uuids w' = snd (uuid_New (uuids w))
            /\ drawn (uuids w') = S (drawn (uuids w)))
        /\ (~ declared new ->
            leaseID (host w') = leaseID (host w) /\ uuids w' = uuids w)).
Proof.
  intros Hne. split; [|split].
  - intros w Hreach.
    assert (Hall : declared (status (host w))
                   /\ uuidsNonEmpty (uuids w) /\ leaseInvariant (host w)).
    { induction Hreach as [|w c Hreach (IHd & IHu & IHl) Hc].
      - split; [left; reflexivity|]. split; [exact Hne|].
        unfold leaseInvariant. simpl. split.
        + intros Habs. by contradiction Habs.
        + intros [?|?]; discriminate.
      - split; [by apply exec_declared|]. by apply exec_preserves. }
    tauto.
  - intros w c. apply exec_step.
  - intros w old new Hst w'. unfold w'.
    rewrite (casStatus_match old new w Hst). simpl.
    rewrite entered_status.
    split; [reflexivity|]. split; [reflexivity|].
    split; [|split].
    + intros [->| ->]; split; reflexivity.
    + intros [->| ->]; repeat split; reflexivity.
    + intros Hund. destruct new; try (split; reflexivity);
        exfalso; apply Hund; unfold declared; tauto.
Qed.

End HostCacheFacts.


(** ** The statements on the worked inputs *)
Section HostCacheExamples.
Import Fixtures MoreFixtures AllocatedFixtures.
#[local] Existing Instance QScalar.

Lemma source0_nonempty : uuidsNonEmpty source0.
Proof. intros n. simpl. discriminate. Qed.

(** Against C1 as it stands.  On the host whose capacity was lowered below
    its allocation, the difference of capacity and allocation is negative
    in the CPUs and contains nothing, yet [CompleteLease] validates and adds
    a pod that needs nothing: [available] is the zero value [TrySubtract]
    falls back to. *)
Lemma CompleteLease_overcommitted_validates_against_zero :
  ~ (forall (w : World (SR := QScalar)) (lease : string)
            (newPodToResMap : gmap string Scalar.Resources),
       status (host w) = PlacingHost ->
       leaseID (host w) = lease ->
       ~ ((∀ podID, is_Some (newPodToResMap !! podID) →
                    podToResMap (host w) !! podID = None)
          ∧ Scalar.Contains
              (Scalar.Subtract (capacity (host w)) (allocated (host w)))
              (sumResources newPodToResMap) = true) ->
       isInvalidArgument (fst (CompleteLease lease newPodToResMap w)) = true).
Proof.
  intros Hclaim.
  assert (Hfails : ~ ((∀ podID, is_Some (newPodsZero !! podID) →
                         podToResMap (host shrunkPlacingWorld) !! podID = None)
                      ∧ Scalar.Contains
                          (Scalar.Subtract
                             (capacity (host shrunkPlacingWorld))
                             (allocated (host shrunkPlacingWorld)))
                          (sumResources newPodsZero) = true)).
  { intros [_ Hc]. vm_compute in Hc. discriminate. }
  pose proof (Hclaim shrunkPlacingWorld "lease-1" newPodsZero
                eq_refl eq_refl Hfails) as Herr.
  vm_compute in Herr. discriminate.
Qed.

Lemma CompleteLease_resets_before_validating_witness :
  (exists msg,
     CompleteLeaseIn (SR := QScalar) [("pod2", Scalar.mkRes 4 1024 0 0)]
       [("pod2", Scalar.mkRes 4 1024 0 0)]
       (map_to_list (newPodsWholeHost ∪ podToResMap (host placingPodWorld)))
       "lease-1" placingPodWorld
     = (Some (InvalidArgumentError ("pod validation failed: " ++ msg)),
        entered ReadyHost placingPodWorld))
  /\ (let run :=
        CompleteLeaseIn (SR := QScalar) order32 (map_to_list newPods23)
          (reverse (map_to_list
                      (newPods23 ∪ podToResMap (host placingPodWorld))))
          "lease-1" placingPodWorld in
      fst run = None
      /\ status (host (snd run)) = ReadyHost
      /\ podToResMap (host (snd run)) !! "pod3"
         = Some (Scalar.mkRes 1 1024 0 0)
      /\ allocated (host (snd run)) = Scalar.mkRes 4 3072 0 0)
  /\ (exists msg,
        CompleteLeaseIn (SR := QScalar) [("pod2", Scalar.mkRes 0 1024 0 0)]
          [("pod2", Scalar.mkRes 0 1024 0 0)]
          (map_to_list
             (newPodsMemoryOnly ∪ podToResMap (host shrunkPlacingWorld)))
          "lease-1" shrunkPlacingWorld
        = (Some (InvalidArgumentError ("pod validation failed: " ++ msg)),
           entered ReadyHost shrunkPlacingWorld)).
Proof.
  split; [|split].
  - destruct (CompleteLease_resets_before_validating (SR := QScalar)
                "lease-1" newPodsWholeHost
                [("pod2", Scalar.mkRes 4 1024 0 0)]
                [("pod2", Scalar.mkRes 4 1024 0 0)]
                (map_to_list
                   (newPodsWholeHost ∪ podToResMap (host placingPodWorld)))
                (Scalar.mkRes 3 7168 100000 0) true placingPodWorld
                eq_refl eq_refl
                ltac:(vm_compute; reflexivity)
                ltac:(vm_compute; reflexivity)
                ltac:(unfold rangeOf; reflexivity)
                eq_refl)
      as (_ & _ & _ & _ & _ & _ & Hbad & _).
    apply Hbad. intros [_ Hc]. vm_compute in Hc. discriminate.
  - destruct (CompleteLease_resets_before_validating (SR := QScalar)
                "lease-1" newPods23 order32 (map_to_list newPods23)
                (reverse (map_to_list
                            (newPods23 ∪ podToResMap (host placingPodWorld))))
                (Scalar.mkRes 3 7168 100000 0) true placingPodWorld
                eq_refl eq_refl
                ltac:(vm_compute; first [reflexivity | apply perm_swap])
                ltac:(unfold rangeOf; reflexivity)
                ltac:(apply reverse_Permutation)
                eq_refl)
      as (_ & _ & _ & _ & _ & Hgood & _ & _).
    assert (Hv : (∀ podID, is_Some (newPods23 !! podID) →
                           podToResMap (host placingPodWorld) !! podID = None)
                 ∧ Contains (Scalar.mkRes 3 7168 100000 0)
                            (sumResourcesIn order32) = true).
    { split; [|vm_compute; reflexivity].
      intros podID [res Hres].
      destruct (decide (podID = "pod1")) as [->|Hne];
        [vm_compute in Hres; discriminate|].
      change (podToResMap (host placingPodWorld))
        with ({[ "pod1" := pod1Res ]} : gmap string Scalar.Resources).
      by apply lookup_singleton_ne. }
    cbv zeta. rewrite (Hgood Hv). vm_compute. repeat split.
  - destruct (CompleteLease_resets_before_validating (SR := QScalar)
                "lease-1" newPodsMemoryOnly
                [("pod2", Scalar.mkRes 0 1024 0 0)]
                [("pod2", Scalar.mkRes 0 1024 0 0)]
                (map_to_list
                   (newPodsMemoryOnly ∪ podToResMap (host shrunkPlacingWorld)))
                Scalar.zero false shrunkPlacingWorld
                eq_refl eq_refl
                ltac:(vm_compute; reflexivity)
                ltac:(vm_compute; reflexivity)
                ltac:(unfold rangeOf; reflexivity)
                eq_refl)
      as (_ & _ & _ & _ & _ & _ & Hbad & _).
    apply Hbad. intros [_ Hc]. vm_compute in Hc. discriminate.
Defined.

(** Against C2 as it stands.  On the Ready host whose capacity was lowered
    below its allocation, the zero minimum is not contained in the
    difference of capacity and allocation, which is negative in the CPUs,
    yet [TryMatch] answers MATCH. *)
Lemma TryMatch_overcommitted_zero_minimum_matches :
  ~ (forall (w : World (SR := QScalar))
            (filter : option (HostFilter (SR := QScalar)))
            (min : Scalar.Resources),
       status (host w) = ReadyHost ->
       GetMinimum (GetResourceConstraint filter) = Some min ->
       Scalar.Contains
         (Scalar.Subtract (capacity (host w)) (allocated (host w))) min
       = false ->
       TryMatch filter w
       = (mkMatch HOST_FILTER_INSUFFICIENT_RESOURCES "", w)).
Proof.
  intros Hclaim.
  pose proof (Hclaim shrunkWorld (filterMin Scalar.zero) Scalar.zero
                eq_refl eq_refl eq_refl) as Hno.
  apply (f_equal (fun x => Result (fst x))) in Hno.
  vm_compute in Hno. discriminate.
Qed.

Lemma TryMatch_outcomes_witness :
  TryMatch (filterMin pod1Res) placingWorld
  = (mkMatch HOST_FILTER_MISMATCH_STATUS "", placingWorld)
  /\ TryMatch (filterHint "host2") heldWorld
     = (mkMatch HOST_FILTER_MISMATCH_STATUS "", heldWorld)
  /\ TryMatch (filterMin (Scalar.mkRes 4 1024 0 0)) podWorld
     = (mkMatch HOST_FILTER_INSUFFICIENT_RESOURCES "", podWorld)
  /\ TryMatch (filterMin (Scalar.mkRes 3 1024 0 0)) podWorld
     = (mkMatch HOST_FILTER_MATCH "host1", entered PlacingHost podWorld)
  /\ TryMatch (filterMin (Scalar.mkRes (1 # 4) 0 0 0)) shrunkWorld
     = (mkMatch HOST_FILTER_INSUFFICIENT_RESOURCES "", shrunkWorld)
  /\ status (host (snd (TryMatch (filterMin pod1Res) readyWorld)))
     = PlacingHost.
Proof.
  split; [|split; [|split; [|split; [|split]]]].
  - destruct (TryMatch_outcomes (filterMin pod1Res) placingWorld)
      as (Hstatus & _).
    apply Hstatus; vm_compute; discriminate.
  - destruct (TryMatch_outcomes (filterHint "host2") heldWorld)
      as (_ & Hheld & _).
    apply Hheld; [reflexivity|].
    intros (h & Hin & Hname). vm_compute in Hin.
    apply list_elem_of_singleton in Hin. subst h. discriminate.
  - destruct (TryMatch_outcomes (filterMin (Scalar.mkRes 4 1024 0 0))
                podWorld) as (_ & _ & Hres & _).
    destruct (Hres (or_introl eq_refl) (Scalar.mkRes 4 1024 0 0)
                (Scalar.mkRes 3 7168 100000 0) true eq_refl eq_refl)
      as [Hless _].
    exact (Hless eq_refl).
  - destruct (TryMatch_outcomes (filterMin (Scalar.mkRes 3 1024 0 0))
                podWorld) as (_ & _ & Hres & _).
    destruct (Hres (or_introl eq_refl) (Scalar.mkRes 3 1024 0 0)
                (Scalar.mkRes 3 7168 100000 0) true eq_refl eq_refl)
      as [_ Hfits].
    exact (Hfits eq_refl).
  - destruct (TryMatch_outcomes (filterMin (Scalar.mkRes (1 # 4) 0 0 0))
                shrunkWorld) as (_ & _ & Hres & _).
    destruct (Hres (or_introl eq_refl) (Scalar.mkRes (1 # 4) 0 0 0)
                Scalar.zero false eq_refl eq_refl)
      as [Hless _].
    exact (Hless eq_refl).
  - destruct (TryMatch_outcomes (filterMin pod1Res) readyWorld)
      as (_ & _ & _ & Hmatch).
    apply Hmatch. reflexivity.
Defined.

Lemma TryMatch_no_minimum_matches_witness :
  Contains (capacity (host overcommittedWorld))
           (allocated (host overcommittedWorld)) = false
  /\ TryMatch filterNoMin overcommittedWorld
     = (mkMatch HOST_FILTER_MATCH "host1",
        entered PlacingHost overcommittedWorld).
Proof.
  split; [reflexivity|].
  apply (TryMatch_no_minimum_matches filterNoMin overcommittedWorld);
    reflexivity.
Defined.

Lemma CompleteLease_stale_lease_keeps_placing_witness :
  CompleteLease "other" newPods1 placingWorld
  = (Some (InvalidArgumentError "host leaseID does not match"), placingWorld)
  /\ status (host (snd (TerminateLease placingWorld))) = ReadyHost.
Proof.
  destruct (CompleteLease_stale_lease_keeps_placing (SR := QScalar)
              "other" newPods1 placingWorld) as (Herr & Hsame & _ & _ & Hready & _).
  - reflexivity.
  - vm_compute. discriminate.
  - split.
    + apply injective_projections; [exact Herr | exact Hsame].
    + rewrite Hsame in Hready. apply Hready. reflexivity.
Defined.

(** Against C5 as it stands: on the Placing host of the lease scenario,
    [CasStatus Placing Placing] succeeds but replaces the lease ID
    ["lease-0"] by ["lease-1"]. *)
Lemma CasStatus_same_status_not_noop :
  ~ (forall (w : World) (x : HostStatus),
       status (host w) = x ->
       fst (CasStatus x x w) = None
       /\ host (snd (CasStatus x x w)) = host w).
Proof.
  intros Hclaim.
  destruct (Hclaim placingWorld PlacingHost eq_refl) as [_ Hsame].
  apply (f_equal leaseID) in Hsame. vm_compute in Hsame. discriminate.
Qed.

Lemma CasStatus_same_status_and_wrong_old_witness :
  leaseID (host (snd (CasStatus PlacingHost PlacingHost placingWorld)))
  = "lease-1"
  /\ snd (CasStatus ReadyHost ReadyHost readyWorld) = readyWorld
  /\ snd (CasStatus ReadyHost PlacingHost placingWorld) = placingWorld.
Proof.
  split; [|split].
  - destruct (CasStatus_same_status_and_wrong_old PlacingHost ReadyHost
                ReadyHost placingWorld) as [Hsame _].
    destruct (Hsame eq_refl) as (_ & _ & _ & _ & _ & _ & _ & _ & _ & _ & Hl).
    destruct (Hl (or_introl eq_refl)) as [-> _]. reflexivity.
  - destruct (CasStatus_same_status_and_wrong_old ReadyHost ReadyHost
                ReadyHost readyWorld) as [Hsame _].
    destruct (Hsame eq_refl) as (_ & _ & _ & _ & _ & _ & _ & _ & _ & Hl & _).
    destruct (Hl (or_introl eq_refl)) as [_ Hnoop]. apply Hnoop. reflexivity.
  - destruct (CasStatus_same_status_and_wrong_old ReadyHost ReadyHost
                PlacingHost placingWorld) as [_ Hwrong].
    apply Hwrong. vm_compute. discriminate.
Defined.

(** The lease lifecycle of the specification: match, complete with
    [pod1], release [pod1]. *)
Example lease_lifecycle :
  let w1 := snd (TryMatch (filterMin pod1Res) readyWorld) in
  let w2 := snd (CompleteLease "lease-0" newPods1 w1) in
  let w3 := snd (ReleasePodResources "pod1" w2) in
  fst (TryMatch (filterMin pod1Res) readyWorld)
  = mkMatch HOST_FILTER_MATCH "host1"
  /\ status (host w1) = PlacingHost /\ leaseID (host w1) = "lease-0"
  /\ fst (CompleteLease "lease-0" newPods1 w1) = None
  /\ status (host w2) = ReadyHost /\ leaseID (host w2) = ""
  /\ allocated (host w2) = pod1Res
  /\ allocated (host w3) = Scalar.zero /\ podToResMap (host w3) = ∅.
Proof. vm_compute. repeat split. Qed.

(** Against C3 as it stands.  From the new summary, a match followed by
    [CasStatus(PlacingHost, HostStatus(0))] is a sequence of exported calls
    that succeed; it ends in a state whose status is neither Placing nor
    Reserved and whose lease ID is still ["lease-0"]. *)
Lemma CasStatus_undeclared_status_keeps_lease :
  uuidsNonEmpty source0
  /\ ~ (forall w : World (SR := QScalar),
          reachable "host1" capacity0 "v1" source0 w ->
          leaseInvariant (host w)).
Proof.
  split; [exact source0_nonempty|].
  intros Hclaim.
  assert (Hreach : reachable (SR := QScalar)
                     "host1" capacity0 "v1" source0 undeclaredWorld).
  { apply reach_call.
    exact (reach_call _ _ _ _ _ (CallTryMatch (filterMin pod1Res))
             (reach_new _ _ _ _)). }
  destruct (Hclaim undeclaredWorld Hreach) as [Hlease _].
  assert (Hne : leaseID (host undeclaredWorld) ≠ emptyLeaseID).
  { vm_compute. discriminate. }
  destruct (Hlease Hne) as [Hs|Hs]; vm_compute in Hs; discriminate.
Qed.

Lemma lease_held_iff_placing_or_reserved_witness :
  leaseInvariant (host placingWorld)
  /\ leaseInvariant
       (host (exec (CallCompleteLease "lease-0" newPods1) placingWorld))
  /\ leaseInvariant
       (host (exec (CallCasStatus PlacingHost ReservedHost) placingWorld))
  /\ leaseID (host undeclaredWorld) = leaseID (host placingWorld).
Proof.
  destruct (lease_held_iff_placing_or_reserved (SR := QScalar)
              "host1" capacity0 "v1" source0 source0_nonempty)
    as (Hinv & _ & Hcas).
  assert (Hreach : reachableDeclared (SR := QScalar)
                     "host1" capacity0 "v1" source0 placingWorld).
  { exact (reachd_call _ _ _ _ _ (CallTryMatch (filterMin pod1Res))
             (reachd_new _ _ _ _) I). }
  split; [|split; [|split]].
  - apply Hinv. exact Hreach.
  - apply Hinv. apply reachd_call; [exact Hreach|exact I].
  - apply Hinv. apply reachd_call; [exact Hreach|].
    right. right. left. reflexivity.
  - destruct (Hcas placingWorld PlacingHost (HostStatus_of_int 0) eq_refl)
      as (_ & _ & _ & _ & Hund).
    apply Hund. intros [H|[H|[H|H]]]; discriminate.
Defined.

End HostCacheExamples.

(** * Properties of the goal-state rules *)

Section JobRules.
Import JobGoalState.

Lemma suggestJobAction_iso_versions (state goalstate : JobStateVector) :
  (StateVersion goalstate <= StateVersion state)%N ->
  suggestJobAction state goalstate
  = default NoJobAction (jobRule (State goalstate) (State state)).
Proof.
  intros Hver. unfold suggestJobAction, jobRule.
  destruct (N.ltb_spec (StateVersion state) (StateVersion goalstate));
    [lia|].
  destruct (_isoVersionsJobRules (State goalstate)) as [tr|]; [|reflexivity].
  by destruct (tr (State state)).
Qed.

Lemma suggestJobAction_not_running (state goalstate : JobStateVector) :
  State goalstate ≠ JobState_RUNNING ->
  suggestJobAction state goalstate
  = default NoJobAction (jobRule (State goalstate) (State state)).
Proof.
  intros Hgoal. unfold suggestJobAction, jobRule.
  destruct (decide (State goalstate = JobState_RUNNING)); [contradiction|].
  destruct (StateVersion state <? StateVersion goalstate)%N;
    destruct (_isoVersionsJobRules (State goalstate)) as [tr|];
    try reflexivity; by destruct (tr (State state)).
Qed.

(** C7. Under goal RUNNING the job rule table gives CreateTasks for
    INITIALIZED, Recover for UNINITIALIZED and StateInvalid for SUCCEEDED,
    FAILED and KILLING; under goal KILLED it gives Kill for INITIALIZED,
    PENDING and RUNNING and Untrack for the terminal states SUCCEEDED,
    FAILED and KILLED.  [suggestJobAction] returns the table's action
    whenever the state version is not behind the goal's, and for goal
    KILLED whatever the versions are. *)
Theorem job_rules_running_and_killed :
  (jobRule JobState_RUNNING JobState_INITIALIZED = Some CreateTasksAction
   /\ jobRule JobState_RUNNING JobState_UNINITIALIZED = Some RecoverAction
   /\ jobRule JobState_RUNNING JobState_SUCCEEDED = Some JobStateInvalidAction
   /\ jobRule JobState_RUNNING JobState_FAILED = Some JobStateInvalidAction
   /\ jobRule JobState_RUNNING JobState_KILLING = Some JobStateInvalidAction)
  /\ (jobRule JobState_KILLED JobState_INITIALIZED = Some KillAction
      /\ jobRule JobState_KILLED JobState_PENDING = Some KillAction
      /\ jobRule JobState_KILLED JobState_RUNNING = Some KillAction
      /\ jobRule JobState_KILLED JobState_SUCCEEDED = Some UntrackAction
      /\ jobRule JobState_KILLED JobState_FAILED = Some UntrackAction
      /\ jobRule JobState_KILLED JobState_KILLED = Some UntrackAction)
  /\ (forall state goalstate : JobStateVector,
        State goalstate = JobState_RUNNING ->
        (StateVersion goalstate <= StateVersion state)%N ->
        (State state = JobState_INITIALIZED ->
         suggestJobAction state goalstate = CreateTasksAction)
        /\ (State state = JobState_UNINITIALIZED ->
            suggestJobAction state goalstate = RecoverAction)
        /\ (State state = JobState_SUCCEEDED \/ State state = JobState_FAILED
            \/ State state = JobState_KILLING ->
            suggestJobAction state goalstate = JobStateInvalidAction))
  /\ (forall state goalstate : JobStateVector,
        State goalstate = JobState_KILLED ->
        (State state = JobState_INITIALIZED \/ State state = JobState_PENDING
         \/ State state = JobState_RUNNING ->
         suggestJobAction state goalstate = KillAction)
        /\ (State state = JobState_SUCCEEDED \/ State state = JobState_FAILED
            \/ State state = JobState_KILLED ->
            suggestJobAction state goalstate = UntrackAction)).
Proof.
  split; [by repeat split|]. split; [by repeat split|]. split.
  - intros state goalstate Hgoal Hver.
    rewrite (suggestJobAction_iso_versions state goalstate Hver), Hgoal.
    split; [|split].
    + by intros ->.
    + by intros ->.
    + by intros [->|[->| ->]].
  - intros state goalstate Hgoal.
    rewrite suggestJobAction_not_running by (rewrite Hgoal; discriminate).
    rewrite Hgoal. split.
    + by intros [->|[->| ->]].
    + by intros [->|[->| ->]].
Qed.

Lemma job_rules_running_and_killed_witness :
  suggestJobAction (mkJobStateVector JobState_UNINITIALIZED 3)
                   (mkJobStateVector JobState_RUNNING 3) = RecoverAction
  /\ suggestJobAction (mkJobStateVector JobState_PENDING 1)
                      (mkJobStateVector JobState_KILLED 2) = KillAction.
Proof.
  destruct job_rules_running_and_killed as (_ & _ & Hrun & Hkill).
  split.
  - apply (Hrun (mkJobStateVector JobState_UNINITIALIZED 3)
                (mkJobStateVector JobState_RUNNING 3));
      [reflexivity | simpl; lia | reflexivity].
  - apply (Hkill (mkJobStateVector JobState_PENDING 1)
                 (mkJobStateVector JobState_KILLED 2));
      [reflexivity | right; left; reflexivity].
Defined.

End JobRules.

Section TaskRules.
Import TaskGoalState.

Lemma suggestTaskAction_unknown_version
    (UnknownVersion : N) (isTerminal : TaskState -> bool)
    (cur goal : TaskState) :
  suggestTaskAction UnknownVersion isTerminal
    (mkTask (mkState cur UnknownVersion)
            (mkState goal (N.succ UnknownVersion)))
  = tableAction goal cur.
Proof.
  unfold suggestTaskAction. simpl.
  rewrite (N.eqb_refl UnknownVersion), orb_true_l.
  by destruct (UnknownVersion =? N.succ UnknownVersion)%N.
Qed.

(** Against C8 as it stands: a task at the unknown version, INITIALIZED
    with goal RUNNING at version 1, is not terminal and yet gets the table's
    Start, not Stop. *)
Lemma suggestTaskAction_unknown_version_uses_table :
  ~ (forall t : Task,
       ConfigVersion (CurrentState t) ≠ ConfigVersion (GoalState t) ->
       suggestTaskAction MaxUint64 IsPelotonStateTerminal t
       = if IsPelotonStateTerminal (State_ (CurrentState t))
         then UseGoalVersionAction else StopAction).
Proof.
  intros Hclaim.
  specialize (Hclaim (mkTask (mkState TaskState_INITIALIZED MaxUint64)
                             (mkState TaskState_RUNNING 1))).
  simpl in Hclaim.
  assert (Hne : MaxUint64 ≠ 1%N) by discriminate.
  specialize (Hclaim Hne). vm_compute in Hclaim. discriminate.
Qed.

(** C8, as the code has it.  When the current and the goal configuration
    versions differ and neither of them is the unknown version, the
    suggested action is the switch to the goal version if the current state
    is terminal and Stop otherwise.  The state-versus-goal table is
    consulted when the two versions agree, and also when one of them is the
    unknown version. *)
Theorem suggestTaskAction_versions
    (UnknownVersion : N) (isTerminal : TaskState -> bool) (t : Task) :
  (ConfigVersion (CurrentState t) ≠ ConfigVersion (GoalState t) ->
   ConfigVersion (CurrentState t) ≠ UnknownVersion ->
   ConfigVersion (GoalState t) ≠ UnknownVersion ->
   suggestTaskAction UnknownVersion isTerminal t
   = if isTerminal (State_ (CurrentState t))
     then UseGoalVersionAction else StopAction)
  /\ (ConfigVersion (CurrentState t) = ConfigVersion (GoalState t)
      \/ ConfigVersion (CurrentState t) = UnknownVersion
      \/ ConfigVersion (GoalState t) = UnknownVersion ->
      suggestTaskAction UnknownVersion isTerminal t
      = tableAction (State_ (GoalState t)) (State_ (CurrentState t))).
Proof.
  unfold suggestTaskAction. split.
  - intros Hdiff Hcur Hgoal.
    apply N.eqb_neq in Hdiff, Hcur, Hgoal. by rewrite Hdiff, Hcur, Hgoal.
  - intros [Heq|[Hcur|Hgoal]].
    + apply N.eqb_eq in Heq. by rewrite Heq.
    + apply N.eqb_eq in Hcur. rewrite Hcur.
      by destruct (ConfigVersion (CurrentState t)
                   =? ConfigVersion (GoalState t))%N.
    + apply N.eqb_eq in Hgoal. rewrite Hgoal, orb_true_r.
      by destruct (ConfigVersion (CurrentState t)
                   =? ConfigVersion (GoalState t))%N.
Qed.

Lemma suggestTaskAction_versions_witness :
  suggestTaskAction MaxUint64 IsPelotonStateTerminal
    (mkTask (mkState TaskState_RUNNING 1) (mkState TaskState_RUNNING 2))
  = StopAction
  /\ suggestTaskAction MaxUint64 IsPelotonStateTerminal
       (mkTask (mkState TaskState_FAILED 1) (mkState TaskState_RUNNING 2))
     = UseGoalVersionAction
  /\ suggestTaskAction MaxUint64 IsPelotonStateTerminal
       (mkTask (mkState TaskState_INITIALIZED 2) (mkState TaskState_RUNNING 2))
     = StartAction.
Proof.
  split; [|split].
  - apply (suggestTaskAction_versions MaxUint64 IsPelotonStateTerminal
             (mkTask (mkState TaskState_RUNNING 1)
                     (mkState TaskState_RUNNING 2))); simpl; discriminate.
  - apply (suggestTaskAction_versions MaxUint64 IsPelotonStateTerminal
             (mkTask (mkState TaskState_FAILED 1)
                     (mkState TaskState_RUNNING 2))); simpl; discriminate.
  - apply (suggestTaskAction_versions MaxUint64 IsPelotonStateTerminal
             (mkTask (mkState TaskState_INITIALIZED 2)
                     (mkState TaskState_RUNNING 2))).
    left. reflexivity.
Defined.

End TaskRules.

(** * Properties of the resource pool *)

Section PoolFacts.
Import ResPool.

Lemma lane_insert (level level' : N) (gs : list Gang) (q : PriorityQueue) :
  lane level' (<[level := gs]> q)
  = if decide (level = level') then gs else lane level' q.
Proof.
  unfold lane. destruct (decide (level = level')) as [->|Hne].
  - by rewrite lookup_insert_eq.
  - by rewrite lookup_insert_ne.
Qed.

(** The head of the line is the oldest gang of the highest non-empty
    lane. *)
Lemma highestLevel_spec (q : PriorityQueue) :
  match highestLevel q with
  | Some level =>
      lane level q ≠ []
      /\ forall level', lane level' q ≠ [] -> (level' <= level)%N
  | None => forall level', lane level' q = []
  end.
Proof.
  unfold highestLevel.
  induction q as [|i gs m Hi Hfirst IH] using map_first_key_ind.
  - rewrite map_fold_empty. intros level'. unfold lane.
    by rewrite lookup_empty.
  - rewrite map_fold_insert_first_key by assumption.
    assert (Hlane_i : lane i m = []) by (unfold lane; by rewrite Hi).
    destruct gs as [|g0 gs].
    + destruct (map_fold _ None m) as [level|].
      * destruct IH as [Hne Hmax]. split.
        -- rewrite lane_insert. destruct (decide (i = level)) as [->|_];
             [congruence | exact Hne].
        -- intros level'. rewrite lane_insert.
           destruct (decide (i = level')); [congruence | apply Hmax].
      * intros level'. rewrite lane_insert.
        destruct (decide (i = level')); [reflexivity | apply IH].
    + destruct (map_fold _ None m) as [level|].
      * destruct IH as [Hne Hmax]. split.
        -- rewrite lane_insert.
           destruct (decide (i = N.max level i)) as [_|Hneq];
             [discriminate|].
           assert (N.max level i = level) as -> by lia. exact Hne.
        -- intros level'. rewrite lane_insert.
           destruct (decide (i = level')) as [->|_]; [lia|].
           intros Hl. specialize (Hmax level' Hl). lia.
      * split.
        -- rewrite lane_insert. by rewrite decide_True.
        -- intros level'. rewrite lane_insert.
           destruct (decide (i = level')) as [->|_]; [lia|].
           intros Hl. by rewrite IH in Hl.
Qed.

Lemma Peek_highest_priority_first (q : PriorityQueue) (g : Gang) :
  Peek q = Some g ->
  exists level rest,
    lane level q = g :: rest
    /\ forall level', lane level' q ≠ [] -> (level' <= level)%N.
Proof.
  unfold Peek. pose proof (highestLevel_spec q) as Hspec.
  destruct (highestLevel q) as [level|]; [|discriminate].
  destruct Hspec as [_ Hmax].
  destruct (lane level q) as [|g' rest] eqn:Hlane; [discriminate|].
  intros [= ->]. eauto.
Qed.


(** The expectations of [respool_test.go] and [resources_test.go] on the
    models. *)
Example TestResPoolEnqueue :
  let q := pendingQueue (Fixtures.enqueueAll Fixtures.getTasks
                                             Fixtures.emptyPool) in
  Len 2 q = 2%nat /\ Len 1 q = 1%nat /\ Len 0 q = 1%nat.
Proof. vm_compute. repeat split. Qed.

Example TestResPoolDequeue :
  let n0 := Fixtures.enqueueAll Fixtures.getTasks Fixtures.emptyPool in
  let r1 := DequeueGangList 1 n0 in
  let r2 := DequeueGangList 1 (snd r1) in
  (exists g, fst r1 = inr [g]) /\ Len 2 (pendingQueue (snd r1)) = 1%nat
  /\ (exists g, fst r2 = inr [g]) /\ Len 2 (pendingQueue (snd r2)) = 0%nat.
Proof. vm_compute. repeat split; eauto. Qed.

Example TestAllocation :
  allocation (snd (DequeueGangList 1
                     (Fixtures.enqueueAll Fixtures.getTasks
                                          Fixtures.emptyPool)))
  = Scalar.mkRes 1 100 10 0.
Proof. reflexivity. Qed.

Example TestContains :
  let empty := Scalar.zero in
  let r1 := Scalar.mkRes 1 0 0 0 in
  let r2 := Scalar.mkRes 0 1 0 0 in
  let r3 := Scalar.mkRes 1 1 1 1 in
  Scalar.Contains empty empty = true /\ Scalar.Contains r1 r1 = true
  /\ Scalar.Contains empty r1 = false /\ Scalar.Contains r1 empty = true
  /\ Scalar.Contains r1 r2 = false /\ Scalar.Contains r2 r1 = false
  /\ Scalar.Contains r1 r3 = false /\ Scalar.Contains r3 r1 = true
  /\ Scalar.Contains r3 r3 = true.
Proof. vm_compute. repeat split. Qed.

Example TestTrySubtract :
  let r1 := Scalar.mkRes 1 2 3 4 in
  let r3 := Scalar.mkRes 5 6 7 8 in
  snd (Scalar.TrySubtract Scalar.zero r1) = false
  /\ Scalar.TrySubtract r1 r1 = (Scalar.zero, true)
  /\ Scalar.TrySubtract r3 r1 = (Scalar.mkRes 4 4 4 4, true)
  /\ snd (Scalar.TrySubtract r1 r3) = false.
Proof. vm_compute. repeat split. Qed.

(** C9. [EnqueueGang] on a gang without tasks returns an error and
    [DequeueGangList] with a limit [n <= 0], limit 0 in particular, returns
    an error; both leave the pool, and so its pending queue, as it was. *)
Theorem enqueue_empty_and_dequeue_nonpositive_fail (n : resPool) (limit : Z) :
  EnqueueGang [] n = (Some (InvalidArgument "gang has no elements"), n)
  /\ pendingQueue (snd (EnqueueGang [] n)) = pendingQueue n
  /\ DequeueGangList 0 n = (inl (InvalidArgument "limit 0 is not valid"), n)
  /\ ((limit <= 0)%Z ->
      DequeueGangList limit n
      = (inl (InvalidArgument ("limit " ++ pretty limit ++ " is not valid")),
         n)
      /\ pendingQueue (snd (DequeueGangList limit n)) = pendingQueue n).
Proof.
  split; [reflexivity|]. split; [reflexivity|]. split; [reflexivity|].
  intros Hle. unfold DequeueGangList.
  destruct (Z.leb_spec limit 0) as [_|Hgt]; [by split | lia].
Qed.

Lemma enqueue_empty_and_dequeue_nonpositive_fail_witness :
  DequeueGangList (-3) (Fixtures.enqueueAll Fixtures.getTasks Fixtures.emptyPool)
  = (inl (InvalidArgument "limit -3 is not valid"),
     Fixtures.enqueueAll Fixtures.getTasks Fixtures.emptyPool).
Proof.
  apply (enqueue_empty_and_dequeue_nonpositive_fail
           (Fixtures.enqueueAll Fixtures.getTasks Fixtures.emptyPool) (-3)).
  lia.
Defined.




End PoolFacts.

(** * Further properties of the host summary *)

Section HostCacheMore.
Import HostCacheOps.
Context `{SR : ScalarResources}.

Implicit Types (w : World) (a : hostSummary).

Lemma CompleteLease_run (lease : string)
    (newPodToResMap : gmap string Resources) w :
  status (host w) = PlacingHost ->
  leaseID (host w) = lease ->
  CompleteLease lease newPodToResMap w
  = match validateNewPods newPodToResMap (host w) with
    | Some e =>
        (Some (InvalidArgumentError
                 ("pod validation failed: " ++ error_msg e)),
         entered (getResetStatus (host w)) w)
    | None =>
        (None,
         mkWorld (updatePodToResMap newPodToResMap
                    (host (entered (getResetStatus (host w)) w)))
                 (uuids (entered (getResetStatus (host w)) w)))
    end.
Proof.
  intros Hst Hlease. unfold CompleteLease, bind, getHost. simpl.
  destruct (decide (status (host w) ≠ PlacingHost)) as [Hne|_];
    [congruence|].
  rewrite Hlease, String.eqb_refl. simpl.
  rewrite (casStatus_match PlacingHost _ w Hst). simpl.
  rewrite validateNewPods_entered.
  destruct (validateNewPods newPodToResMap (host w)); reflexivity.
Qed.

Lemma CompleteLease_not_placing (lease : string)
    (newPodToResMap : gmap string Resources) w :
  status (host w) ≠ PlacingHost ->
  CompleteLease lease newPodToResMap w
  = (Some (InvalidArgumentError "host status is not Placing"), w).
Proof.
  intros Hst. unfold CompleteLease, bind, getHost. simpl.
  destruct (decide (status (host w) ≠ PlacingHost)) as [_|Hn];
    [reflexivity | contradiction].
Qed.

Lemma TerminateLease_not_placing w :
  status (host w) ≠ PlacingHost ->
  TerminateLease w
  = (Some (InvalidArgumentError
             ("invalid status " ++ HostStatus_fmt (status (host w)))), w).
Proof.
  intros Hst. unfold TerminateLease, bind, getHost. simpl.
  destruct (decide (status (host w) ≠ PlacingHost)) as [_|Hn];
    [reflexivity | contradiction].
Qed.

Lemma TryMatch_cases (filter : option HostFilter) w :
  (TryMatch filter w
   = (mkMatch HOST_FILTER_MATCH (hostname (host w)), entered PlacingHost w)
   /\ (status (host w) = ReadyHost \/ status (host w) = HeldHost))
  \/ (Result (fst (TryMatch filter w)) ≠ HOST_FILTER_MATCH
      /\ snd (TryMatch filter w) = w).
Proof.
  unfold TryMatch, bind, getHost. simpl.
  destruct (decide (status (host w) ≠ ReadyHost
                    ∧ status (host w) ≠ HeldHost)) as [_|Hgate];
    [right; by split|].
  destruct (bool_decide (status (host w) = HeldHost)
            && negb (hintFound filter (host w)));
    [right; by split|].
  destruct (matchHostFilter filter (host w)); simpl;
    try (right; by split).
  rewrite (casStatus_match (status (host w)) PlacingHost w eq_refl).
  left. split; [reflexivity|].
  destruct (status (host w)); try (by left); try (by right);
    exfalso; apply Hgate; by split.
Qed.

Lemma TryMatch_locked (filter : option HostFilter) w :
  status (host w) = PlacingHost \/ status (host w) = ReservedHost ->
  TryMatch filter w = (mkMatch HOST_FILTER_MISMATCH_STATUS "", w).
Proof.
  intros Hst. unfold TryMatch, bind, getHost. simpl.
  destruct (decide (status (host w) ≠ ReadyHost
                    ∧ status (host w) ≠ HeldHost)) as [_|Hgate];
    [reflexivity|].
  exfalso. apply Hgate. destruct Hst as [-> | ->]; by split.
Qed.

(** X1. Once a placement engine has matched a host, the host is locked:
    every further [TryMatch], with whatever filter, answers MISMATCH_STATUS
    and leaves the host as it is. *)
Theorem TryMatch_after_match_is_refused
    (filter filter' : option HostFilter) w :
  Result (fst (TryMatch filter w)) = HOST_FILTER_MATCH ->
  TryMatch filter' (snd (TryMatch filter w))
  = (mkMatch HOST_FILTER_MISMATCH_STATUS "", snd (TryMatch filter w)).
Proof.
  intros Hmatch.
  destruct (TryMatch_cases filter w) as [[Hrun _]|[Hno _]];
    [|contradiction].
  rewrite Hrun. simpl. apply TryMatch_locked. left. reflexivity.
Qed.

(** X2. [CompleteLease] and [TerminateLease] on a host that is not in
    Placing status return an InvalidArgument error and change nothing. *)
Theorem lease_calls_need_placing
    (lease : string) (newPodToResMap : gmap string Resources) w :
  status (host w) ≠ PlacingHost ->
  isInvalidArgument (fst (CompleteLease lease newPodToResMap w)) = true
  /\ snd (CompleteLease lease newPodToResMap w) = w
  /\ isInvalidArgument (fst (TerminateLease w)) = true
  /\ snd (TerminateLease w) = w.
Proof.
  intros Hst.
  rewrite (CompleteLease_not_placing lease newPodToResMap w Hst).
  rewrite (TerminateLease_not_placing w Hst). by repeat split.
Qed.

(** X3. A lease can be completed once.  After [CompleteLease] has been
    called with the host's lease ID, whether its pods passed validation or
    not, a second [CompleteLease] with the same lease ID fails with
    InvalidArgument and changes nothing. *)
Theorem CompleteLease_consumes_lease
    (lease : string) (pods pods' : gmap string Resources) w :
  status (host w) = PlacingHost ->
  leaseID (host w) = lease ->
  let w1 := snd (CompleteLease lease pods w) in
  CompleteLease lease pods' w1
  = (Some (InvalidArgumentError "host status is not Placing"), w1).
Proof.
  intros Hst Hlease w1. apply CompleteLease_not_placing.
  unfold w1. rewrite (CompleteLease_run lease pods w Hst Hlease).
  destruct (validateNewPods pods (host w));
    destruct (getResetStatus_cases (host w)) as [[-> _]|[-> _]];
    simpl; discriminate.
Qed.

(** *** Releasing pods *)

Lemma ReleasePodResources_absent (podID : string) w :
  podToResMap (host w) !! podID = None ->
  ReleasePodResources podID w = (tt, w).
Proof.
  intros Hnone. unfold ReleasePodResources, bind, getHost. simpl.
  by rewrite Hnone.
Qed.

Lemma ReleasePodResources_present (podID : string) (r : Resources) w :
  podToResMap (host w) !! podID = Some r ->
  ReleasePodResources podID w
  = (tt, mkWorld (calculateAllocated
                    (set_podToResMap (delete podID (podToResMap (host w)))
                                     (host w)))
                 (uuids w)).
Proof.
  intros Hsome. unfold ReleasePodResources, bind, getHost. simpl.
  by rewrite Hsome.
Qed.

(** X4. [ReleasePodResources] for a pod the host does not have changes
    nothing, so releasing is idempotent: a second release of the same pod
    is a no-op whatever the first one did. *)
Theorem ReleasePodResources_idempotent (podID : string) w :
  (podToResMap (host w) !! podID = None ->
   snd (ReleasePodResources podID w) = w)
  /\ snd (ReleasePodResources podID (snd (ReleasePodResources podID w)))
     = snd (ReleasePodResources podID w).
Proof.
  split.
  - intros Hnone. by rewrite ReleasePodResources_absent.
  - destruct (podToResMap (host w) !! podID) as [r|] eqn:Hlook.
    + rewrite (ReleasePodResources_present podID r w Hlook). simpl.
      rewrite ReleasePodResources_absent; [reflexivity|].
      simpl. apply lookup_delete_eq.
    + rewrite (ReleasePodResources_absent podID w Hlook). simpl.
      by rewrite ReleasePodResources_absent.
Qed.

(** X5. [ReleasePodResources] for a pod on the host removes exactly that
    pod: the pod is gone, every other pod keeps its resources, the
    allocation is recomputed as the sum over the remaining pods, and
    status, lease ID and capacity are untouched. *)
Theorem ReleasePodResources_removes_pod (podID : string) w :
  is_Some (podToResMap (host w) !! podID) ->
  let a' := host (snd (ReleasePodResources podID w)) in
  podToResMap a' !! podID = None
  /\ (forall other, other ≠ podID ->
        podToResMap a' !! other = podToResMap (host w) !! other)
  /\ allocated a' = sumResources (delete podID (podToResMap (host w)))
  /\ status a' = status (host w)
  /\ leaseID a' = leaseID (host w)
  /\ capacity a' = capacity (host w).
Proof.
  intros [r Hlook] a'. unfold a'.
  rewrite (ReleasePodResources_present podID r w Hlook). simpl.
  repeat split.
  - apply lookup_delete_eq.
  - intros other Hne. by apply lookup_delete_ne.
Qed.

(** *** Completing a lease *)

(** X6. A successful [CompleteLease] adds every new pod with its resources
    and keeps every pod the host already had with the resources it had; the
    allocation becomes the sum over the resulting pod map. *)
Theorem CompleteLease_adds_pods
    (lease : string) (newPodToResMap : gmap string Resources) w :
  status (host w) = PlacingHost ->
  leaseID (host w) = lease ->
  fst (CompleteLease lease newPodToResMap w) = None ->
  let a' := host (snd (CompleteLease lease newPodToResMap w)) in
  (forall podID r, newPodToResMap !! podID = Some r ->
                   podToResMap a' !! podID = Some r)
  /\ (forall podID r, podToResMap (host w) !! podID = Some r ->
                      podToResMap a' !! podID = Some r
                      /\ newPodToResMap !! podID = None)
  /\ (forall podID, podToResMap a' !! podID = None <->
                    newPodToResMap !! podID = None
                    /\ podToResMap (host w) !! podID = None)
  /\ allocated a' = sumResources (podToResMap a').
Proof.
  intros Hst Hlease Hok a'. unfold a'. revert Hok.
  rewrite (CompleteLease_run lease newPodToResMap w Hst Hlease).
  destruct (validateNewPods newPodToResMap (host w)) eqn:Hval;
    [discriminate|].
  intros _. apply validateNewPods_ok in Hval as [Hfree _]. cbn [snd host].
  destruct (updatePodToResMap_spec newPodToResMap
              (host (entered (getResetStatus (host w)) w)))
    as (Hmap & Halloc & _).
  destruct (entered_fields (getResetStatus (host w)) w)
    as (_ & _ & _ & _ & Hpods & _).
  simpl in Hpods. rewrite Hpods in Hmap, Halloc.
  rewrite Hmap, Halloc. split; [|split; [|split]].
  - intros podID r Hnew. apply lookup_union_Some_raw. by left.
  - intros podID r Hold.
    assert (Hnew : newPodToResMap !! podID = None).
    { destruct (newPodToResMap !! podID) as [r'|] eqn:Hnew; [|reflexivity].
      rewrite (Hfree podID) in Hold by (rewrite Hnew; eauto).
      discriminate. }
    split; [|exact Hnew]. apply lookup_union_Some_raw. by right.
  - intros podID. apply lookup_union_None.
  - reflexivity.
Qed.

(** X7. Completing a lease with one pod and then releasing that pod is a
    round trip on the pod map: the completed lease adds the pod to the map
    and the release gives back the pod map of before the lease was
    completed.  The allocation is then what [calculateAllocated] recomputes
    from that restored pod map, in a loop of its own. *)
Theorem CompleteLease_then_release_restores
    (lease podID : string) (r : Resources) w :
  status (host w) = PlacingHost ->
  leaseID (host w) = lease ->
  fst (CompleteLease lease {[ podID := r ]} w) = None ->
  let w1 := snd (CompleteLease lease {[ podID := r ]} w) in
  let w2 := snd (ReleasePodResources podID w1) in
  podToResMap (host w1) !! podID = Some r
  /\ podToResMap (host w1) = <[podID := r]> (podToResMap (host w))
  /\ podToResMap (host w2) = podToResMap (host w)
  /\ allocated (host w2) = sumResources (podToResMap (host w)).
Proof.
  intros Hst Hlease Hok w1 w2. unfold w2, w1. clear w1 w2. revert Hok.
  rewrite (CompleteLease_run lease {[ podID := r ]} w Hst Hlease).
  destruct (validateNewPods {[ podID := r ]} (host w)) eqn:Hval;
    [discriminate|].
  intros _. apply validateNewPods_ok in Hval as [Hfree _]. cbn [snd host].
  assert (Hnone : podToResMap (host w) !! podID = None).
  { apply Hfree. rewrite lookup_singleton_eq. eauto. }
  destruct (updatePodToResMap_spec {[ podID := r ]}
              (host (entered (getResetStatus (host w)) w)))
    as (Hmap & _).
  destruct (entered_fields (getResetStatus (host w)) w)
    as (_ & _ & _ & _ & Hpods & _).
  simpl in Hpods. rewrite Hpods in Hmap.
  rewrite <- insert_union_singleton_l in Hmap.
  assert (Hlook : podToResMap
                    (updatePodToResMap {[ podID := r ]}
                       (host (entered (getResetStatus (host w)) w)))
                  !! podID = Some r).
  { rewrite Hmap. apply lookup_insert_eq. }
  split; [exact Hlook|]. split; [exact Hmap|].
  set (a1 := updatePodToResMap {[ podID := r ]}
               (host (entered (getResetStatus (host w)) w))) in *.
  set (g1 := uuids (entered (getResetStatus (host w)) w)).
  rewrite (ReleasePodResources_present podID r (mkWorld a1 g1) Hlook).
  cbn [snd host].
  unfold calculateAllocated. cbn [podToResMap allocated set_allocated
                                  set_podToResMap].
  rewrite Hmap, delete_insert_id by exact Hnone. split; reflexivity.
Qed.

(** *** What the calls leave alone *)

Lemma sameIdentity_refl a : sameIdentity a a.
Proof. by repeat split. Qed.

Lemma sameIdentity_entered (s : HostStatus) w :
  sameIdentity (host w) (host (entered s w)).
Proof. destruct s; by repeat split. Qed.

Lemma exec_sameIdentity (c : Call) w :
  sameIdentity (host w) (host (exec c w)).
Proof.
  destruct c as [filter|lease newPods| |old new|podID]; simpl.
  - destruct (TryMatch_cases filter w) as [[-> _]|[_ ->]];
      [apply sameIdentity_entered | apply sameIdentity_refl].
  - destruct (decide (status (host w) = PlacingHost)) as [Hst|Hst].
    + destruct (decide (leaseID (host w) = lease)) as [Hl|Hl].
      * rewrite (CompleteLease_run lease newPods w Hst Hl).
        destruct (validateNewPods newPods (host w)); simpl.
        -- apply sameIdentity_entered.
        -- destruct (getResetStatus (host w)); by repeat split.
      * unfold CompleteLease, bind, getHost. simpl.
        destruct (decide (status (host w) ≠ PlacingHost));
          [apply sameIdentity_refl|].
        destruct (String.eqb_spec (leaseID (host w)) lease);
          [contradiction | apply sameIdentity_refl].
    + rewrite (CompleteLease_not_placing lease newPods w Hst).
      apply sameIdentity_refl.
  - destruct (decide (status (host w) = PlacingHost)) as [Hst|Hst].
    + rewrite (TerminateLease_placing w Hst). apply sameIdentity_entered.
    + rewrite (TerminateLease_not_placing w Hst). apply sameIdentity_refl.
  - destruct (decide (status (host w) = old)) as [Heq|Hne].
    + rewrite (CasStatus_match old new w Heq). apply sameIdentity_entered.
    + rewrite (CasStatus_mismatch old new w Hne). apply sameIdentity_refl.
  - destruct (podToResMap (host w) !! podID) as [r|] eqn:Hlook.
    + rewrite (ReleasePodResources_present podID r w Hlook).
      by repeat split.
    + rewrite (ReleasePodResources_absent podID w Hlook).
      apply sameIdentity_refl.
Qed.

(** X8. None of [TryMatch], [CompleteLease], [TerminateLease], [CasStatus]
    and [ReleasePodResources] changes the host name, the capacity, the
    labels, the held pods or the version.  So on a summary made by
    [newHostSummary] and driven by these calls [heldPodIDs] stays empty, and every
    lease that ends on it, completed or terminated, puts it back to Ready:
    Held is entered through [CasStatus] only. *)
Theorem exported_calls_keep_identity
    (h : string) (r : PelotonResources) (v : string) (g : UUIDSource) :
  (forall (c : Call) w,
     hostname (host (exec c w)) = hostname (host w)
     /\ capacity (host (exec c w)) = capacity (host w)
     /\ labels (host (exec c w)) = labels (host w)
     /\ heldPodIDs (host (exec c w)) = heldPodIDs (host w)
     /\ version (host (exec c w)) = version (host w))
  /\ (forall w, reachable h r v g w ->
        hostname (host w) = h
        /\ capacity (host w) = FromPelotonResources r
        /\ version (host w) = v
        /\ heldPodIDs (host w) = ∅
        /\ getResetStatus (host w) = ReadyHost).
Proof.
  split.
  - intros c w. apply exec_sameIdentity.
  - intros w Hreach.
    assert (Hfields : hostname (host w) = h
                      /\ capacity (host w) = FromPelotonResources r
                      /\ version (host w) = v
                      /\ heldPodIDs (host w) = ∅).
    { induction Hreach as [|w c Hreach (Hh & Hc & Hv & Hheld)].
      - by repeat split.
      - destruct (exec_sameIdentity c w) as (-> & -> & _ & -> & ->).
        by repeat split. }
    destruct Hfields as (Hh & Hc & Hv & Hheld). repeat split; try assumption.
    unfold getResetStatus. by rewrite Hheld.
Qed.

(** *** The allocation is the sum of the pods *)

Lemma allocationInvariant_entered (s : HostStatus) w :
  allocationInvariant (host w) ->
  allocationInvariant (host (entered s w)).
Proof. unfold allocationInvariant. by destruct s. Qed.

Lemma exec_allocationInvariant (c : Call) w :
  allocationInvariant (host w) ->
  allocationInvariant (host (exec c w)).
Proof.
  intros Hinv. destruct c as [filter|lease newPods| |old new|podID]; simpl.
  - destruct (TryMatch_cases filter w) as [[-> _]|[_ ->]];
      [by apply allocationInvariant_entered | exact Hinv].
  - destruct (decide (status (host w) = PlacingHost)) as [Hst|Hst].
    + destruct (decide (leaseID (host w) = lease)) as [Hl|Hl].
      * rewrite (CompleteLease_run lease newPods w Hst Hl).
        destruct (validateNewPods newPods (host w)); cbn [snd host].
        -- by apply allocationInvariant_entered.
        -- reflexivity.
      * unfold CompleteLease, bind, getHost. simpl.
        destruct (decide (status (host w) ≠ PlacingHost)); [exact Hinv|].
        destruct (String.eqb_spec (leaseID (host w)) lease);
          [contradiction | exact Hinv].
    + by rewrite (CompleteLease_not_placing lease newPods w Hst).
  - destruct (decide (status (host w) = PlacingHost)) as [Hst|Hst].
    + rewrite (TerminateLease_placing w Hst).
      by apply allocationInvariant_entered.
    + by rewrite (TerminateLease_not_placing w Hst).
  - destruct (decide (status (host w) = old)) as [Heq|Hne].
    + rewrite (CasStatus_match old new w Heq).
      by apply allocationInvariant_entered.
    + by rewrite (CasStatus_mismatch old new w Hne).
  - destruct (podToResMap (host w) !! podID) as [r|] eqn:Hlook.
    + by rewrite (ReleasePodResources_present podID r w Hlook).
    + by rewrite (ReleasePodResources_absent podID w Hlook).
Qed.

Lemma mutate_allocationInvariant (m : Mutation) w :
  allocationInvariant (host w) ->
  allocationInvariant (host (mutate m w)).
Proof.
  destruct m as [c|r|v]; simpl; [apply exec_allocationInvariant | | ];
    intros Hinv; exact Hinv.
Qed.

(** X9. Whatever sequence of state-changing interface calls ([TryMatch],
    [CompleteLease], [TerminateLease], [CasStatus], [ReleasePodResources],
    [SetCapacity], [SetVersion]) is run on a new host summary, the
    allocation is the sum of the resources in the pod map, as the comment
    on the [allocated] field asks. *)
Theorem allocated_is_sum_of_pods
    (h : string) (r : PelotonResources) (v : string) (g : UUIDSource)
    (ms : list Mutation) :
  let a := host (run ms (mkWorld (newHostSummary h r v) g)) in
  allocated a = sumResources (podToResMap a).
Proof.
  cbn zeta.
  assert (Hgen : forall w, allocationInvariant (host w) ->
                           allocationInvariant (host (run ms w))).
  { induction ms as [|m ms IH]; intros w Hinv; [exact Hinv|].
    simpl. apply IH. by apply mutate_allocationInvariant. }
  apply Hgen. unfold allocationInvariant, sumResources. simpl.
  by rewrite map_fold_empty.
Qed.

(** *** Leases in sequence *)

Lemma CompleteLease_wrong_lease (lease : string)
    (newPodToResMap : gmap string Resources) w :
  status (host w) = PlacingHost ->
  leaseID (host w) ≠ lease ->
  CompleteLease lease newPodToResMap w
  = (Some (InvalidArgumentError "host leaseID does not match"), w).
Proof.
  intros Hst Hlease. unfold CompleteLease, bind, getHost. simpl.
  destruct (decide (status (host w) ≠ PlacingHost)) as [Hne|_];
    [congruence|].
  destruct (String.eqb_spec (leaseID (host w)) lease) as [Heq|_];
    [contradiction | reflexivity].
Qed.

(** X10. [TerminateLease] undoes [TryMatch].  On a host without lease ID
    whose status is the one a lease reset leads to (Ready without held
    pods, Held with held pods), a match followed by [TerminateLease] gives
    back the very same summary; only one UUID has been used up. *)
Theorem TerminateLease_undoes_TryMatch (filter : option HostFilter) w :
  Result (fst (TryMatch filter w)) = HOST_FILTER_MATCH ->
  leaseID (host w) = emptyLeaseID ->
  status (host w) = getResetStatus (host w) ->
  let w1 := snd (TryMatch filter w) in
  fst (TerminateLease w1) = None
  /\ host (snd (TerminateLease w1)) = host w
  /\ drawn (uuids (snd (TerminateLease w1))) = S (drawn (uuids w)).
Proof.
  intros Hmatch Hlease Hstatus w1. unfold w1.
  destruct (TryMatch_cases filter w) as [[Hrun _]|[Hno _]];
    [|contradiction].
  rewrite Hrun. cbn [snd].
  rewrite (TerminateLease_placing (entered PlacingHost w) eq_refl).
  cbn [fst snd]. split; [reflexivity|].
  destruct w as [[hn cap alloc lbl pods held st lease ver] g].
  simpl in *. subst lease.
  destruct (getResetStatus_cases
              (mkSummary hn cap alloc lbl pods held st "" ver))
    as [[Hr _]|[Hr _]]; unfold getResetStatus in *; simpl in *;
    rewrite Hr in *; subst st; by split.
Qed.

(** X11. The lease ID of an earlier match does not complete a later one.
    After match, [TerminateLease] and a second match, [CompleteLease] with
    the first lease ID is rejected with InvalidArgument and changes
    nothing, provided the UUID source returned two different values. *)
Theorem earlier_lease_does_not_complete_later_match
    (filter filter' : option HostFilter) (pods : gmap string Resources) w :
  Result (fst (TryMatch filter w)) = HOST_FILTER_MATCH ->
  let w1 := snd (TryMatch filter w) in
  let w2 := snd (TerminateLease w1) in
  Result (fst (TryMatch filter' w2)) = HOST_FILTER_MATCH ->
  let w3 := snd (TryMatch filter' w2) in
  gen (uuids w) (drawn (uuids w)) ≠ gen (uuids w) (S (drawn (uuids w))) ->
  leaseID (host w1) = gen (uuids w) (drawn (uuids w))
  /\ leaseID (host w3) = gen (uuids w) (S (drawn (uuids w)))
  /\ CompleteLease (leaseID (host w1)) pods w3
     = (Some (InvalidArgumentError "host leaseID does not match"), w3).
Proof.
  intros Hmatch w1 w2 Hmatch' w3 Hfresh.
  destruct (TryMatch_cases filter w) as [[Hrun _]|[Hno _]];
    [|contradiction].
  assert (Hw1 : w1 = entered PlacingHost w) by (unfold w1; by rewrite Hrun).
  assert (Hw2 : w2 = entered (getResetStatus (host w1)) w1).
  { unfold w2. rewrite (TerminateLease_placing w1); [reflexivity|].
    by rewrite Hw1. }
  destruct (TryMatch_cases filter' w2) as [[Hrun' _]|[Hno' _]];
    [|contradiction].
  assert (Hw3 : w3 = entered PlacingHost w2) by (unfold w3; by rewrite Hrun').
  assert (Hu2 : uuids w2 = uuids w1).
  { rewrite Hw2.
    destruct (getResetStatus_cases (host w1)) as [[-> _]|[-> _]];
      reflexivity. }
  assert (Hl1 : leaseID (host w1) = gen (uuids w) (drawn (uuids w))).
  { by rewrite Hw1. }
  assert (Hl3 : leaseID (host w3) = gen (uuids w) (S (drawn (uuids w)))).
  { rewrite Hw3. cbn [entered host leaseID set_leaseID uuid_New fst].
    rewrite Hu2, Hw1. reflexivity. }
  split; [exact Hl1|]. split; [exact Hl3|].
  apply CompleteLease_wrong_lease.
  - by rewrite Hw3.
  - rewrite Hl1, Hl3. intros Heq. apply Hfresh. by symmetry.
Qed.

End HostCacheMore.

(** * Further properties of the goal-state engine *)

Section JobEntityFacts.
Import JobGoalState JobEntity.

Lemma suggestJobAction_range (state goalstate : JobStateVector) :
  suggestJobAction state goalstate = NoJobAction
  \/ is_Some (_jobActionsMaps (suggestJobAction state goalstate)).
Proof.
  destruct state as [st ver], goalstate as [gst gver].
  unfold suggestJobAction. simpl.
  destruct (ver <? gver)%N; destruct gst; destruct st; simpl;
    try (left; reflexivity); right; eauto.
Qed.

(** X12. Every action [suggestJobAction] can return, other than the
    no-op, has an executor in [_jobActionsMaps]: the job entity never
    drops a suggested action for want of a function to run. *)
Theorem suggested_job_action_has_executor
    (state goalstate : JobStateVector) :
  suggestJobAction state goalstate ≠ NoJobAction ->
  is_Some (_jobActionsMaps (suggestJobAction state goalstate)).
Proof.
  intros Hne.
  destruct (suggestJobAction_range state goalstate) as [Hno|Hsome];
    [contradiction | exact Hsome].
Qed.

(** X13. When the state or the goal state of a job could not be loaded
    (UNKNOWN), the action list is the single enqueue action: nothing else
    is run on the job. *)
Theorem GetActionList_unknown_state_enqueues
    (jobState jobGoalState : JobStateVector) :
  State jobState = JobState_UNKNOWN
  \/ State jobGoalState = JobState_UNKNOWN ->
  GetActionList jobState jobGoalState = [ mkAction "enqueue" JobEnqueue ].
Proof.
  intros Hunknown. unfold GetActionList.
  destruct Hunknown as [-> | ->]; simpl; [reflexivity|].
  by rewrite orb_true_r.
Qed.

(** X14. When both states are known, the action list is the suggested
    action (absent for the no-op) followed by the runtime update, the SLA
    evaluation and the removal from the active jobs; only untrack and
    recover run alone.  The list is never empty. *)
Theorem GetActionList_known_states
    (jobState jobGoalState : JobStateVector) :
  State jobState ≠ JobState_UNKNOWN ->
  State jobGoalState ≠ JobState_UNKNOWN ->
  let a := suggestJobAction jobState jobGoalState in
  let l := GetActionList jobState jobGoalState in
  (a = UntrackAction -> l = [ mkAction "untrack" JobUntrack ])
  /\ (a = RecoverAction -> l = [ mkAction "recover" JobRecover ])
  /\ (a = NoJobAction -> l = alwaysRun)
  /\ (a ≠ UntrackAction -> a ≠ RecoverAction -> a ≠ NoJobAction ->
      exists f, _jobActionsMaps a = Some f
                /\ l = mkAction (JobAction_string a) f :: alwaysRun)
  /\ l ≠ [].
Proof.
  intros Hs Hg a l.
  assert (Hl : l = let actions :=
                     match _jobActionsMaps a with
                     | Some f => [ mkAction (JobAction_string a) f ]
                     | None => []
                     end in
                   if bool_decide (a ≠ UntrackAction)
                      && bool_decide (a ≠ RecoverAction)
                   then (actions ++ alwaysRun)%list else actions).
  { unfold l, GetActionList.
    rewrite (bool_decide_eq_false_2 _ Hs), (bool_decide_eq_false_2 _ Hg).
    reflexivity. }
  pose proof (suggestJobAction_range jobState jobGoalState) as Hrange.
  fold a in Hrange. clearbody a l. subst l.
  split; [|split; [|split; [|split]]].
  - intros ->. reflexivity.
  - intros ->. reflexivity.
  - intros ->. reflexivity.
  - intros H1 H2 H3. destruct Hrange as [?|[f Hf]]; [contradiction|].
    exists f. split; [exact Hf|]. cbn zeta. rewrite Hf.
    by rewrite (bool_decide_eq_true_2 _ H1), (bool_decide_eq_true_2 _ H2).
  - destruct a; simpl; try discriminate;
      destruct Hrange as [?|[f Hf]]; discriminate.
Qed.

(** X15. What [suggestJobAction] never does: it suggests a kill only for
    goal KILLED, an untrack only for goal SUCCEEDED or KILLED, a start of
    the tasks only for goal RUNNING with the state version behind the
    goal's, and a creation of tasks only for a job in state INITIALIZED. *)
Theorem suggestJobAction_restraint (state goalstate : JobStateVector) :
  (suggestJobAction state goalstate = KillAction ->
   State goalstate = JobState_KILLED)
  /\ (suggestJobAction state goalstate = UntrackAction ->
      State goalstate = JobState_SUCCEEDED
      \/ State goalstate = JobState_KILLED)
  /\ (suggestJobAction state goalstate = StartTasksAction ->
      State goalstate = JobState_RUNNING
      /\ (StateVersion state < StateVersion goalstate)%N)
  /\ (suggestJobAction state goalstate = CreateTasksAction ->
      State state = JobState_INITIALIZED).
Proof.
  destruct state as [st ver], goalstate as [gst gver].
  unfold suggestJobAction. simpl.
  destruct (N.ltb_spec ver gver) as [Hlt|Hge];
    destruct gst; destruct st; simpl;
    repeat split; try discriminate; try reflexivity; try assumption;
    try (intros _; by left); try (intros _; by right).
Qed.

End JobEntityFacts.

Section TaskEngineFacts.
Import TaskGoalState TaskEngine.

Lemma wrap64_small (z : Z) :
  (- 2 ^ 63 <= z < 2 ^ 63)%Z -> wrap64 z = z.
Proof.
  intros Hz. unfold wrap64.
  rewrite Z.mod_small by lia. lia.
Qed.

(** X16. A task whose action is the no-op or untrack is not rescheduled
    ([ScheduleTask] gets the zero time); and whenever [processTask] does
    reschedule a task, the delay is at most [MaxRetryDelay]. *)
Theorem processTask_deadline_bounds
    (_indefDelay : Z) (cfg : Config) (action : TaskAction)
    (lastAction : option TaskAction) (sinceLast : Z) (success : bool) :
  (action = NoAction \/ action = UntrackAction ->
   processTaskDeadline _indefDelay cfg action lastAction sinceLast success
   = None)
  /\ (forall delay,
        processTaskDeadline _indefDelay cfg action lastAction sinceLast
                            success = Some delay ->
        (delay <= MaxRetryDelay cfg)%Z).
Proof.
  split.
  - intros [-> | ->]; unfold processTaskDeadline, processTaskDelay; simpl;
      by rewrite bool_decide_eq_false_2 by (intros H; by apply H).
  - intros delay. unfold processTaskDeadline.
    set (d := processTaskDelay _ _ _ _ _ _).
    destruct (bool_decide (d ≠ _indefDelay)); [|discriminate].
    destruct (Z.gtb_spec d (MaxRetryDelay cfg)); intros [= <-]; lia.
Qed.

(** X17. Backoff.  For an action other than the no-op and untrack, with
    delays that stay clear of the [_indefDelay] marker and of the [int64]
    range: the first time the action is seen the task is rescheduled after
    the success or failure delay, capped at [MaxRetryDelay]; when the same
    action repeats, after the time since the last action plus that delay,
    capped likewise, which is never sooner than the first time. *)
Theorem processTask_backoff
    (_indefDelay : Z) (cfg : Config) (action : TaskAction)
    (lastAction : option TaskAction) (sinceLast : Z) (success : bool) :
  action ≠ NoAction -> action ≠ UntrackAction ->
  (0 <= sinceLast)%Z ->
  (0 <= retryDelay cfg success)%Z ->
  (sinceLast + retryDelay cfg success < _indefDelay)%Z ->
  (_indefDelay < 2 ^ 63)%Z ->
  let first :=
    processTaskDeadline _indefDelay cfg action None sinceLast success in
  let again :=
    processTaskDeadline _indefDelay cfg action (Some action) sinceLast
                        success in
  (lastAction ≠ Some action ->
   processTaskDeadline _indefDelay cfg action lastAction sinceLast success
   = first)
  /\ first = Some (Z.min (retryDelay cfg success) (MaxRetryDelay cfg))
  /\ again = Some (Z.min (sinceLast + retryDelay cfg success)
                         (MaxRetryDelay cfg))
  /\ (forall d1 d2, first = Some d1 -> again = Some d2 -> (d1 <= d2)%Z).
Proof.
  intros Hno Hun Hsince Hretry Hsum Hindef first again.
  assert (Hgate : bool_decide (action = NoAction)
                  || bool_decide (action = UntrackAction) = false).
  { by rewrite (bool_decide_eq_false_2 _ Hno),
               (bool_decide_eq_false_2 _ Hun). }
  assert (Hfirst : forall last, last ≠ Some action ->
            processTaskDeadline _indefDelay cfg action last sinceLast success
            = Some (Z.min (retryDelay cfg success) (MaxRetryDelay cfg))).
  { intros last Hlast. unfold processTaskDeadline, processTaskDelay.
    rewrite Hgate.
    rewrite (bool_decide_eq_true_2 (Some action ≠ last))
      by (intros H; apply Hlast; by symmetry).
    rewrite bool_decide_eq_true_2 by lia.
    f_equal. destruct (Z.gtb_spec (retryDelay cfg success)
                                  (MaxRetryDelay cfg)); lia. }
  assert (Hagain : again = Some (Z.min (sinceLast + retryDelay cfg success)
                                       (MaxRetryDelay cfg))).
  { unfold again, processTaskDeadline, processTaskDelay. rewrite Hgate.
    rewrite (bool_decide_eq_false_2 (Some action ≠ Some action))
      by (intros H; by apply H).
    rewrite wrap64_small by lia.
    rewrite bool_decide_eq_true_2 by lia.
    f_equal. destruct (Z.gtb_spec (sinceLast + retryDelay cfg success)
                                  (MaxRetryDelay cfg)); lia. }
  split; [|split; [|split]].
  - intros Hlast. unfold first. by rewrite !Hfirst.
  - unfold first. by apply Hfirst.
  - exact Hagain.
  - intros d1 d2. unfold first. rewrite Hfirst by discriminate.
    rewrite Hagain. intros [= <-] [= <-]. lia.
Qed.

(** X18. A task that is at its goal is left in peace.  When the current
    and the goal configuration versions agree and the current state equals
    the goal state, the suggested action is the no-op or untrack, never a
    start, a stop or a switch of version; and with agreeing versions a stop
    is suggested only for goal KILLED. *)
Theorem suggestTaskAction_at_goal
    (UnknownVersion : N) (isTerminal : TaskState -> bool) (t : Task) :
  ConfigVersion (CurrentState t) = ConfigVersion (GoalState t) ->
  (State_ (CurrentState t) = State_ (GoalState t) ->
   suggestTaskAction UnknownVersion isTerminal t = NoAction
   \/ suggestTaskAction UnknownVersion isTerminal t = UntrackAction)
  /\ suggestTaskAction UnknownVersion isTerminal t ≠ UseGoalVersionAction
  /\ (suggestTaskAction UnknownVersion isTerminal t = StopAction ->
      State_ (GoalState t) = TaskState_KILLED).
Proof.
  intros Hver. unfold suggestTaskAction.
  apply N.eqb_eq in Hver. rewrite Hver. simpl.
  destruct t as [[cur cv] [goal gv]]. simpl. clear Hver.
  split; [|split].
  - intros ->. destruct goal; simpl; auto.
  - destruct goal; destruct cur; simpl; discriminate.
  - destruct goal; destruct cur; simpl; try discriminate; reflexivity.
Qed.

End TaskEngineFacts.

(** * Properties of the CQL statement helpers *)

Section CQLFacts.
Import CQL.

Lemma countChar_app (c : Ascii.ascii) (s1 s2 : string) :
  countChar c (s1 ++ s2) = (countChar c s1 + countChar c s2)%nat.
Proof.
  induction s1 as [|c' s1 IH]; simpl; [reflexivity|].
  rewrite IH. lia.
Qed.

Lemma countChar_Join (c : Ascii.ascii) (sep : string) (elems : list string) :
  countChar c sep = 0%nat ->
  countChar c (Join elems sep)
  = foldr (fun s n => (countChar c s + n)%nat) 0%nat elems.
Proof.
  intros Hsep. unfold Join.
  induction elems as [|s elems IH]; [reflexivity|].
  destruct elems as [|s' elems].
  - simpl. lia.
  - change (String.concat sep (s :: s' :: elems))
      with (s ++ sep ++ String.concat sep (s' :: elems)).
    rewrite !countChar_app, Hsep, IH. simpl. lia.
Qed.

(** X19. The placeholder list of an insert statement has as many question
    marks as there are values, whatever the values are, provided the
    separator holds none; for no values it is the empty string. *)
Theorem questionMarkFunc_one_placeholder_per_value
    {A : Type} (qs : list A) (sep : string) :
  countChar questionMark sep = 0%nat ->
  countChar questionMark (questionMarkFunc qs sep) = length qs
  /\ (qs = [] -> questionMarkFunc qs sep = "").
Proof.
  intros Hsep. split.
  - unfold questionMarkFunc. rewrite countChar_Join by exact Hsep.
    induction qs as [|q qs IH]; [reflexivity|]. simpl. by rewrite IH.
  - intros ->. reflexivity.
Qed.

(** X20. The condition list has one placeholder per condition: when
    neither the column names nor the separator hold a question mark, the
    number of question marks of [conditionsFunc] is the number of
    conditions. *)
Theorem conditionsFunc_one_placeholder_per_condition
    (conds : list string) (sep : string) :
  countChar questionMark sep = 0%nat ->
  Forall (fun cond => countChar questionMark cond = 0%nat) conds ->
  countChar questionMark (conditionsFunc conds sep) = length conds.
Proof.
  intros Hsep Hconds. unfold conditionsFunc.
  rewrite countChar_Join by exact Hsep.
  induction Hconds as [|cond conds Hcond _ IH]; [reflexivity|].
  simpl. rewrite IH, countChar_app, Hcond. reflexivity.
Qed.

Lemma string_app_nil_r (s : string) : s ++ "" = s.
Proof.
  induction s as [|c s IH]; [reflexivity|].
  change (String c (s ++ "") = String c s). by rewrite IH.
Qed.

Lemma string_app_assoc (s1 s2 s3 : string) :
  (s1 ++ s2) ++ s3 = s1 ++ (s2 ++ s3).
Proof.
  induction s1 as [|c s1 IH]; [reflexivity|].
  change (String c ((s1 ++ s2) ++ s3) = String c (s1 ++ (s2 ++ s3))).
  by rewrite IH.
Qed.

Lemma concat_empty_cons (x : string) (xs : list string) :
  String.concat "" (x :: xs) = x ++ String.concat "" xs.
Proof.
  destruct xs as [|y xs]; [|reflexivity].
  change (String.concat "" [x]) with x. symmetry. apply string_app_nil_r.
Qed.

Lemma Join_cons_prefixed (f : string -> string) (sep : string)
    (cond : string) (rest : list string) :
  Join (map f (cond :: rest)) sep
  = f cond ++ String.concat "" (map (fun cond' => sep ++ f cond') rest).
Proof.
  unfold Join. revert cond.
  induction rest as [|cond' rest IH]; intros cond.
  - change (f cond = f cond ++ ""). symmetry. apply string_app_nil_r.
  - change (String.concat sep (map f (cond :: cond' :: rest)))
      with (f cond ++ sep ++ String.concat sep (map f (cond' :: rest))).
    rewrite IH. cbn [map]. rewrite concat_empty_cons.
    by rewrite string_app_assoc.
Qed.

(** X21. The where clause of a select or update statement is empty exactly
    when there is no condition; otherwise it is [" WHERE "], the first
    condition and one [" AND "] in front of each further condition. *)
Theorem whereClause_shape (conds : list string) :
  (whereClause conds = "" <-> conds = [])
  /\ (forall cond rest,
        conds = cond :: rest ->
        whereClause conds
        = " WHERE " ++ cond ++ "=?"
          ++ String.concat ""
               (map (fun cond' => " AND " ++ cond' ++ "=?") rest)).
Proof.
  split.
  - split.
    + destruct conds; [reflexivity | discriminate].
    + intros ->. reflexivity.
  - intros cond rest ->. unfold whereClause, conditionsFunc.
    rewrite (Join_cons_prefixed (fun cond => cond ++ "=?") " AND ").
    change (whereFunc (cond :: rest)) with " WHERE ".
    by rewrite string_app_assoc.
Qed.

End CQLFacts.

(** * Properties of the task store *)

Section StoreFacts.
Import CassandraStore.

Variable TaskInfo : Type.
Variable nilTask : TaskInfo.
Variable StoreError : Type.
Variable GetJobConfig_InstanceCount : string -> StoreError + Z.
Variable GetTaskByID : string -> StoreError + TaskInfo.
Variable jobID : string.

Local Open Scope Z_scope.

Lemma rangeLoop_ok (fuel : nat) (i : Z) (acc m : gmap Z TaskInfo) :
  rangeLoop GetTaskByID jobID fuel i acc = inr m ->
  forall j,
    (i <= j < i + Z.of_nat fuel ->
     exists t, GetTaskByID (taskIDFmt jobID j) = inr t /\ m !! j = Some t)
    /\ (~ (i <= j < i + Z.of_nat fuel) -> m !! j = acc !! j).
Proof.
  revert i acc. induction fuel as [|fuel IH]; intros i acc Hrun j.
  - simpl in Hrun. injection Hrun as <-. split; [lia | reflexivity].
  - cbn [rangeLoop] in Hrun.
    destruct (GetTaskByID (taskIDFmt jobID i)) as [err|t] eqn:Hfetch;
      [discriminate|].
    destruct (IH (i + 1) (<[i := t]> acc) Hrun j) as [Hin Hout].
    destruct (IH (i + 1) (<[i := t]> acc) Hrun i) as [_ Houti].
    split.
    + intros Hj. destruct (decide (j = i)) as [->|Hne].
      * exists t. split; [exact Hfetch|].
        rewrite Houti by lia. apply lookup_insert_eq.
      * apply Hin. lia.
    + intros Hj. rewrite Hout by lia. apply lookup_insert_ne. lia.
Qed.

Lemma rangeLoop_err (fuel : nat) (i : Z) (acc : gmap Z TaskInfo)
    (err : StoreError) :
  rangeLoop GetTaskByID jobID fuel i acc = inl err ->
  exists j,
    i <= j < i + Z.of_nat fuel
    /\ GetTaskByID (taskIDFmt jobID j) = inl err
    /\ forall j', i <= j' < j ->
                  exists t, GetTaskByID (taskIDFmt jobID j') = inr t.
Proof.
  revert i acc. induction fuel as [|fuel IH]; intros i acc Hrun.
  - discriminate.
  - cbn [rangeLoop] in Hrun.
    destruct (GetTaskByID (taskIDFmt jobID i)) as [err'|t] eqn:Hfetch.
    + injection Hrun as ->. exists i. split; [lia|]. split; [exact Hfetch|].
      intros j' Hj'. lia.
    + destruct (IH (i + 1) _ Hrun) as (j & Hj & Hfail & Hbefore).
      exists j. split; [lia|]. split; [exact Hfail|].
      intros j' Hj'. destruct (decide (j' = i)) as [->|Hne]; [eauto|].
      apply Hbefore. lia.
Qed.

(** X22. [GetTasksForJobByRange] reads the instances [From <= i < To], the
    upper end excluded.  On success the map holds exactly these instances,
    each with the task read for its ID; it fails with the error of the first
    instance that cannot be read; and an empty range succeeds with an empty
    map. *)
Theorem GetTasksForJobByRange_reads_half_open_range (From To : Z) :
  (forall m,
     GetTasksForJobByRange GetTaskByID jobID From To = inr m ->
     forall j,
       (From <= j < To ->
        exists t, GetTaskByID (taskIDFmt jobID j) = inr t
                  /\ m !! j = Some t)
       /\ (~ (From <= j < To) -> m !! j = None))
  /\ (forall err,
        GetTasksForJobByRange GetTaskByID jobID From To = inl err ->
        exists j,
          From <= j < To
          /\ GetTaskByID (taskIDFmt jobID j) = inl err
          /\ forall j', From <= j' < j ->
                        exists t, GetTaskByID (taskIDFmt jobID j') = inr t)
  /\ (To <= From ->
      GetTasksForJobByRange GetTaskByID jobID From To = inr ∅).
Proof.
  unfold GetTasksForJobByRange. split; [|split].
  - intros m Hrun j. destruct (rangeLoop_ok _ _ _ _ Hrun j) as [Hin Hout].
    split.
    + intros Hj. apply Hin. lia.
    + intros Hj. rewrite Hout by lia. apply lookup_empty.
  - intros err Hrun.
    destruct (rangeLoop_err _ _ _ _ Hrun) as (j & Hj & Hfail & Hbefore).
    exists j. split; [lia|]. split; [exact Hfail | exact Hbefore].
  - intros Hle. replace (Z.to_nat (To - From)) with 0%nat by lia.
    reflexivity.
Qed.

Lemma collect_spec (tasks : gmap Z TaskInfo) (fuel : nat) (i : Z) :
  length (collect nilTask tasks fuel i) = fuel
  /\ forall k : nat,
       (k < fuel)%nat ->
       collect nilTask tasks fuel i !! k
       = Some (default nilTask (tasks !! (i + Z.of_nat k))).
Proof.
  revert i. induction fuel as [|fuel IH]; intros i.
  - split; [reflexivity|]. intros k Hk. lia.
  - destruct (IH (i + 1)) as [Hlen Hnth]. split.
    + simpl. by rewrite Hlen.
    + intros [|k] Hk; simpl.
      * by rewrite Z.add_0_r.
      * rewrite Hnth by lia. do 3 f_equal. lia.
Qed.

Lemma wrap32_pred (z : Z) : wrap32 (wrap32 z - 1) = wrap32 (z - 1).
Proof. unfold wrap32. by rewrite Zminus_mod_idemp_l. Qed.

(** X23. [QueryTasks] fails when the job configuration cannot be read, and
    with "offset larger than job instances" when the offset is not below
    the instance count, in particular for every offset on a job without
    instances; no task is read then. *)
Theorem QueryTasks_rejects_offset_beyond_instances (offset limit : Z) :
  (forall err,
     GetJobConfig_InstanceCount jobID = inl err ->
     QueryTasks nilTask GetJobConfig_InstanceCount GetTaskByID jobID
                offset limit = inl (FromStore err))
  /\ (forall InstanceCount,
        GetJobConfig_InstanceCount jobID = inr InstanceCount ->
        InstanceCount <= offset ->
        QueryTasks nilTask GetJobConfig_InstanceCount GetTaskByID jobID
                   offset limit
        = inl (ErrorsNew "offset larger than job instances")).
Proof.
  unfold QueryTasks. split.
  - intros err ->. reflexivity.
  - intros InstanceCount -> Hle.
    destruct (Z.geb_spec offset InstanceCount); [reflexivity | lia].
Qed.

(** X24. The window [QueryTasks] returns.  For an offset below the
    instance count, a successful call returns the tasks of the instances
    [offset <= i < end] in order, where [end] is the smaller of
    [offset + limit - 1] (in [uint32] arithmetic) and [InstanceCount - 1],
    each being the task read for that instance, and the returned count is
    the length of the list.  So the last instance of a job is never
    returned.  A limit [n >= 1] with [offset + n <= 2 ^ 32] gives the
    smaller of [n - 1] and [InstanceCount - 1 - offset] tasks; when
    [offset + n] exceeds [2 ^ 32] the [uint32] sum wraps around below the
    offset and no task is returned.  Limit 0 at offset 0 gives all tasks
    but the last. *)
Theorem QueryTasks_window
    (offset limit InstanceCount : Z) (result : list TaskInfo) (n : Z) :
  GetJobConfig_InstanceCount jobID = inr InstanceCount ->
  isUint32 offset -> isUint32 limit -> isUint32 InstanceCount ->
  offset < InstanceCount ->
  QueryTasks nilTask GetJobConfig_InstanceCount GetTaskByID jobID
             offset limit = inr (result, n) ->
  let end_ := Z.min (wrap32 (offset + limit - 1)) (InstanceCount - 1) in
  n = Z.of_nat (length result)
  /\ Z.of_nat (length result) = Z.max 0 (end_ - offset)
  /\ (forall (k : nat) t,
        result !! k = Some t ->
        GetTaskByID (taskIDFmt jobID (offset + Z.of_nat k)) = inr t
        /\ offset + Z.of_nat k < InstanceCount - 1)
  /\ (1 <= limit -> offset + limit <= 2 ^ 32 ->
      Z.of_nat (length result)
      = Z.min (limit - 1) (InstanceCount - 1 - offset))
  /\ (2 ^ 32 < offset + limit -> result = [])
  /\ (limit = 0 -> offset = 0 ->
      Z.of_nat (length result) = InstanceCount - 1).
Proof.
  intros Hcfg Hoff Hlim Hcnt Hlt Hrun end_.
  unfold isUint32 in *. unfold QueryTasks in Hrun. rewrite Hcfg in Hrun.
  destruct (Z.geb_spec offset InstanceCount) as [?|_]; [lia|].
  rewrite wrap32_pred in Hrun.
  assert (Hc1 : wrap32 (InstanceCount - 1) = InstanceCount - 1).
  { unfold wrap32. apply Z.mod_small. lia. }
  rewrite Hc1 in Hrun.
  assert (Hend : (if (wrap32 (offset + limit - 1) >? InstanceCount - 1)
                  then InstanceCount - 1
                  else wrap32 (offset + limit - 1)) = end_).
  { unfold end_.
    destruct (Z.gtb_spec (wrap32 (offset + limit - 1)) (InstanceCount - 1));
      lia. }
  rewrite Hend in Hrun.
  assert (Hw : 0 <= wrap32 (offset + limit - 1) < 2 ^ 32).
  { unfold wrap32. apply Z.mod_pos_bound. lia. }
  destruct (GetTasksForJobByRange GetTaskByID jobID offset end_)
    as [err|tasks] eqn:Hrange; [discriminate|].
  injection Hrun as <- <-.
  destruct (collect_spec tasks (Z.to_nat (end_ - offset)) offset)
    as [Hlen Hnth].
  assert (Hlen' : Z.of_nat (length (collect nilTask tasks
                                      (Z.to_nat (end_ - offset)) offset))
                  = Z.max 0 (end_ - offset)) by (rewrite Hlen; lia).
  split; [|split; [|split; [|split; [|split]]]].
  - unfold wrap32. apply Z.mod_small. rewrite Hlen'. lia.
  - exact Hlen'.
  - intros k t Hk.
    assert (Hklt : (k < Z.to_nat (end_ - offset))%nat).
    { rewrite <- Hlen. by apply lookup_lt_Some in Hk. }
    rewrite Hnth in Hk by exact Hklt. injection Hk as <-.
    unfold GetTasksForJobByRange in Hrange.
    destruct (rangeLoop_ok _ _ _ _ Hrange (offset + Z.of_nat k))
      as [Hin _].
    destruct Hin as (t & Hfetch & ->); [lia|].
    split; [exact Hfetch | lia].
  - intros H1 H2. rewrite Hlen'.
    assert (wrap32 (offset + limit - 1) = offset + limit - 1) as Hsmall.
    { unfold wrap32. apply Z.mod_small. lia. }
    unfold end_. rewrite Hsmall. lia.
  - intros Hover. apply length_zero_iff_nil. rewrite Hlen.
    assert (wrap32 (offset + limit - 1) = offset + limit - 1 - 2 ^ 32)
      as Hwrapped.
    { unfold wrap32. symmetry. apply (Z.mod_unique _ _ 1); lia. }
    unfold end_. rewrite Hwrapped. lia.
  - intros -> ->. rewrite Hlen'. unfold end_.
    change (wrap32 (0 + 0 - 1)) with (2 ^ 32 - 1). lia.
Qed.

End StoreFacts.

Section BatchFacts.
Import CassandraStore.

Local Open Scope Z_scope.

Lemma store_wrap64_small (z : Z) :
  - 2 ^ 63 <= z < 2 ^ 63 -> wrap64 z = z.
Proof.
  intros Hz. unfold wrap64. rewrite Z.mod_small by lia. lia.
Qed.

Lemma batchBounds_full (maxBatchSize nTasks batch : Z) :
  0 < maxBatchSize -> 0 <= batch ->
  (batch + 1) * maxBatchSize <= nTasks -> nTasks <= MaxInt64 ->
  batchBounds maxBatchSize nTasks batch
  = Some (batch * maxBatchSize, (batch + 1) * maxBatchSize).
Proof.
  intros Hmax Hb Hfull Hn. unfold MaxInt64 in Hn. unfold batchBounds.
  assert (0 <= batch * maxBatchSize) by nia.
  assert (batch + 1 <= (batch + 1) * maxBatchSize) by nia.
  assert (batch * maxBatchSize <= (batch + 1) * maxBatchSize) by nia.
  rewrite (store_wrap64_small (batch + 1)) by lia.
  rewrite (store_wrap64_small (batch * maxBatchSize)) by lia.
  rewrite (store_wrap64_small ((batch + 1) * maxBatchSize)) by lia.
  destruct (Z.geb_spec nTasks ((batch + 1) * maxBatchSize)); [|lia].
  rewrite store_wrap64_small by lia.
  destruct (Z.ltb_spec ((batch + 1) * maxBatchSize - batch * maxBatchSize) 1);
    [nia | reflexivity].
Qed.

Lemma batchBounds_last (maxBatchSize nTasks : Z) :
  0 < maxBatchSize -> 0 <= nTasks ->
  (nTasks / maxBatchSize + 1) * maxBatchSize <= MaxInt64 ->
  batchBounds maxBatchSize nTasks (nTasks / maxBatchSize)
  = if nTasks mod maxBatchSize =? 0 then None
    else Some (nTasks / maxBatchSize * maxBatchSize, nTasks).
Proof.
  intros Hmax Hn Hbound. unfold MaxInt64 in Hbound. unfold batchBounds.
  set (q := nTasks / maxBatchSize) in *.
  assert (Hq : 0 <= q) by (apply Z.div_pos; lia).
  pose proof (Z.div_mod nTasks maxBatchSize ltac:(lia)) as Hdm. fold q in Hdm.
  pose proof (Z.mod_pos_bound nTasks maxBatchSize Hmax) as Hr.
  assert (Hqm : q * maxBatchSize = nTasks - nTasks mod maxBatchSize) by lia.
  assert (Hnext : (q + 1) * maxBatchSize
                  = nTasks - nTasks mod maxBatchSize + maxBatchSize) by lia.
  assert (q + 1 <= (q + 1) * maxBatchSize) by nia.
  rewrite (store_wrap64_small (q + 1)) by lia.
  rewrite (store_wrap64_small (q * maxBatchSize)) by lia.
  rewrite (store_wrap64_small ((q + 1) * maxBatchSize)) by lia.
  destruct (Z.geb_spec nTasks ((q + 1) * maxBatchSize)); [lia|].
  rewrite store_wrap64_small by lia.
  replace (nTasks - q * maxBatchSize) with (nTasks mod maxBatchSize) by lia.
  destruct (Z.eqb_spec (nTasks mod maxBatchSize) 0) as [->|Hne].
  - reflexivity.
  - destruct (Z.ltb_spec (nTasks mod maxBatchSize) 1); [lia | reflexivity].
Qed.

Lemma batchLoop_formula (maxBatchSize nTasks : Z) (fuel b : nat) :
  0 < maxBatchSize -> 0 <= nTasks ->
  (nTasks / maxBatchSize + 1) * maxBatchSize <= MaxInt64 ->
  (b + fuel = Z.to_nat (nTasks / maxBatchSize))%nat ->
  batchLoop maxBatchSize nTasks (S fuel) (Z.of_nat b)
  = (map (fun k : nat => (Z.of_nat k * maxBatchSize,
                           (Z.of_nat k + 1) * maxBatchSize))
         (seq b fuel)
     ++ (if nTasks mod maxBatchSize =? 0 then []
         else [(nTasks / maxBatchSize * maxBatchSize, nTasks)]))%list.
Proof.
  intros Hmax Hn Hbound. revert b.
  assert (Hq : 0 <= nTasks / maxBatchSize) by (apply Z.div_pos; lia).
  assert (Hqn : nTasks / maxBatchSize * maxBatchSize <= nTasks).
  { rewrite Z.mul_comm. apply Z.mul_div_le. lia. }
  assert (HnMax : nTasks <= MaxInt64).
  { pose proof (Z.div_mod nTasks maxBatchSize ltac:(lia)).
    pose proof (Z.mod_pos_bound nTasks maxBatchSize Hmax). nia. }
  induction fuel as [|fuel IH]; intros b Hsum.
  - assert (Hb : Z.of_nat b = nTasks / maxBatchSize) by lia.
    cbn [batchLoop]. rewrite Hb, batchBounds_last by assumption.
    simpl. by destruct (nTasks mod maxBatchSize =? 0).
  - assert (Hnext : wrap64 (Z.of_nat b + 1) = Z.of_nat (S b)).
    { rewrite store_wrap64_small; [lia|]. unfold MaxInt64 in *. nia. }
    change (batchLoop maxBatchSize nTasks (S (S fuel)) (Z.of_nat b))
      with (match batchBounds maxBatchSize nTasks (Z.of_nat b) with
            | Some bd =>
                bd :: batchLoop maxBatchSize nTasks (S fuel)
                        (wrap64 (Z.of_nat b + 1))
            | None =>
                batchLoop maxBatchSize nTasks (S fuel)
                  (wrap64 (Z.of_nat b + 1))
            end).
    rewrite Hnext.
    rewrite batchBounds_full; [| lia | lia | | exact HnMax].
    + rewrite IH by lia. reflexivity.
    + assert (Z.of_nat b + 1 <= nTasks / maxBatchSize) by lia. nia.
Qed.

Lemma createTasksBatches_formula (MaxBatchSize nTasks : Z) :
  0 <= MaxBatchSize -> 0 <= nTasks ->
  let maxBatchSize := if MaxBatchSize =? 0 then MaxInt64 else MaxBatchSize in
  (nTasks / maxBatchSize + 1) * maxBatchSize <= MaxInt64 ->
  createTasksBatches MaxBatchSize nTasks
  = (map (fun k : nat => (Z.of_nat k * maxBatchSize,
                           (Z.of_nat k + 1) * maxBatchSize))
         (seq 0 (Z.to_nat (nTasks / maxBatchSize)))
     ++ (if nTasks mod maxBatchSize =? 0 then []
         else [(nTasks / maxBatchSize * maxBatchSize, nTasks)]))%list.
Proof.
  intros HM Hn maxBatchSize Hbound. unfold createTasksBatches.
  fold maxBatchSize.
  assert (Hmax : 0 < maxBatchSize).
  { unfold maxBatchSize, MaxInt64.
    destruct (Z.eqb_spec MaxBatchSize 0); lia. }
  assert (Hq : 0 <= nTasks / maxBatchSize) by (apply Z.div_pos; lia).
  rewrite Z.quot_div_nonneg by lia.
  rewrite store_wrap64_small by (unfold MaxInt64 in *; nia).
  change 0 with (Z.of_nat 0) at 1.
  replace (Z.to_nat (nTasks / maxBatchSize + 1))
    with (S (Z.to_nat (nTasks / maxBatchSize))) by lia.
  by rewrite (batchLoop_formula maxBatchSize nTasks
                (Z.to_nat (nTasks / maxBatchSize)) 0 Hmax Hn Hbound)
    by lia.
Qed.

Lemma createTasksBatches_elem (MaxBatchSize nTasks : Z) (s e : Z) :
  0 <= MaxBatchSize -> 0 <= nTasks ->
  let maxBatchSize := if MaxBatchSize =? 0 then MaxInt64 else MaxBatchSize in
  (nTasks / maxBatchSize + 1) * maxBatchSize <= MaxInt64 ->
  (s, e) ∈ createTasksBatches MaxBatchSize nTasks <->
  (exists k, 0 <= k < nTasks / maxBatchSize
             /\ s = k * maxBatchSize /\ e = (k + 1) * maxBatchSize)
  \/ (nTasks mod maxBatchSize <> 0
      /\ s = nTasks / maxBatchSize * maxBatchSize /\ e = nTasks).
Proof.
  intros HM Hn maxBatchSize Hbound.
  rewrite (createTasksBatches_formula MaxBatchSize nTasks HM Hn Hbound).
  fold maxBatchSize. rewrite list_elem_of_In, in_app_iff, in_map_iff.
  split.
  - intros [(k & Hk & Hin)|Hin].
    + left. apply in_seq in Hin. injection Hk as <- <-.
      exists (Z.of_nat k). split; [lia | by split].
    + right. destruct (Z.eqb_spec (nTasks mod maxBatchSize) 0) as [_|Hne];
        [destruct Hin|].
      destruct Hin as [Hin|[]]. injection Hin as <- <-. by repeat split.
  - intros [(k & Hk & -> & ->)|(Hne & -> & ->)].
    + left. exists (Z.to_nat k). split.
      * by rewrite Z2Nat.id by lia.
      * apply in_seq. lia.
    + right. destruct (Z.eqb_spec (nTasks mod maxBatchSize) 0) as [?|_];
        [contradiction|]. by left.
Qed.

(** X25. The batches of [CreateTasks] partition the tasks.  For a
    non-negative [MaxBatchSize] (0 standing for "no limit") and within the
    [int64] range, every batch is a non-empty range of instances of at most
    [MaxBatchSize] tasks, and every instance [0 <= i < nTasks] lies in
    exactly one batch.  With [MaxBatchSize = 0] all tasks go into a single
    batch. *)
Theorem CreateTasks_batches_partition (MaxBatchSize nTasks : Z) :
  0 <= MaxBatchSize -> 0 <= nTasks ->
  let maxBatchSize := if MaxBatchSize =? 0 then MaxInt64 else MaxBatchSize in
  (nTasks / maxBatchSize + 1) * maxBatchSize <= MaxInt64 ->
  let batches := createTasksBatches MaxBatchSize nTasks in
  (forall s e, (s, e) ∈ batches ->
               0 <= s < e /\ e <= nTasks /\ e - s <= maxBatchSize)
  /\ (forall i, 0 <= i < nTasks ->
        exists s e,
          (s, e) ∈ batches /\ s <= i < e
          /\ forall s' e', (s', e') ∈ batches -> s' <= i < e' ->
                           s' = s /\ e' = e)
  /\ (MaxBatchSize = 0 -> 0 < nTasks -> batches = [(0, nTasks)]).
Proof.
  intros HM Hn maxBatchSize Hbound batches.
  assert (Hmax : 0 < maxBatchSize).
  { unfold maxBatchSize, MaxInt64.
    destruct (Z.eqb_spec MaxBatchSize 0); lia. }
  pose proof (Z.div_mod nTasks maxBatchSize ltac:(lia)) as Hdm.
  pose proof (Z.mod_pos_bound nTasks maxBatchSize Hmax) as Hr.
  assert (Hq : 0 <= nTasks / maxBatchSize) by (apply Z.div_pos; lia).
  set (q := nTasks / maxBatchSize) in *.
  set (r := nTasks mod maxBatchSize) in *.
  assert (Helem : forall s e, (s, e) ∈ batches <->
            (exists k, 0 <= k < q
                       /\ s = k * maxBatchSize /\ e = (k + 1) * maxBatchSize)
            \/ (r <> 0 /\ s = q * maxBatchSize /\ e = nTasks)).
  { intros s e. apply (createTasksBatches_elem MaxBatchSize nTasks s e HM Hn).
    exact Hbound. }
  split; [|split].
  - intros s e Hin. apply Helem in Hin as [(k & Hk & -> & ->)|(Hne & -> & ->)].
    + assert ((k + 1) * maxBatchSize <= q * maxBatchSize) by nia. nia.
    + nia.
  - intros i Hi.
    pose proof (Z.div_mod i maxBatchSize ltac:(lia)) as Hidm.
    pose proof (Z.mod_pos_bound i maxBatchSize Hmax) as Hir.
    assert (Hk0 : 0 <= i / maxBatchSize) by (apply Z.div_pos; lia).
    assert (Hkq : i / maxBatchSize <= q).
    { unfold q. apply Z.div_le_mono; lia. }
    set (k := i / maxBatchSize) in *.
    assert (Huniq : forall k', k' * maxBatchSize <= i < (k' + 1) * maxBatchSize
                               -> k' = k).
    { intros k' Hk'. unfold k.
      apply (Z.div_unique_pos i maxBatchSize k' (i - k' * maxBatchSize));
        lia. }
    destruct (decide (k < q)) as [Hlt|Hge].
    + exists (k * maxBatchSize), ((k + 1) * maxBatchSize).
      split; [apply Helem; left; exists k; by repeat split|].
      split; [lia|].
      intros s' e' Hin Hcont.
      apply Helem in Hin as [(k' & Hk' & -> & ->)|(Hne & -> & ->)].
      * rewrite (Huniq k' Hcont). by split.
      * exfalso. assert ((k + 1) * maxBatchSize <= q * maxBatchSize) by nia.
        lia.
    + assert (Hkeq : k = q) by lia.
      assert (Hrne : r <> 0) by (intros Hr0; nia).
      exists (q * maxBatchSize), nTasks.
      split; [apply Helem; right; by repeat split|].
      split; [nia|].
      intros s' e' Hin Hcont.
      apply Helem in Hin as [(k' & Hk' & -> & ->)|(Hne & -> & ->)].
      * pose proof (Huniq k' Hcont). lia.
      * by split.
  - intros HM0 Hpos. unfold batches.
    rewrite (createTasksBatches_formula MaxBatchSize nTasks HM Hn Hbound).
    fold maxBatchSize. fold q. fold r.
    assert (Hmaxeq : maxBatchSize = MaxInt64).
    { unfold maxBatchSize. by rewrite HM0. }
    assert (Hq0 : q = 0) by (unfold MaxInt64 in *; nia).
    rewrite Hq0. simpl.
    destruct (Z.eqb_spec r 0) as [Hr0|_]; [nia|]. reflexivity.
Qed.

(** X26. A negative [MaxBatchSize] makes [CreateTasks] start no batch at
    all: no task is written, however many there are. *)
Theorem CreateTasks_negative_batch_size_writes_nothing
    (MaxBatchSize nTasks : Z) :
  - 2 ^ 63 <= MaxBatchSize < 0 ->
  0 <= nTasks < 2 ^ 63 ->
  createTasksBatches MaxBatchSize nTasks = [].
Proof.
  intros HM Hn. unfold createTasksBatches.
  destruct (Z.eqb_spec MaxBatchSize 0) as [?|_]; [lia|].
  assert (Hquot : - nTasks <= Z.quot nTasks MaxBatchSize <= 0).
  { rewrite <- (Z.opp_involutive MaxBatchSize), Z.quot_opp_r by lia.
    rewrite Z.quot_div_nonneg by lia.
    assert (0 <= nTasks / - MaxBatchSize <= nTasks).
    { split; [apply Z.div_pos; lia|].
      apply Z.div_le_upper_bound; nia. }
    lia. }
  rewrite store_wrap64_small by lia.
  destruct (decide (Z.quot nTasks MaxBatchSize = 0)) as [Hq0|Hq0].
  - rewrite Hq0. change (Z.to_nat (0 + 1)) with 1%nat. cbn [batchLoop].
    unfold batchBounds.
    rewrite (store_wrap64_small (0 * MaxBatchSize)) by lia.
    rewrite (store_wrap64_small (0 + 1)) by lia.
    rewrite (store_wrap64_small ((0 + 1) * MaxBatchSize)) by lia.
    destruct (Z.geb_spec nTasks ((0 + 1) * MaxBatchSize)); [|lia].
    rewrite store_wrap64_small by lia.
    destruct (Z.ltb_spec ((0 + 1) * MaxBatchSize - 0 * MaxBatchSize) 1);
      [reflexivity | lia].
  - replace (Z.to_nat (Z.quot nTasks MaxBatchSize + 1)) with 0%nat by lia.
    reflexivity.
Qed.

(** *** Task IDs *)

Lemma pretty_N_char_not_dash (x : N) :
  Ascii.eqb dash (pretty_N_char x) = false.
Proof. unfold pretty_N_char. by repeat case_match. Qed.

Lemma pretty_N_go_dash (x : N) (s : string) :
  CQL.countChar dash (pretty_N_go x s) = CQL.countChar dash s.
Proof.
  revert s. induction (N.lt_wf_0 x) as [x _ IH]; intros s.
  destruct (decide (x = 0%N)) as [->|Hne].
  - by rewrite pretty_N_go_0.
  - rewrite pretty_N_go_step by lia.
    rewrite IH by (apply N.div_lt; lia).
    cbn [CQL.countChar]. by rewrite pretty_N_char_not_dash.
Qed.

Lemma pretty_nonneg_no_dash (i : Z) :
  0 <= i -> CQL.countChar dash (pretty i) = 0%nat.
Proof.
  intros Hi. destruct i as [|p|p]; [reflexivity| |lia].
  change (pretty (Z.pos p)) with (pretty (N.pos p)).
  unfold pretty, pretty_N.
  destruct (decide (N.pos p = 0%N)); [reflexivity|].
  by rewrite pretty_N_go_dash.
Qed.

Lemma dash_cons (p : string) : "-" ++ p = String dash p.
Proof. reflexivity. Qed.

Lemma string_cons_app (c : Ascii.ascii) (s t : string) :
  String c s ++ t = String c (s ++ t).
Proof. reflexivity. Qed.

Lemma string_nil_app (t : string) : "" ++ t = t.
Proof. reflexivity. Qed.

Lemma countChar_dash_cons (p : string) :
  CQL.countChar dash (String dash p) = S (CQL.countChar dash p).
Proof. reflexivity. Qed.

Lemma dash_split_unique (s1 s2 p1 p2 : string) :
  CQL.countChar dash p1 = 0%nat -> CQL.countChar dash p2 = 0%nat ->
  s1 ++ "-" ++ p1 = s2 ++ "-" ++ p2 -> s1 = s2 /\ p1 = p2.
Proof.
  intros Hp1 Hp2. rewrite !dash_cons. revert s2.
  induction s1 as [|c1 s1 IH]; intros [|c2 s2] Heq;
    rewrite ?string_nil_app, ?string_cons_app in Heq.
  - injection Heq as ->. by split.
  - exfalso. injection Heq as _ Hp.
    rewrite Hp, countChar_app, countChar_dash_cons in Hp1. lia.
  - exfalso. injection Heq as _ Hp.
    rewrite <- Hp, countChar_app, countChar_dash_cons in Hp2. lia.
  - injection Heq as -> Htail.
    destruct (IH s2 Htail) as [-> ->]. by split.
Qed.

(** X27. Task IDs do not collide: for instance numbers that are not
    negative, [taskIDFmt] gives the same ID only for the same job and the
    same instance, also when job IDs themselves contain dashes. *)
Theorem taskIDFmt_injective (jobID jobID' : string) (i i' : Z) :
  0 <= i -> 0 <= i' ->
  taskIDFmt jobID i = taskIDFmt jobID' i' ->
  jobID = jobID' /\ i = i'.
Proof.
  intros Hi Hi' Heq. unfold taskIDFmt in Heq.
  destruct (dash_split_unique jobID jobID' (pretty i) (pretty i')
              (pretty_nonneg_no_dash i Hi) (pretty_nonneg_no_dash i' Hi')
              Heq) as [-> Hp].
  split; [reflexivity|]. by apply (inj pretty).
Qed.

End BatchFacts.

(** * The further properties on worked inputs *)

Section MoreHostExamples.
Import HostCacheOps Fixtures MoreFixtures.
#[local] Existing Instance QScalar.

Lemma TryMatch_after_match_is_refused_witness :
  TryMatch filterNoMin placingWorld
  = (mkMatch HOST_FILTER_MISMATCH_STATUS "", placingWorld).
Proof.
  apply (TryMatch_after_match_is_refused (filterMin pod1Res) filterNoMin
           readyWorld).
  reflexivity.
Defined.

Lemma lease_calls_need_placing_witness :
  snd (CompleteLease "lease-0" newPods1 readyWorld) = readyWorld
  /\ snd (TerminateLease readyWorld) = readyWorld.
Proof.
  destruct (lease_calls_need_placing (SR := QScalar) "lease-0" newPods1
              readyWorld) as (_ & Hc & _ & Ht).
  - discriminate.
  - split; [exact Hc | exact Ht].
Defined.

Lemma CompleteLease_consumes_lease_witness :
  CompleteLease "lease-0" newPods1 podWorld
  = (Some (InvalidArgumentError "host status is not Placing"), podWorld).
Proof.
  apply (CompleteLease_consumes_lease (SR := QScalar) "lease-0" newPods1
           newPods1 placingWorld); reflexivity.
Defined.

Lemma ReleasePodResources_idempotent_witness :
  snd (ReleasePodResources "pod2" podWorld) = podWorld
  /\ snd (ReleasePodResources "pod1"
            (snd (ReleasePodResources "pod1" podWorld)))
     = snd (ReleasePodResources "pod1" podWorld).
Proof.
  destruct (ReleasePodResources_idempotent "pod2" podWorld) as [Habs _].
  destruct (ReleasePodResources_idempotent "pod1" podWorld) as [_ Hidem].
  split; [apply Habs; reflexivity | exact Hidem].
Defined.

Lemma ReleasePodResources_removes_pod_witness :
  podToResMap (host (snd (ReleasePodResources "pod1" podWorld))) !! "pod1"
  = None
  /\ allocated (host (snd (ReleasePodResources "pod1" podWorld)))
     = sumResources (delete "pod1" (podToResMap (host podWorld))).
Proof.
  destruct (ReleasePodResources_removes_pod "pod1" podWorld)
    as (Hgone & _ & Halloc & _).
  - exists pod1Res. reflexivity.
  - split; [exact Hgone | exact Halloc].
Defined.

Lemma CompleteLease_adds_pods_witness :
  podToResMap (host podWorld) !! "pod1" = Some pod1Res
  /\ allocated (host podWorld) = sumResources (podToResMap (host podWorld)).
Proof.
  destruct (CompleteLease_adds_pods (SR := QScalar) "lease-0" newPods1
              placingWorld eq_refl eq_refl eq_refl)
    as (Hnew & _ & _ & Halloc).
  split; [|exact Halloc].
  apply (Hnew "pod1" pod1Res). reflexivity.
Defined.

Lemma CompleteLease_then_release_restores_witness :
  podToResMap (host (snd (ReleasePodResources "pod1" podWorld)))
  = podToResMap (host placingWorld)
  /\ allocated (host (snd (ReleasePodResources "pod1" podWorld)))
     = sumResources (podToResMap (host placingWorld)).
Proof.
  destruct (CompleteLease_then_release_restores (SR := QScalar)
              "lease-0" "pod1" pod1Res placingWorld eq_refl eq_refl eq_refl)
    as (_ & _ & Hpods & Halloc).
  split; [exact Hpods | exact Halloc].
Defined.

Lemma exported_calls_keep_identity_witness :
  heldPodIDs (host podWorld) = ∅
  /\ capacity (host podWorld) = capacity0
  /\ getResetStatus (host podWorld) = ReadyHost.
Proof.
  destruct (exported_calls_keep_identity (SR := QScalar)
              "host1" capacity0 "v1" source0) as [_ Hreach].
  destruct (Hreach podWorld) as (_ & Hcap & _ & Hheld & Hreset).
  - exact (reach_call _ _ _ _ _ (CallCompleteLease "lease-0" newPods1)
             (reach_call _ _ _ _ _ (CallTryMatch (filterMin pod1Res))
                (reach_new _ _ _ _))).
  - split; [exact Hheld|]. split; [exact Hcap | exact Hreset].
Defined.

Lemma TerminateLease_undoes_TryMatch_witness :
  host (snd (TerminateLease placingWorld)) = host readyWorld
  /\ drawn (uuids (snd (TerminateLease placingWorld))) = 1%nat.
Proof.
  destruct (TerminateLease_undoes_TryMatch (filterMin pod1Res) readyWorld)
    as (_ & Hhost & Hdrawn); try reflexivity.
  split; [exact Hhost | exact Hdrawn].
Defined.

Lemma earlier_lease_does_not_complete_later_match_witness :
  let w3 := snd (TryMatch filterNoMin (snd (TerminateLease placingWorld))) in
  leaseID (host w3) = "lease-1"
  /\ CompleteLease "lease-0" newPods1 w3
     = (Some (InvalidArgumentError "host leaseID does not match"), w3).
Proof.
  destruct (earlier_lease_does_not_complete_later_match (SR := QScalar)
              (filterMin pod1Res) filterNoMin newPods1 readyWorld)
    as (_ & Hl3 & Hrej); try reflexivity.
  - vm_compute. discriminate.
  - split; [exact Hl3 | exact Hrej].
Defined.

End MoreHostExamples.

Section MoreEngineExamples.
Import JobGoalState JobEntity.

Lemma suggested_job_action_has_executor_witness :
  _jobActionsMaps
    (suggestJobAction (mkJobStateVector JobState_SUCCEEDED 1)
                      (mkJobStateVector JobState_RUNNING 2))
  = Some JobStart.
Proof.
  destruct (suggested_job_action_has_executor
              (mkJobStateVector JobState_SUCCEEDED 1)
              (mkJobStateVector JobState_RUNNING 2)) as [f Hf].
  - discriminate.
  - rewrite Hf. vm_compute in Hf. by symmetry.
Defined.

Lemma GetActionList_unknown_state_enqueues_witness :
  GetActionList (mkJobStateVector JobState_RUNNING 1)
                (mkJobStateVector JobState_UNKNOWN 1)
  = [ mkAction "enqueue" JobEnqueue ].
Proof.
  apply GetActionList_unknown_state_enqueues. right. reflexivity.
Defined.

Lemma GetActionList_known_states_witness :
  GetActionList (mkJobStateVector JobState_SUCCEEDED 1)
                (mkJobStateVector JobState_KILLED 1)
  = [ mkAction "untrack" JobUntrack ]
  /\ GetActionList (mkJobStateVector JobState_RUNNING 1)
                   (mkJobStateVector JobState_RUNNING 1)
     = alwaysRun.
Proof.
  split.
  - destruct (GetActionList_known_states
                (mkJobStateVector JobState_SUCCEEDED 1)
                (mkJobStateVector JobState_KILLED 1)) as (Hun & _);
      [discriminate | discriminate |].
    apply Hun. reflexivity.
  - destruct (GetActionList_known_states
                (mkJobStateVector JobState_RUNNING 1)
                (mkJobStateVector JobState_RUNNING 1)) as (_ & _ & Hno & _);
      [discriminate | discriminate |].
    apply Hno. reflexivity.
Defined.

Lemma suggestJobAction_restraint_witness :
  State (mkJobStateVector JobState_KILLED 1) = JobState_KILLED.
Proof.
  destruct (suggestJobAction_restraint
              (mkJobStateVector JobState_RUNNING 1)
              (mkJobStateVector JobState_KILLED 1)) as (Hkill & _).
  apply Hkill. reflexivity.
Defined.

End MoreEngineExamples.

Section MoreTaskExamples.
Import TaskGoalState TaskEngine MoreFixtures.

Lemma processTask_deadline_bounds_witness :
  processTaskDeadline (2 ^ 63 - 1) engineConfig UntrackAction
                      (Some StartAction) 100 true = None
  /\ processTaskDeadline (2 ^ 63 - 1) engineConfig StartAction
                         (Some StartAction) 100 false = Some 60%Z
  /\ (60 <= MaxRetryDelay engineConfig)%Z.
Proof.
  split; [|split; [reflexivity|]].
  - apply (processTask_deadline_bounds (2 ^ 63 - 1) engineConfig
             UntrackAction (Some StartAction) 100 true).
    right. reflexivity.
  - apply (processTask_deadline_bounds (2 ^ 63 - 1) engineConfig
             StartAction (Some StartAction) 100 false).
    reflexivity.
Defined.

Lemma processTask_backoff_witness :
  processTaskDeadline (2 ^ 63 - 1) engineConfig StartAction None 20 false
  = Some 10%Z
  /\ processTaskDeadline (2 ^ 63 - 1) engineConfig StartAction
                         (Some StartAction) 20 false
     = Some 30%Z.
Proof.
  destruct (processTask_backoff (2 ^ 63 - 1) engineConfig StartAction None
              20 false) as (_ & Hfirst & Hagain & _);
    try discriminate; try (simpl; lia).
  split; [exact Hfirst | exact Hagain].
Defined.

Lemma suggestTaskAction_at_goal_witness :
  suggestTaskAction MaxUint64 IsPelotonStateTerminal
    (mkTask (mkState TaskState_RUNNING 3) (mkState TaskState_RUNNING 3))
  = NoAction
  \/ suggestTaskAction MaxUint64 IsPelotonStateTerminal
       (mkTask (mkState TaskState_RUNNING 3) (mkState TaskState_RUNNING 3))
     = UntrackAction.
Proof.
  destruct (suggestTaskAction_at_goal MaxUint64 IsPelotonStateTerminal
              (mkTask (mkState TaskState_RUNNING 3)
                      (mkState TaskState_RUNNING 3)) eq_refl)
    as (Hconv & _).
  apply Hconv. reflexivity.
Defined.

End MoreTaskExamples.

Section MoreStoreExamples.
Import CQL CassandraStore MoreFixtures.

Local Open Scope Z_scope.

Lemma questionMarkFunc_one_placeholder_per_value_witness :
  countChar questionMark (questionMarkFunc [1; 2; 3] ", ") = 3%nat.
Proof.
  apply (questionMarkFunc_one_placeholder_per_value [1; 2; 3] ", ").
  reflexivity.
Defined.

Lemma conditionsFunc_one_placeholder_per_condition_witness :
  countChar questionMark (conditionsFunc ["JobID"; "TaskState"] " AND ")
  = 2%nat.
Proof.
  apply (conditionsFunc_one_placeholder_per_condition
           ["JobID"; "TaskState"] " AND ").
  - reflexivity.
  - repeat constructor.
Defined.

Lemma whereClause_shape_witness :
  whereClause ["JobID"; "TaskState"]
  = " WHERE JobID=? AND TaskState=?".
Proof.
  destruct (whereClause_shape ["JobID"; "TaskState"]) as [_ Hshape].
  rewrite (Hshape "JobID" ["TaskState"] eq_refl). reflexivity.
Defined.

Lemma GetTasksForJobByRange_reads_half_open_range_witness :
  GetTasksForJobByRange goodStoreTask "job1" 4 2 = inr ∅
  /\ exists j,
       1 <= j < 5 /\ storeTask (taskIDFmt "job1" j) = inl "read failed".
Proof.
  split.
  - destruct (GetTasksForJobByRange_reads_half_open_range
                string string goodStoreTask "job1" 4 2) as (_ & _ & Hempty).
    apply Hempty. lia.
  - destruct (GetTasksForJobByRange_reads_half_open_range
                string string storeTask "job1" 1 5) as (_ & Herr & _).
    destruct (Herr "read failed" eq_refl) as (j & Hj & Hfail & _).
    exists j. split; [exact Hj | exact Hfail].
Defined.

Lemma QueryTasks_rejects_offset_beyond_instances_witness :
  QueryTasks "" storeInstanceCount goodStoreTask "job1" 5 10
  = inl (ErrorsNew "offset larger than job instances")
  /\ QueryTasks "" storeInstanceCount goodStoreTask "job2" 0 10
     = inl (FromStore "job not found").
Proof.
  destruct (QueryTasks_rejects_offset_beyond_instances
              string "" string storeInstanceCount goodStoreTask "job1" 5 10)
    as [_ Hoff].
  destruct (QueryTasks_rejects_offset_beyond_instances
              string "" string storeInstanceCount goodStoreTask "job2" 0 10)
    as [Hcfg _].
  split.
  - apply (Hoff 5); [reflexivity | lia].
  - apply Hcfg. reflexivity.
Defined.

Lemma QueryTasks_window_witness :
  QueryTasks "" storeInstanceCount goodStoreTask "job1" 1 3
  = inr (["task job1-1"; "task job1-2"], 2)
  /\ Z.of_nat (length ["task job1-1"; "task job1-2"]) = Z.min (3 - 1) (5 - 1 - 1)
  /\ QueryTasks "" storeInstanceCount goodStoreTask "job1" 2 4294967295
     = inr ([], 0)
  /\ (2 ^ 32 < 2 + 4294967295 -> @nil string = []).
Proof.
  split; [reflexivity|]. split; [|split; [reflexivity|]].
  - destruct (QueryTasks_window string "" string storeInstanceCount
                goodStoreTask "job1" 1 3 5
                ["task job1-1"; "task job1-2"] 2 eq_refl
                ltac:(unfold isUint32; lia) ltac:(unfold isUint32; lia)
                ltac:(unfold isUint32; lia) ltac:(lia) eq_refl)
      as (_ & _ & _ & Hlen & _).
    apply Hlen; lia.
  - destruct (QueryTasks_window string "" string storeInstanceCount
                goodStoreTask "job1" 2 4294967295 5 [] 0 eq_refl
                ltac:(unfold isUint32; lia) ltac:(unfold isUint32; lia)
                ltac:(unfold isUint32; lia) ltac:(lia) eq_refl)
      as (_ & _ & _ & _ & Hwrap & _).
    exact Hwrap.
Defined.

Lemma CreateTasks_batches_partition_witness :
  createTasksBatches 3 10 = [(0, 3); (3, 6); (6, 9); (9, 10)]
  /\ exists s e,
       (s, e) ∈ createTasksBatches 3 10 /\ s <= 7 < e.
Proof.
  split; [reflexivity|].
  destruct (CreateTasks_batches_partition 3 10) as (_ & Hcover & _);
    try lia; [vm_compute; discriminate|].
  destruct (Hcover 7) as (s & e & Hin & Hcont & _); [lia|].
  exists s, e. by split.
Defined.

Lemma CreateTasks_negative_batch_size_writes_nothing_witness :
  createTasksBatches (-4) 10 = [].
Proof.
  apply CreateTasks_negative_batch_size_writes_nothing; lia.
Defined.

Lemma taskIDFmt_injective_witness :
  taskIDFmt "a-1" 2 = "a-1-2"
  /\ ("a" ++ "-1" = "a-1" /\ 1 + 1 = 2).
Proof.
  split; [reflexivity|].
  apply (taskIDFmt_injective ("a" ++ "-1") "a-1" (1 + 1) 2);
    [lia | lia | reflexivity].
Defined.

End MoreStoreExamples.
